(** * Extraction-and-verification pipeline: a shallow embedding

    The development embeds the pure and the effectful parts of
    [backend/app/services/{aoai,grounding,workflow_runner}.py] and
    [backend/app/utils/json_safe.py], and proves properties of them.

    Conventions.
    - A Python [str] is a list of Unicode code points ([N]).
    - Python [int] is [Z]; a Python [float] is an IEEE 754 binary64
      number, represented by its exact value (a rational, [Q]); every
      operation that yields a float rounds its exact result to the
      nearest binary64 number, ties to the even mantissa ([nearest]).
    - A raised exception is the [Raise] constructor of [result].
    - Calls to the completion service are answered by an oracle that sees
      the history of earlier calls; every call is appended to a trace. *)

From Stdlib Require Import ZArith NArith QArith Qround Qabs Qpower Lqa Bool Lia Permutation Sorted DecimalString.
From Stdlib Require DecimalZ SpecFloat.
From stdpp Require Import base list strings.

Close Scope Q_scope.
Open Scope Z_scope.
Set Warnings "-register-all".

(* ================================================================== *)
(** * Part I: definitions *)
(* ================================================================== *)

(** ** Python values that the code passes around *)

Module Py.

Definition char := N.
Definition str := list char.

(** A string literal of the development, read as code points (the
    literals used here are ASCII). *)
Definition py (s : string) : str :=
  map Ascii.N_of_ascii (String.list_ascii_of_string s).

Definition len {A} (l : list A) : Z := Z.of_nat (length l).

Inductive exn_kind :=
| ValueError | TypeError | AttributeError | KeyError | IndexError
| ServiceError.

Record exn := { kind : exn_kind; msg : str }.

Inductive result (A : Type) :=
| Ok (a : A)
| Raise (e : exn).
Arguments Ok {A} a.
Arguments Raise {A} e.

Definition rbind {A B} (m : result A) (f : A -> result B) : result B :=
  match m with Ok a => f a | Raise e => Raise e end.

(** [str.isspace], which is also the class [\s] of [re] on [str]
    patterns and the set removed by [str.strip()]. *)
Definition is_space (c : char) : bool :=
  ((9 <=? c) && (c <=? 13) || (28 <=? c) && (c <=? 32)
   || (c =? 133) || (c =? 160) || (c =? 5760)
   || (8192 <=? c) && (c <=? 8202) || (c =? 8232) || (c =? 8233)
   || (c =? 8239) || (c =? 8287) || (c =? 12288))%N.

(** The decimal digits [0-9] (the ASCII part of the class [\d]). *)
Definition is_digit (c : char) : bool := ((48 <=? c) && (c <=? 57))%N.

Definition is_upper (c : char) : bool := ((65 <=? c) && (c <=? 90))%N.
Definition is_lower (c : char) : bool := ((97 <=? c) && (c <=? 122))%N.

(** [\w] on its ASCII part: letters, digits and the underscore. *)
Definition is_word (c : char) : bool :=
  is_upper c || is_lower c || is_digit c || (c =? 95)%N.

(** [str.lower] and [str.upper] on the ASCII letters. *)
Definition lower_char (c : char) : char := if is_upper c then (c + 32)%N else c.
Definition upper_char (c : char) : char := if is_lower c then (c - 32)%N else c.
Definition lower (s : str) : str := map lower_char s.
Definition upper (s : str) : str := map upper_char s.

Definition str_eqb (a b : str) : bool := bool_decide (a = b).

(** Truthiness of a string: [if s:]. *)
Definition truthy (s : str) : bool :=
  match s with [] => false | _ => true end.

Fixpoint startswith (s p : str) : bool :=
  match p, s with
  | [], _ => true
  | _ :: _, [] => false
  | c :: p', d :: s' => (c =? d)%N && startswith s' p'
  end.

(** [sub in s] *)
Fixpoint contains (s sub : str) : bool :=
  startswith s sub ||
  match s with
  | [] => false
  | _ :: s' => contains s' sub
  end.

(** Index normalisation of a slice bound. *)
Definition clamp (n i : Z) : Z :=
  if i <? 0 then Z.max (i + n) 0 else Z.min i n.

(** [s[a:b]] *)
Definition slice {A} (s : list A) (a b : Z) : list A :=
  let lo := clamp (len s) a in
  let hi := clamp (len s) b in
  take (Z.to_nat (hi - lo)) (drop (Z.to_nat lo) s).

(** [s[:b]] and [s[a:]] *)
Definition slice_to {A} (s : list A) (b : Z) : list A := slice s 0 b.
Definition slice_from {A} (s : list A) (a : Z) : list A := slice s a (len s).

Fixpoint lstrip (s : str) : str :=
  match s with
  | c :: r => if is_space c then lstrip r else s
  | [] => []
  end.
Definition rstrip (s : str) : str := reverse (lstrip (reverse s)).
Definition strip (s : str) : str := rstrip (lstrip s).

(** [str(n)] for an [int]. *)
Definition str_of_Z (z : Z) : str := py (NilZero.string_of_int (Z.to_int z)).

(** [range(start, stop, step)] *)
Definition py_range (start stop step : Z) : result (list Z) :=
  if step =? 0 then Raise {| kind := ValueError; msg := py "range() arg 3 must not be zero" |}
  else
    let count :=
      if 0 <? step then (stop - start + step - 1) / step
      else (start - stop - step - 1) / (- step) in
    Ok (map (fun k => start + Z.of_nat k * step) (seq 0 (Z.to_nat count))).

(** [sorted(l, key=...)]: the stable sort, as insertion from the right;
    [le x y] is [key x <= key y]. *)
Fixpoint insert_by {A} (le : A -> A -> bool) (x : A) (l : list A) : list A :=
  match l with
  | [] => [x]
  | y :: l' => if le x y then x :: y :: l' else y :: insert_by le x l'
  end.
Definition sorted_by {A} (le : A -> A -> bool) (l : list A) : list A :=
  foldr (insert_by le) [] l.

(** [sep.join(parts)] *)
Fixpoint join (sep : str) (parts : list str) : str :=
  match parts with
  | [] => []
  | [p] => p
  | p :: ps => p ++ sep ++ join sep ps
  end.

(** [list(dict.fromkeys(l))]: first occurrences, in order. *)
Fixpoint dedup_first (seen l : list str) : list str :=
  match l with
  | [] => []
  | x :: l' =>
      if existsb (str_eqb x) seen then dedup_first seen l'
      else x :: dedup_first (x :: seen) l'
  end.
Definition fromkeys (l : list str) : list str := dedup_first [] l.

(** [round(q)]: to the nearest integer, ties to even. *)
Definition round_half_even (q : Q) : Z :=
  let f := Qfloor q in
  match Qcompare (q - inject_Z f)%Q (1 # 2)%Q with
  | Lt => f
  | Gt => f + 1
  | Eq => if Z.even f then f else f + 1
  end.

(** *** Floats

    A finite [float] is a number [m * 2 ** e] with [|m| < 2 ** 53] and
    [-1074 <= e <= 971]; it is represented by that number. *)

Definition pow2 (k : Z) : Q := (2 ^ k)%Q.

(** The position of the leading bit of a positive number: the [k]
    with [2 ** k <= q < 2 ** (k + 1)]. *)
Definition log2_floor (q : Q) : Z :=
  let k := Z.log2 (Qnum q) - Z.log2 (Z.pos (Qden q)) in
  if Qle_bool (pow2 k) q then k else k - 1.

(** Rounding to nearest, ties to even: 53 bits of mantissa from the
    leading bit of [q] down, and no bit below [2 ** -1074] (the
    subnormal numbers). The exponent is not bounded from above here;
    where a result can exceed the largest float, the caller tests
    [overflows]. *)
Definition nearest (q : Q) : Q :=
  if Qeq_bool q 0 then 0%Q
  else
    let a := Qabs q in
    let e := Z.max (log2_floor a - 52) (-1074) in
    let m := round_half_even (a / pow2 e)%Q in
    Qred ((if Qle_bool 0 q then 1 else -1) * (inject_Z m * pow2 e))%Q.

Definition overflows (x : Q) : bool := Qle_bool (pow2 1024) (Qabs x).

(** A decimal literal of the source, such as [0.85]. *)
Definition flt (q : Q) : Q := nearest q.

(** [float(n)] for an [int], and the conversion of an [int] operand
    of a mixed operation. *)
Definition float_of_int (n : Z) : Q := nearest (inject_Z n).

(** [x + y], [x - y], [x * y] and [x / y] on floats. *)
Definition fadd (x y : Q) : Q := nearest (x + y)%Q.
Definition fsub (x y : Q) : Q := nearest (x - y)%Q.
Definition fmul (x y : Q) : Q := nearest (x * y)%Q.
Definition fdiv (x y : Q) : Q := nearest (x / y)%Q.

(** [a / b] on two [int]s, which rounds the exact quotient once; every
    use below is guarded by [b > 0]. *)
Definition int_div (a b : Z) : Q := nearest (inject_Z a / inject_Z b)%Q.

Definition Qlt_bool (a b : Q) : bool := negb (Qle_bool b a).

(** [round(x, 2)]: the float nearest to the decimal with two places
    that is nearest to the value of [x], ties to the even digit. *)
Definition round2 (x : Q) : Q := nearest (round_half_even (x * 100)%Q # 100)%Q.

(** The result of [float(s)]: a finite float, or [inf] for a number
    beyond the largest float. *)
Inductive parsed_float :=
| Finite (x : Q)
| Infinite.

Fixpoint dropwhile_not_dot (s : str) : str :=
  match s with
  | c :: r => if (c =? 46)%N then s else dropwhile_not_dot r
  | [] => []
  end.

(** [float(s)] for a string of digits and dots, as [_extract_key_values]
    captures them: [None] stands for [ValueError] (no digit, or more
    than one dot). *)
Definition parse_float (s : str) : option parsed_float :=
  let digits := List.filter is_digit s in
  let dots := length (List.filter (N.eqb 46) s) in
  if forallb (fun c => is_digit c || (c =? 46)%N) s
     && (dots <=? 1)%nat && negb (length digits =? 0)%nat
  then
    let frac := length (List.filter is_digit (dropwhile_not_dot s)) in
    let den := if (frac =? 0)%nat then 1%positive
               else Pos.pow 10 (Pos.of_nat frac) in
    let x := nearest (Qmake (fold_left (fun acc c => 10 * acc + (Z.of_N c - 48)) digits 0) den) in
    Some (if overflows x then Infinite else Finite x)
  else None.

(** [a <= b] on two results of [float]. *)
Definition parsed_le (a b : parsed_float) : bool :=
  match a, b with
  | Finite x, Finite y => Qle_bool x y
  | _, Infinite => true
  | Infinite, Finite _ => false
  end.

(** [abs(a - b) < bound]: with an infinite operand the difference is
    infinite or not a number, and the test is false. *)
Definition parsed_close (a b : parsed_float) (bound : Q) : bool :=
  match a, b with
  | Finite x, Finite y => Qlt_bool (Qabs (fsub x y)) bound
  | _, _ => false
  end.

(** [s.split()]: the maximal runs of non-space characters. *)
Fixpoint split_ws_aux (s : str) (cur : str) : list str :=
  match s with
  | [] => match cur with [] => [] | _ => [reverse cur] end
  | c :: r =>
      if is_space c
      then match cur with [] => split_ws_aux r [] | _ => reverse cur :: split_ws_aux r [] end
      else split_ws_aux r (c :: cur)
  end.
Definition split_ws (s : str) : list str := split_ws_aux s [].

End Py.
Export Py.

(** ** Regular expressions, as [re] runs them

    A backtracking matcher with the priorities of [re]: alternatives
    left to right, greedy repetition longest first, lazy repetition
    shortest first; [finditer] scans left to right and resumes after
    each match. Classes are predicates on code points. *)

Module Re.

Inductive re :=
| Eps
| Chr (p : char -> bool)
| Seq (r1 r2 : re)
| Alt (r1 r2 : re)
| Star (greedy : bool) (r : re)
| Group (n : nat) (r : re)
| WordB.

Record mstate :=
  { prev : option char; rest : str; pos : nat; caps : list (nat * str) }.

Definition word_boundary (st : mstate) : bool :=
  xorb (match prev st with Some c => is_word c | None => false end)
       (match rest st with c :: _ => is_word c | [] => false end).

Fixpoint rmatch (r : re) (st : mstate) (k : mstate -> option mstate)
  {struct r} : option mstate :=
  match r with
  | Eps => k st
  | Chr p =>
      match rest st with
      | c :: s' =>
          if p c
          then k {| prev := Some c; rest := s'; pos := S (pos st); caps := caps st |}
          else None
      | [] => None
      end
  | Seq r1 r2 => rmatch r1 st (fun st' => rmatch r2 st' k)
  | Alt r1 r2 =>
      match rmatch r1 st k with
      | Some x => Some x
      | None => rmatch r2 st k
      end
  | Star g r1 =>
      (fix loop (n : nat) (st : mstate) {struct n} : option mstate :=
         match n with
         | O => k st
         | S n' =>
             let again st' :=
               if (length (rest st') <? length (rest st))%nat
               then loop n' st' else None in
             if g then
               match rmatch r1 st again with
               | Some x => Some x
               | None => k st
               end
             else
               match k st with
               | Some x => Some x
               | None => rmatch r1 st again
               end
         end) (S (length (rest st))) st
  | Group n r1 =>
      rmatch r1 st (fun st' =>
        k {| prev := prev st'; rest := rest st'; pos := pos st';
             caps := (n, take (pos st' - pos st) (rest st)) :: caps st' |})
  | WordB => if word_boundary st then k st else None
  end.

(** A match object: [m.start()], [m.end()] and the groups. *)
Record rmatch_obj :=
  { m_start : nat; m_end : nat; m_groups : list (nat * str) }.

Definition group (m : rmatch_obj) (n : nat) : str :=
  match find (fun g => (g.1 =? n)%nat) (m_groups m) with
  | Some g => g.2
  | None => []
  end.

Fixpoint finditer_from (fuel : nat) (r : re) (pv : option char) (s : str)
  (p : nat) : list rmatch_obj :=
  match fuel with
  | O => []
  | S fuel' =>
      let step :=
        match s with
        | c :: s' => finditer_from fuel' r (Some c) s' (S p)
        | [] => []
        end in
      match rmatch r {| prev := pv; rest := s; pos := p; caps := [] |} Some with
      | Some st' =>
          let m := {| m_start := p; m_end := pos st'; m_groups := caps st' |} in
          if (pos st' =? p)%nat then m :: step
          else m :: finditer_from fuel' r (prev st') (rest st') (pos st')
      | None => step
      end
  end.

(** [re.finditer(r, s)] *)
Definition finditer (r : re) (s : str) : list rmatch_obj :=
  finditer_from (S (length s)) r None s 0.

(** [re.search(r, s)] *)
Definition search (r : re) (s : str) : option rmatch_obj :=
  head (finditer r s).

(** [re.findall(r, s)] for a pattern without groups. *)
Definition findall (r : re) (s : str) : list str :=
  map (fun m => take (m_end m - m_start m) (drop (m_start m) s)) (finditer r s).

(** *** Pattern syntax *)

Definition chr (c : N) : re := Chr (N.eqb c).
Definition any_of (cs : string) : re :=
  Chr (fun c => existsb (N.eqb c) (py cs)).
Definition space : re := Chr is_space.
Definition digit : re := Chr is_digit.
Definition plus (r : re) : re := Seq r (Star true r).
Definition star (r : re) : re := Star true r.
Definition lazy_star (r : re) : re := Star false r.
Definition opt (r : re) : re := Alt r Eps.
Fixpoint seqs (rs : list re) : re :=
  match rs with
  | [] => Eps
  | [r] => r
  | r :: rs' => Seq r (seqs rs')
  end.
Fixpoint alts (rs : list re) : re :=
  match rs with
  | [] => Chr (fun _ => false)
  | [r] => r
  | r :: rs' => Alt r (alts rs')
  end.
Fixpoint upto (n : nat) (r : re) : re :=
  match n with
  | O => Eps
  | S n' => Alt (Seq r (upto n' r)) Eps
  end.
Definition lit (s : string) : re := seqs (map chr (py s)).

(** A letter under [re.IGNORECASE]: both cases, and the four
    non-ASCII letters that [re] folds onto ASCII ones (dotted capital I
    and dotless i onto i, long s onto s, the Kelvin sign onto k). *)
Definition ci_char (x : char) (c : char) : bool :=
  (lower_char c =? lower_char x)%N
  || ((lower_char x =? 105) && ((c =? 304) || (c =? 305)))%N
  || ((lower_char x =? 115) && (c =? 383))%N
  || ((lower_char x =? 107) && (c =? 8490))%N.
Definition lit_i (s : string) : re := seqs (map (fun x => Chr (ci_char x)) (py s)).

End Re.

(** ** Matching extracted images to the paper's figure numbers ([aoai.py]) *)

Module Figures.
Import Re.

(** A described image: [{"index", "page", "caption", "description"}]. *)
Record figure_description :=
  { fd_index : option Z; fd_page : Z; fd_caption : str; fd_description : str }.

(** A figure reference found in the text. *)
Record fig_ref := { fig_num : Z; ref_caption : str; ref_offset : Z }.

Record matched_figure := { label : str; page : Z; description : str }.

(** [int(s)] for a string of decimal digits. *)
Definition int_of_digits (s : str) : Z :=
  fold_left (fun acc c => 10 * acc + (Z.of_N c - 48)) s 0.

(** The figure-reference pattern, ignoring case: "Fig\.?\s*" or
    "Figure\s*", then the number "(\d+)", then "\s*[.:\s]" and the
    caption snippet "([^\n]{0,200})". *)
Definition fig_ref_re : re :=
  seqs [ Alt (seqs [lit_i "Fig"; opt (chr 46); star space])
             (seqs [lit_i "Figure"; star space]);
         Group 1 (plus digit);
         star space;
         Chr (fun c => (c =? 46)%N || (c =? 58)%N || is_space c);
         Group 2 (upto 200 (Chr (fun c => negb (c =? 10)%N))) ].

Definition fig_refs (text : str) : list fig_ref :=
  map (fun m => {| fig_num := int_of_digits (group m 1);
                   ref_caption := strip (group m 2);
                   ref_offset := Z.of_nat (m_start m) |})
      (finditer fig_ref_re text).

(** Keep the first occurrence of each figure number. *)
Fixpoint first_per_number (seen : list Z) (refs : list fig_ref) : list fig_ref :=
  match refs with
  | [] => []
  | r :: refs' =>
      if bool_decide (fig_num r ∈ seen) then first_per_number seen refs'
      else r :: first_per_number (fig_num r :: seen) refs'
  end.
Definition unique_refs (text : str) : list fig_ref :=
  first_per_number [] (fig_refs text).

Definition image_le (a b : figure_description) : bool :=
  (fd_page a <? fd_page b)
  || ((fd_page a =? fd_page b)
      && (default 0 (fd_index a) <=? default 0 (fd_index b))).
Definition ref_le (a b : fig_ref) : bool := fig_num a <=? fig_num b.

Definition sorted_images (fds : list figure_description) : list figure_description :=
  sorted_by image_le fds.
Definition sorted_refs (text : str) : list fig_ref :=
  sorted_by ref_le (unique_refs text).

Definition fig_label (r : fig_ref) : str := py "Fig. " ++ str_of_Z (fig_num r).
Definition page_label (img : figure_description) : str :=
  py "Image from Page " ++ str_of_Z (fd_page img).

Definition labelled (lbl : str) (img : figure_description) : matched_figure :=
  {| label := lbl; page := fd_page img; description := fd_description img |}.

(** *** The scored fallback, when the counts differ *)

Definition est_page (text : str) (max_page : Z) (r : fig_ref) : Z :=
  let total_len := Z.max (len text) 1 in
  Z.max 1 (round_half_even
             (fmul (int_div (ref_offset r) total_len) (float_of_int max_page))).

(** The set of matches of "\b\w{4,}\b", as a duplicate-free list. *)
Definition terms (s : str) : list str :=
  remove_dups (findall (seqs [WordB; Chr is_word; Chr is_word; Chr is_word;
                              Chr is_word; star (Chr is_word); WordB]) s).

Definition specific_keywords : list (string * Q) :=
  [ ("prisma", flt 2); ("flowchart", flt (3 # 2)); ("flow diagram", flt (3 # 2));
    ("forest plot", flt (3 # 2)); ("funnel plot", flt 1);
    ("overall survival", flt 2); ("progression", flt 2);
    ("toxicit", flt 2); ("hematolog", flt 2);
    ("bias", flt 2); ("cochrane", flt (3 # 2)); ("risk of bias", flt 2) ]%Q.

Definition _match_score (text : str) (max_page : Z)
  (img : figure_description) (r : fig_ref) : Q :=
  let page_dist := Z.abs (fd_page img - est_page text max_page r) in
  let score : Q :=
    fadd 0 (if page_dist =? 0 then flt 3
            else if page_dist =? 1 then flt (3 # 2) else flt (1 # 10)) in
  let desc_lower := lower (fd_description img) in
  let caption_lower := lower (ref_caption r) in
  let caption_terms := terms caption_lower in
  let desc_terms := terms desc_lower in
  let score :=
    match caption_terms with
    | [] => score
    | _ =>
        let overlap :=
          length (filter (fun t => bool_decide (t ∈ desc_terms)) caption_terms) in
        fadd score (fmul (float_of_int (Z.of_nat overlap)) (flt (1 # 2)))
    end in
  fold_left (fun score kw =>
               if contains caption_lower (py kw.1) && contains desc_lower (py kw.1)
               then fadd score kw.2 else score)
            specific_keywords score.

(** [scores.sort(key=lambda x: -x[2])]: stable, best score first. *)
Definition score_le (a b : nat * nat * Q) : bool := Qle_bool b.2 a.2.

(** The greedy pass over the sorted scores: image index to reference
    index, each used at most once. *)
Definition assign (scores : list (nat * nat * Q)) : list (nat * nat) :=
  fold_left (fun (asg : list (nat * nat)) (e : nat * nat * Q) =>
               let '(i, j, _) := e in
               if bool_decide (i ∈ asg.*1) || bool_decide (j ∈ asg.*2)
               then asg else asg ++ [(i, j)])
            scores [].

Definition greedy_match (text : str) (fds imgs : list figure_description)
  (refs : list fig_ref) : list matched_figure :=
  let max_page := foldr Z.max (fd_page (default {| fd_index := None; fd_page := 8;
                                                   fd_caption := []; fd_description := [] |}
                                          (head fds)))
                    (map fd_page fds) in
  let scores :=
    flat_map (fun '(i, img) =>
                map (fun '(j, r) => (i, j, _match_score text max_page img r))
                    (imap pair refs))
             (imap pair imgs) in
  let assignments := assign (sorted_by score_le scores) in
  imap (fun i img =>
          match find (fun a => (a.1 =? i)%nat) assignments with
          | Some (_, j) =>
              match refs !! j with
              | Some r => labelled (fig_label r) img
              | None => labelled (page_label img) img
              end
          | None => labelled (page_label img) img
          end) imgs.

Definition _match_figures_to_paper (text : str)
  (figure_descriptions : list figure_description) : list matched_figure :=
  match figure_descriptions with
  | [] => []
  | _ =>
      match unique_refs text with
      | [] => map (fun fd => labelled (page_label fd) fd) figure_descriptions
      | _ =>
          let imgs := sorted_images figure_descriptions in
          let refs := sorted_refs text in
          if (length imgs =? length refs)%nat
          then zip_with (fun img r => labelled (fig_label r) img) imgs refs
          else greedy_match text figure_descriptions imgs refs
      end
  end.

End Figures.

(** ** Section-based chunking ([aoai.py]) *)

Module Chunker.

Record section := { sec_heading : str; sec_offset : option Z }.
Record chunk := { heading : str; content : str }.

Section WithBudget.

(** [MAX_CHUNK_CHARS = int(os.getenv("MAX_CHUNK_CHARS", "30000"))] *)
Variable MAX_CHUNK_CHARS : Z.

Definition _chunk_by_size (text : str) : result (list chunk) :=
  rbind (py_range 0 (len text) MAX_CHUNK_CHARS) (fun starts =>
  Ok (imap (fun k i =>
              {| heading := py "Part " ++ str_of_Z (Z.of_nat k + 1);
                 content := slice text i (i + MAX_CHUNK_CHARS) |}) starts)).

Record merge_state :=
  { merged : list chunk; buffer_heading : str; buffer_content : str }.

Definition flush (st : merge_state) : list chunk :=
  if truthy (buffer_content st)
  then merged st ++ [ {| heading := buffer_heading st;
                         content := strip (buffer_content st) |} ]
  else merged st.

Definition merge_step (max_size : Z) (st : merge_state) (c : chunk) : merge_state :=
  if len (buffer_content st) + len (content c) <? max_size then
    {| merged := merged st;
       buffer_heading :=
         if truthy (buffer_heading st)
         then buffer_heading st ++ py " + " ++ heading c
         else heading c;
       buffer_content := buffer_content st ++ [10%N; 10%N] ++ content c |}
  else
    {| merged := flush st;
       buffer_heading := heading c;
       buffer_content := content c |}.

Definition _merge_small_chunks (chunks : list chunk) (max_size : Z) : list chunk :=
  flush (fold_left (merge_step max_size) chunks
           {| merged := []; buffer_heading := []; buffer_content := [] |}).

(** The sections that carry an offset, as (offset, heading). *)
Definition with_offset (sections : list section) : list (Z * str) :=
  omap (fun s => match sec_offset s with
                 | Some o => Some (o, sec_heading s)
                 | None => None
                 end) sections.

Definition piece (h : str) (body : str) : list chunk :=
  let c := strip body in
  if truthy c then [ {| heading := h; content := c |} ] else [].

(** The loop over [enumerate(sorted_sections)]: each section runs to
    the next section's offset, the last one to the end of the text. *)
Fixpoint section_chunks (text : str) (secs : list (Z * str)) : list chunk :=
  match secs with
  | [] => []
  | (start, h) :: rest =>
      let stop := match rest with (o, _) :: _ => o | [] => len text end in
      piece h (slice text start stop) ++ section_chunks text rest
  end.

Definition preamble_chunks (text : str) (secs : list (Z * str)) : list chunk :=
  match secs with
  | (first_offset, _) :: _ =>
      if 0 <? first_offset
      then piece (py "Preamble / Title") (slice_to text first_offset)
      else []
  | [] => []
  end.

Definition sorted_sections (sections : list section) : list (Z * str) :=
  sorted_by (fun a b => a.1 <=? b.1) (with_offset sections).

(** The chunks handed to [_merge_small_chunks]. *)
Definition raw_chunks (text : str) (sections : list section) : list chunk :=
  preamble_chunks text (sorted_sections sections)
  ++ section_chunks text (sorted_sections sections).

Definition uses_fallback (sections : list section) : bool :=
  (len sections <? 2) || match sorted_sections sections with [] => true | _ => false end.

Definition split_into_sections (text : str) (sections : list section) : result (list chunk) :=
  if uses_fallback sections then _chunk_by_size text
  else Ok (_merge_small_chunks (raw_chunks text sections) MAX_CHUNK_CHARS).

End WithBudget.

End Chunker.

(** ** JSON values, as [json.loads] returns them *)

Module Json.

Inductive json :=
| JNull
| JBool (b : bool)
| JInt (z : Z)
| JFloat (q : Q)
| JStr (s : str)
| JList (items : list json)
| JDict (items : list (str * json)).

(** Truthiness: [if v:] *)
Definition json_truthy (j : json) : bool :=
  match j with
  | JNull => false
  | JBool b => b
  | JInt z => negb (z =? 0)
  | JFloat q => negb (Qeq_bool q 0)
  | JStr s => truthy s
  | JList l => match l with [] => false | _ => true end
  | JDict l => match l with [] => false | _ => true end
  end.

Definition assoc {V} (kvs : list (str * V)) (key : str) : option V :=
  option_map snd (find (fun kv => str_eqb kv.1 key) kvs).

(** [d.get(key, dflt)] on the items of a dict. *)
Definition dict_get (kvs : list (str * json)) (key : string) (dflt : json) : json :=
  default dflt (assoc kvs (py key)).

(** [d[key] = v] on the items of a dict: in place for a known key, at
    the end for a new one. *)
Fixpoint assoc_set {V} (kvs : list (str * V)) (key : str) (v : V) : list (str * V) :=
  match kvs with
  | [] => [(key, v)]
  | (k, w) :: kvs' =>
      if str_eqb k key then (k, v) :: kvs' else (k, w) :: assoc_set kvs' key v
  end.

Definition is_str (j : json) : bool := match j with JStr _ => true | _ => false end.

(** [j == "text"] and [j is True], [j is False] *)
Definition eq_str (j : json) (text : string) : bool :=
  match j with JStr s => str_eqb s (py text) | _ => false end.
Definition is_bool (j : json) (b : bool) : bool :=
  match j with JBool c => Bool.eqb c b | _ => false end.

End Json.
Export Json.

(** ** [difflib.SequenceMatcher(None, a, b).ratio()]

    The matching blocks are found as [difflib] finds them: the longest
    block first (the earliest in [a], then the earliest in [b], among
    the longest), then recursively to its left and to its right; with
    [autojunk], in a [b] of 200 elements or more the elements that
    occur more than [len(b) // 100 + 1] times start no block but may
    extend one. *)

Module Difflib.

Definition popular (b : str) : list char :=
  if (length b <? 200)%nat then []
  else
    let ntest := (length b / 100 + 1)%nat in
    List.filter (fun c => (ntest <? length (List.filter (N.eqb c) b))%nat)
      (remove_dups b).

Definition best := (nat * nat * nat)%type.

(** One row of the table of [find_longest_match]: [diag] is the
    previous row shifted by one, [i] and [j] are absolute positions. *)
Fixpoint row_scan (pop : list char) (x : char) (i j : nat) (sb : str)
  (diag : list nat) (bst : best) : list nat * best :=
  match sb, diag with
  | c :: sb', d :: diag' =>
      if (x =? c)%N && negb (existsb (N.eqb c) pop) then
        let k := S d in
        let bst' := if (bst.2 <? k)%nat then (i + 1 - k, j + 1 - k, k)%nat else bst in
        let '(row, bst'') := row_scan pop x i (S j) sb' diag' bst' in
        (k :: row, bst'')
      else
        let '(row, bst'') := row_scan pop x i (S j) sb' diag' bst in
        (O :: row, bst'')
  | _, _ => ([], bst)
  end.

Fixpoint rows (pop : list char) (sa : str) (i blo : nat) (sb : str)
  (row : list nat) (bst : best) : best :=
  match sa with
  | [] => bst
  | x :: sa' =>
      let '(row', bst') := row_scan pop x i blo sb (O :: row) bst in
      rows pop sa' (S i) blo sb row' bst'
  end.

Fixpoint extend_left (fuel : nat) (a b : str) (alo blo : nat) (bst : best) : best :=
  match fuel with
  | O => bst
  | S fuel' =>
      let '(bi, bj, bsz) := bst in
      if (alo <? bi)%nat && (blo <? bj)%nat
         && bool_decide (a !! (bi - 1)%nat = b !! (bj - 1)%nat)
      then extend_left fuel' a b alo blo (bi - 1, bj - 1, S bsz)%nat
      else bst
  end.

Fixpoint extend_right (fuel : nat) (a b : str) (ahi bhi : nat) (bst : best) : best :=
  match fuel with
  | O => bst
  | S fuel' =>
      let '(bi, bj, bsz) := bst in
      if (bi + bsz <? ahi)%nat && (bj + bsz <? bhi)%nat
         && bool_decide (a !! (bi + bsz)%nat = b !! (bj + bsz)%nat)
      then extend_right fuel' a b ahi bhi (bi, bj, S bsz)
      else bst
  end.

Definition find_longest_match (a b : str) (alo ahi blo bhi : nat) : best :=
  let sa := take (ahi - alo) (drop alo a) in
  let sb := take (bhi - blo) (drop blo b) in
  let bst := rows (popular b) sa alo blo sb (replicate (length sb) O) (alo, blo, O) in
  extend_right (length a) a b ahi bhi (extend_left (length a) a b alo blo bst).

(** The total size of the matching blocks within the two ranges. *)
Fixpoint matches (fuel : nat) (a b : str) (alo ahi blo bhi : nat) : nat :=
  match fuel with
  | O => O
  | S fuel' =>
      let '(i, j, k) := find_longest_match a b alo ahi blo bhi in
      if (k =? 0)%nat then O
      else
        (k
         + (if (alo <? i)%nat && (blo <? j)%nat
            then matches fuel' a b alo i blo j else O)
         + (if (i + k <? ahi)%nat && (j + k <? bhi)%nat
            then matches fuel' a b (i + k) ahi (j + k) bhi else O))%nat
  end.

(** [_calculate_ratio(matches, length)]: [2.0 * matches / length] for
    a length that is not zero, [1.0] otherwise. *)
Definition ratio (a b : str) : Q :=
  let total := (length a + length b)%nat in
  if (total =? 0)%nat then flt 1
  else fdiv (fmul (flt 2) (float_of_int
                             (Z.of_nat (matches (S (length a)) a b 0 (length a) 0 (length b)))))
            (float_of_int (Z.of_nat total)).

End Difflib.

(** ** Grounding validation ([grounding.py]): the deterministic layers *)

Module Grounding.
Import Re.

Definition QUOTE_SIMILARITY_THRESHOLD : Q := flt (60 # 100).
Definition STAT_MATCH_THRESHOLD : Q := flt (50 # 100).

Fixpoint collapse_ws (s : str) (in_ws : bool) : str :=
  match s with
  | [] => []
  | c :: r =>
      if is_space c
      then (if in_ws then collapse_ws r true else 32%N :: collapse_ws r true)
      else c :: collapse_ws r false
  end.

(** The dash variants U+2013, U+2014, U+2012 and the minus sign U+2212. *)
Definition unify_dash (c : char) : char :=
  if ((c =? 8211) || (c =? 8212) || (c =? 8210) || (c =? 8722))%N then 45%N else c.

Definition _normalize (text : str) : str :=
  strip (collapse_ws (map unify_dash (lower text)) false).

Inductive key_value :=
| Metric (name value : str)
| PValue (operator value : str)
| CI (low high : str)
| CIBracket (low high : str)
| Percent (value : str)
| NValue (value : str)
| Duration (value unit : str)
| Dosage (value unit : str).

(** The class "[\d.]" *)
Definition numch : re := Chr (fun c => is_digit c || (c =? 46)%N).
Definition number : re := plus numch.

(** "(HR|RR|OR)\s*(?:=|is|of|:)\s*([\d.]+)", ignoring case *)
Definition metric_re : re :=
  seqs [ Group 1 (alts [lit_i "HR"; lit_i "RR"; lit_i "OR"]); star space;
         alts [chr 61; lit_i "is"; lit_i "of"; chr 58]; star space;
         Group 2 number ].

(** "p\s*([<>=]+)\s*([\d.]+)", ignoring case *)
Definition p_value_re : re :=
  seqs [ lit_i "p"; star space; Group 1 (plus (any_of "<>=")); star space;
         Group 2 number ].

(** "CI[:\s]*([\d.]+)\s*[-–,\s]+\s*([\d.]+)", ignoring case; the
    separator class holds the hyphen, the en dash, the comma and
    whitespace. *)
Definition ci_re : re :=
  seqs [ lit_i "CI"; star (Chr (fun c => (c =? 58)%N || is_space c));
         Group 1 number; star space;
         plus (Chr (fun c => (c =? 45)%N || (c =? 8211)%N || (c =? 44)%N || is_space c));
         star space; Group 2 number ].

(** An opening bracket or parenthesis, "([\d.]+)\s*[,\s]\s*([\d.]+)",
    and a closing bracket or parenthesis. *)
Definition ci_bracket_re : re :=
  seqs [ Chr (fun c => (c =? 91)%N || (c =? 40)%N);
         Group 1 number; star space;
         Chr (fun c => (c =? 44)%N || is_space c); star space;
         Group 2 number;
         Chr (fun c => (c =? 93)%N || (c =? 41)%N) ].

(** "([\d.]+)\s*%" *)
Definition percent_re : re := seqs [ Group 1 number; star space; chr 37 ].

(** "[Nn]\s*=\s*([\d,]+)" *)
Definition n_value_re : re :=
  seqs [ any_of "Nn"; star space; chr 61; star space;
         Group 1 (plus (Chr (fun c => is_digit c || (c =? 44)%N))) ].

(** "([\d.]+)\s*(months?|years?|weeks?)", ignoring case *)
Definition duration_re : re :=
  seqs [ Group 1 number; star space;
         Group 2 (alts [ Seq (lit_i "month") (opt (Chr (ci_char 115%N)));
                         Seq (lit_i "year") (opt (Chr (ci_char 115%N)));
                         Seq (lit_i "week") (opt (Chr (ci_char 115%N))) ]) ].

(** "([\d.]+)\s*(Gy|mg/?m[²2]?)", ignoring case *)
Definition dosage_re : re :=
  seqs [ Group 1 number; star space;
         Group 2 (alts [ lit_i "Gy";
                         seqs [ lit_i "mg"; opt (chr 47); Chr (ci_char 109%N);
                                opt (Chr (fun c => (c =? 178)%N || (c =? 50)%N)) ] ]) ].

Definition _extract_key_values (text : str) : list key_value :=
  map (fun m => Metric (upper (group m 1)) (group m 2)) (finditer metric_re text)
  ++ map (fun m => PValue (group m 1) (group m 2)) (finditer p_value_re text)
  ++ map (fun m => CI (group m 1) (group m 2)) (finditer ci_re text)
  ++ map (fun m => CIBracket (group m 1) (group m 2)) (finditer ci_bracket_re text)
  ++ map (fun m => Percent (group m 1)) (finditer percent_re text)
  ++ map (fun m => NValue (List.filter (fun c => negb (c =? 44)%N) (group m 1)))
         (finditer n_value_re text)
  ++ map (fun m => Duration (group m 1) (lower (group m 2))) (finditer duration_re text)
  ++ map (fun m => Dosage (group m 1) (group m 2)) (finditer dosage_re text).

Definition _find_value_in_source (value source_norm : str) : bool :=
  contains source_norm value
  || (startswith value (py "0.") && contains source_norm (drop 1 value)).

(** The lookup sets built from the source values. *)
Definition source_metrics (svs : list key_value) : list (str * str) :=
  omap (fun sv => match sv with Metric n v => Some (n, v) | _ => None end) svs.
Definition source_ci_bounds (svs : list key_value) : list str :=
  flat_map (fun sv => match sv with
                      | CI lo hi | CIBracket lo hi => [lo; hi]
                      | _ => []
                      end) svs.
Definition source_p_values (svs : list key_value) : list str :=
  omap (fun sv => match sv with PValue _ v => Some v | _ => None end) svs.

Definition label_of (cv : key_value) : str :=
  match cv with
  | Metric n v => n ++ py "=" ++ v
  | CI lo hi => py "CI " ++ lo ++ py "-" ++ hi
  | CIBracket lo hi => py "[" ++ lo ++ py ", " ++ hi ++ py "]"
  | PValue op v => py "p" ++ op ++ v
  | Percent v => v ++ py "%"
  | NValue v => py "N=" ++ v
  | Duration v u => v ++ py " " ++ u
  | Dosage v u => v ++ py " " ++ u
  end.

Definition in_strs (x : str) (l : list str) : bool := existsb (str_eqb x) l.

Definition bound_found (svs : list key_value) (source_norm b : str) : bool :=
  in_strs b (source_ci_bounds svs) || _find_value_in_source b source_norm.

(** The loop over [source_p_values], with its [break]. *)
Definition p_value_matches (op : str) (claim_p : parsed_float) (sps : list str) : bool :=
  existsb (fun sp =>
             match parse_float sp with
             | Some source_p =>
                 if str_eqb op (py "<") || str_eqb op (py "<=")
                 then parsed_le source_p claim_p
                 else if str_eqb op (py "=")
                 then parsed_close source_p claim_p (flt (1 # 1000))
                 else false
             | None => false
             end) sps.

(** [is_found] for one claimed value; converting the claimed p-value
    with [float] may raise. *)
Definition is_found (svs : list key_value) (source_norm : str) (cv : key_value)
  : result bool :=
  match cv with
  | Metric n v =>
      Ok (existsb (fun nv => str_eqb nv.1 n && str_eqb nv.2 v) (source_metrics svs)
          || (_find_value_in_source v source_norm && contains source_norm (lower n)))
  | CI lo hi | CIBracket lo hi =>
      Ok (bound_found svs source_norm lo && bound_found svs source_norm hi)
  | PValue op v =>
      match parse_float v with
      | None => Raise {| kind := ValueError;
                         msg := py "could not convert string to float" |}
      | Some claim_p =>
          Ok (p_value_matches op claim_p (source_p_values svs)
              || _find_value_in_source v source_norm)
      end
  | Percent v | NValue v | Duration v _ | Dosage v _ =>
      Ok (_find_value_in_source v source_norm)
  end.

(** The loop over the claimed values: the labels found and missing. *)
Fixpoint check_values (svs : list key_value) (source_norm : str)
  (cvs : list key_value) : result (list str * list str) :=
  match cvs with
  | [] => Ok ([], [])
  | cv :: cvs' =>
      rbind (is_found svs source_norm cv) (fun f =>
      rbind (check_values svs source_norm cvs') (fun '(found, missing) =>
      Ok (if f then (label_of cv :: found, missing)
          else (found, label_of cv :: missing))))
  end.

Record stat_check :=
  { grounded : option bool; score : Q; found : list str; missing : list str;
    detail : option str }.

Definition _verify_stat_evidence (stat_text source_text : str) : result stat_check :=
  let claim_values := _extract_key_values stat_text in
  match claim_values with
  | [] => Ok {| grounded := None; score := flt 0; found := []; missing := [];
                detail := Some (py "no_stats_to_verify") |}
  | _ =>
      let source_norm := _normalize source_text in
      let source_values := _extract_key_values source_text in
      rbind (check_values source_values source_norm claim_values) (fun '(fnd, mis) =>
      let fnd := fromkeys fnd in
      let mis := fromkeys mis in
      let total := (length fnd + length mis)%nat in
      let sc : Q := if (0 <? total)%nat
                    then int_div (Z.of_nat (length fnd)) (Z.of_nat total)
                    else flt 0 in
      Ok {| grounded := Some (Qle_bool STAT_MATCH_THRESHOLD sc);
            score := round2 sc; found := fnd; missing := mis; detail := None |})
  end.

(** *** Quotes *)

Definition stop_words : list str :=
  map py ["the"; "a"; "an"; "is"; "are"; "was"; "were"; "of"; "in"; "to";
          "and"; "for"; "with"; "that"; "this"; "by"]%string.

Definition content_words (sub_norm : str) : list str :=
  List.filter (fun w => negb (in_strs w stop_words) && (2 <? length w)%nat)
    (split_ws sub_norm).

(** [words_found / len(content_words)], for a list that is not empty. *)
Definition word_ratio (source_norm : str) (cws : list str) : Q :=
  int_div (Z.of_nat (length (List.filter (contains source_norm) cws)))
          (Z.of_nat (length cws)).

(** The windows of the source that strategy 2 compares with the quote,
    in the order of the two nested loops. *)
Definition windows_of_size (words : list str) (win_size : Z) : list str :=
  if (win_size <? 3) || (len words <? win_size) then []
  else
    match py_range 0 (Z.max 1 (len words - win_size + 1)) 2 with
    | Ok starts => map (fun i => join [32%N] (slice words i (i + win_size))) starts
    | Raise _ => []
    end.

Definition windows (words : list str) (sub_word_count : Z) : list str :=
  flat_map (fun size_offset => windows_of_size words (sub_word_count + size_offset))
    [-2; -1; 0; 1; 2; 3].

(** [max(a, b)]: the first of the two unless the second is larger. *)
Definition Qmax (a b : Q) : Q := if Qle_bool b a then a else b.

(** The scan of the windows, leaving at the first ratio that reaches
    the threshold. *)
Fixpoint scan_windows (threshold : Q) (sub_norm : str) (ws : list str)
  (best_ratio : Q) : bool * Q :=
  match ws with
  | [] => (Qle_bool threshold best_ratio, best_ratio)
  | w :: ws' =>
      let r := Difflib.ratio sub_norm w in
      if Qle_bool threshold r then (true, r)
      else scan_windows threshold sub_norm ws' (Qmax best_ratio r)
  end.

Definition _fuzzy_contains (source substring : str) (threshold : Q) : bool * Q :=
  let source_norm := _normalize source in
  let sub_norm := _normalize substring in
  if contains source_norm sub_norm then (true, flt 1)
  else if (length sub_norm =? 0)%nat then (false, flt 0)
  else
    let cws := content_words sub_norm in
    let strategy2 best_ratio :=
      scan_windows threshold sub_norm
        (windows (split_ws source_norm) (len (split_ws sub_norm))) best_ratio in
    match cws with
    | [] => strategy2 (flt 0)
    | _ =>
        let wr := word_ratio source_norm cws in
        if Qle_bool (flt (85 # 100)) wr then (true, wr)
        else strategy2 (Qmax (flt 0) wr)
    end.

Record quote_verdict :=
  { q_quote : json; q_grounded : option bool; q_score : Q; q_detail : option str }.

Definition ellipsis (limit : Z) (s : str) : str :=
  slice_to s limit ++ (if limit <? len s then [8230%N] else []).

Definition verify_quote (source_text : str) (quote : json) : result quote_verdict :=
  let too_short := {| q_quote := quote; q_grounded := None; q_score := flt 0;
                      q_detail := Some (py "too_short") |} in
  if negb (json_truthy quote) then Ok too_short
  else
    match quote with
    | JStr q =>
        if len (strip q) <? 10 then Ok too_short
        else
          let '(is_match, ratio) := _fuzzy_contains source_text q QUOTE_SIMILARITY_THRESHOLD in
          Ok {| q_quote := JStr (ellipsis 100 q); q_grounded := Some is_match;
                q_score := round2 ratio; q_detail := None |}
    | _ => Raise {| kind := AttributeError; msg := py "object has no attribute 'strip'" |}
    end.

Fixpoint rmap {A B} (f : A -> result B) (l : list A) : result (list B) :=
  match l with
  | [] => Ok []
  | x :: l' => rbind (f x) (fun y => rbind (rmap f l') (fun ys => Ok (y :: ys)))
  end.

Definition _verify_quotes (quotes : list json) (source_text : str)
  : result (list quote_verdict) :=
  rmap (verify_quote source_text) quotes.

End Grounding.

(** ** The world outside: completion service, object store, cache *)

Module World.
Import Figures.

(** An entry of [claims_for_llm]. *)
Inductive claim_kind := KeyFinding | SafetyClaim | ClinicalImplication.
Record llm_claim :=
  { c_text : str; c_evidence : json; c_kind : claim_kind; c_index : Z }.

(** An entry of the list built by [_collect_ungrounded_claims]. *)
Inductive ug_kind := UgKeyFinding | UgSafetyClaim | UgSupportingQuote | UgStatEvidence.
Inductive ug_reason :=
| ReasonGiven (reason : json)
| ReasonScore (score : Q)
| ReasonMissing (labels : list str).
Record ungrounded_claim :=
  { ug_type : ug_kind; ug_index : Z; ug_claim : json; ug_why : ug_reason }.

(** What a call hands to the completion service. The prompt text is a
    function of these fields. *)
Inductive request :=
| VisionReq (caption image_base64 : str)
| ChunkReq (prompt_template schema_json text chunk_context : str)
| SynthReq (schema_json : str) (chunk_outputs : list (str * json))
| JudgeReq (claims : list llm_claim) (truncated : str)
| CorrectReq (ungrounded : list ungrounded_claim) (output : json) (truncated : str).

(** What can be observed of a run: the calls to the service, each
    validation pass with its mode, each self-correction round. *)
Inductive event :=
| EvCall (req : request)
| EvValidate (skip_llm : bool)
| EvCorrectionRound (n : Z).

(** Python objects that can be mutated live in a store; a value is a
    scalar or a reference into it. *)
Inductive val :=
| VNone | VBool (b : bool) | VInt (z : Z) | VFloat (q : Q) | VStr (s : str)
| VRef (l : nat).
Inductive obj :=
| OList (items : list val)
| ODict (items : list (str * val)).

Record world :=
  { trace : list event;
    heap : list obj;
    fig_cache : list (str * list figure_description) }.

Definition M (A : Type) : Type := world -> world * result A.

Definition ret {A} (a : A) : M A := fun w => (w, Ok a).
Definition raise {A} (e : exn) : M A := fun w => (w, Raise e).
Definition bind {A B} (m : M A) (f : A -> M B) : M B :=
  fun w => match m w with
           | (w', Ok a) => f a w'
           | (w', Raise e) => (w', Raise e)
           end.
(** [try: m except Exception as e: handler(e)] *)
Definition try_except {A} (m : M A) (handler : exn -> M A) : M A :=
  fun w => match m w with
           | (w', Ok a) => (w', Ok a)
           | (w', Raise e) => handler e w'
           end.
Definition lift {A} (r : result A) : M A := fun w => (w, r).
Definition emit (e : event) : M unit :=
  fun w => ({| trace := trace w ++ [e]; heap := heap w; fig_cache := fig_cache w |}, Ok tt).

Fixpoint mapM {A B} (f : A -> M B) (l : list A) : M (list B) :=
  match l with
  | [] => ret []
  | x :: l' => bind (f x) (fun y => bind (mapM f l') (fun ys => ret (y :: ys)))
  end.

Definition type_error (what : string) : exn := {| kind := TypeError; msg := py what |}.
Definition attribute_error (what : string) : exn :=
  {| kind := AttributeError; msg := py what |}.

End World.
Export World.

Declare Scope monad_scope.
Delimit Scope monad_scope with monad.
Notation "'let*' x ':=' m 'in' k" := (bind m (fun x => k))
  (at level 10, x name, m at level 100, k at level 200, only parsing) : monad_scope.
Notation "'let*' ' p ':=' m 'in' k" := (bind m (fun p => k))
  (at level 10, p pattern, m at level 100, k at level 200, only parsing) : monad_scope.

(** ** The validator ([validate_grounding]) *)

Module Validator.
Import Grounding.
Local Open Scope monad_scope.

Inductive status := Grounded | PartiallyGrounded | ReviewNeeded.

(** An entry of [details["key_findings"]] and [details["safety_claims"]]. *)
Record verdict :=
  { v_claim : str; v_grounded : json; v_severity : json; v_reason : json }.

(** An entry of [details["statistical_evidence"]]. *)
Record stat_verdict :=
  { s_finding : str; s_evidence : json; s_check : stat_check }.

Record details :=
  { key_findings : list verdict;
    supporting_quotes : list quote_verdict;
    safety_claims : list verdict;
    statistical_evidence : list stat_verdict }.

(** An entry of [corrections_applied]. *)
Record applied :=
  { ap_type : ug_kind; ap_action : str; ap_original : json;
    ap_corrected : option str }.

Record report :=
  { overall_score : Q;
    overall_status : status;
    total_claims : Z;
    grounded_claims : Z;
    warnings : Z;
    errors : Z;
    report_details : details;
    corrections_applied : option (list applied);
    correction_rounds : option Z }.

Section WithService.

(** The completion service, [json.loads] ([None] for a decoding
    error) and [str] on a JSON value. *)
Variable llm : list event -> request -> result str.
Variable json_loads : str -> option json.
Variable py_str : json -> str.

Definition call (req : request) : M str :=
  fun w => ({| trace := trace w ++ [EvCall req]; heap := heap w;
               fig_cache := fig_cache w |},
            llm (trace w) req).

(** [x if isinstance(x, str) else str(x)] *)
Definition to_text (j : json) : str :=
  match j with JStr s => s | _ => py_str j end.

Definition truncate_source (mid : string) (source_text : str) : str :=
  if 20000 <? len source_text
  then slice_to source_text 15000 ++ py mid ++ slice_from source_text (-5000)
  else source_text.

(** The items [zip] walks through when handed [verdicts]. *)
Definition iterate (j : json) : result (list json) :=
  match j with
  | JList l => Ok l
  | JStr s => Ok (map (fun c => JStr [c]) s)
  | JDict kvs => Ok (map (fun kv => JStr kv.1) kvs)
  | _ => Raise (type_error "object is not iterable")
  end.

Definition is_list (j : json) : bool := match j with JList _ => true | _ => false end.

(** The verdict list picked out of the judge's answer. *)
Definition pick_verdicts (parsed : json) : json :=
  match parsed with
  | JDict kvs =>
      let verdicts :=
        dict_get kvs "results" (dict_get kvs "claims" (dict_get kvs "verdicts" (JList []))) in
      if is_list verdicts then verdicts
      else default verdicts (find is_list (map snd kvs))
  | JList _ => parsed
  | _ => JList []
  end.

Definition failed_verdicts (claims : list llm_claim) (e : exn) : json :=
  JList (imap (fun i _ =>
                 JDict [ (py "claim_index", JInt (Z.of_nat i + 1));
                         (py "grounded", JNull);
                         (py "severity", JStr (py "warning"));
                         (py "reason", JStr (py "Verification failed: " ++ msg e)) ])
              claims).

Definition _verify_claims_with_llm (claims : list llm_claim) (source_text : str) : M json :=
  match claims with
  | [] => ret (JList [])
  | _ =>
      try_except
        (let* raw := call (JudgeReq claims
                        (truncate_source "

[...middle sections omitted for length...]

" source_text)) in
         match json_loads raw with
         | Some parsed => ret (pick_verdicts parsed)
         | None => raise {| kind := ValueError; msg := py "JSONDecodeError" |}
         end)
        (fun e => ret (failed_verdicts claims e))
  end.

(** One key finding: its statistical check and its claim for the judge. *)
Definition check_finding (source_text : str) (i : nat) (finding : json)
  : result (list stat_verdict * list llm_claim) :=
  match finding with
  | JDict kvs =>
      let finding_text := dict_get kvs "finding" (JStr []) in
      let stat_evidence := dict_get kvs "statistical_evidence" (JStr []) in
      rbind (if json_truthy stat_evidence then
               match stat_evidence with
               | JStr ev => _verify_stat_evidence ev source_text
               | _ => Raise (type_error "expected string or bytes-like object")
               end
             else Ok {| grounded := None; score := flt 0; found := []; missing := [];
                        detail := Some (py "no_evidence_provided") |})
        (fun stat_check =>
      match finding_text with
      | JStr ft =>
          Ok ([ {| s_finding := ellipsis 120 ft; s_evidence := stat_evidence;
                   s_check := stat_check |} ],
              [ {| c_text := ft; c_evidence := stat_evidence;
                   c_kind := KeyFinding; c_index := Z.of_nat i |} ])
      | _ => Raise (type_error "finding text is not a string")
      end)
  | JStr f =>
      Ok ([], [ {| c_text := f; c_evidence := JStr [];
                   c_kind := KeyFinding; c_index := Z.of_nat i |} ])
  | _ => Ok ([], [])
  end.

Fixpoint check_findings (source_text : str) (i : nat) (findings : list json)
  : result (list stat_verdict * list llm_claim) :=
  match findings with
  | [] => Ok ([], [])
  | f :: fs =>
      rbind (check_finding source_text i f) (fun '(st, cl) =>
      rbind (check_findings source_text (S i) fs) (fun '(sts, cls) =>
      Ok (st ++ sts, cl ++ cls)))
  end.

(** Appending one claim per item, indexed by the length of the list so far. *)
Definition append_claims (kind : claim_kind) (texts : list str)
  (claims : list llm_claim) : list llm_claim :=
  fold_left (fun acc t =>
               acc ++ [ {| c_text := t; c_evidence := JStr []; c_kind := kind;
                           c_index := len acc |} ])
            texts claims.

Definition safety_claims_of (output : list (str * json))
  (claims : list llm_claim) : list llm_claim :=
  match dict_get output "safety_profile" (JDict []) with
  | JDict safety =>
      let claims :=
        match dict_get safety "adverse_events" (JList []) with
        | JList adverse =>
            append_claims SafetyClaim
              (map (fun ae => py "Adverse event: " ++ to_text ae) adverse) claims
        | _ => claims
        end in
      match dict_get safety "serious_adverse_events" (JList []) with
      | JList serious =>
          append_claims SafetyClaim
            (map (fun sae => py "Serious adverse event: " ++ to_text sae) serious) claims
      | _ => claims
      end
  | _ => claims
  end.

Definition implication_claims_of (output : list (str * json))
  (claims : list llm_claim) : list llm_claim :=
  match dict_get output "clinical_implications" (JStr []) with
  | JStr imp => if truthy imp then append_claims ClinicalImplication [imp] claims
                else claims
  | JList imps => append_claims ClinicalImplication (map to_text imps) claims
  | _ => claims
  end.

Definition presumed_ok : json :=
  JDict [ (py "grounded", JBool true); (py "severity", JStr (py "ok"));
          (py "reason", JStr (py "Accepted after self-correction")) ].

(** The entry built from a claim and the verdict zipped to it. *)
Definition entry_of (claim : llm_claim) (v : json) : result verdict :=
  match v with
  | JDict kvs =>
      Ok {| v_claim := ellipsis 120 (c_text claim);
            v_grounded := dict_get kvs "grounded" JNull;
            v_severity := dict_get kvs "severity" (JStr (py "warning"));
            v_reason := dict_get kvs "reason" (JStr []) |}
  | _ => Raise (attribute_error "object has no attribute 'get'")
  end.

Fixpoint zip_entries (claims : list llm_claim) (verdicts : list json)
  : result (list (claim_kind * verdict)) :=
  match claims, verdicts with
  | c :: cs, v :: vs =>
      rbind (entry_of c v) (fun e =>
      rbind (zip_entries cs vs) (fun es => Ok ((c_kind c, e) :: es)))
  | _, _ => Ok []
  end.

Definition is_ok (v : verdict) : bool :=
  eq_str (v_severity v) "ok" || is_bool (v_grounded v) true.
Definition is_warning (v : verdict) : bool := eq_str (v_severity v) "warning".
Definition is_error (v : verdict) : bool :=
  eq_str (v_severity v) "error" || is_bool (v_grounded v) false.

(** The three counters after the loops over the verdicts, the quotes
    and the statistical checks; the fourth component is what the last
    loop adds to [total]. *)
Record tally := { t_grounded : Z; t_warnings : Z; t_errors : Z; t_total : Z }.

Definition count_verdict (t : tally) (v : verdict) : tally :=
  if is_ok v then
    {| t_grounded := t_grounded t + 1; t_warnings := t_warnings t;
       t_errors := t_errors t; t_total := t_total t |}
  else if is_warning v then
    {| t_grounded := t_grounded t; t_warnings := t_warnings t + 1;
       t_errors := t_errors t; t_total := t_total t |}
  else if is_error v then
    {| t_grounded := t_grounded t; t_warnings := t_warnings t;
       t_errors := t_errors t + 1; t_total := t_total t |}
  else t.

Definition count_quote (t : tally) (q : quote_verdict) : tally :=
  match q_grounded q with
  | Some true =>
      {| t_grounded := t_grounded t + 1; t_warnings := t_warnings t;
         t_errors := t_errors t; t_total := t_total t |}
  | Some false =>
      {| t_grounded := t_grounded t; t_warnings := t_warnings t;
         t_errors := t_errors t + 1; t_total := t_total t |}
  | None =>
      {| t_grounded := t_grounded t; t_warnings := t_warnings t + 1;
         t_errors := t_errors t; t_total := t_total t |}
  end.

Definition count_stat (t : tally) (s : stat_verdict) : tally :=
  match grounded (s_check s) with
  | Some true =>
      {| t_grounded := t_grounded t + 1; t_warnings := t_warnings t;
         t_errors := t_errors t; t_total := t_total t + 1 |}
  | Some false =>
      {| t_grounded := t_grounded t; t_warnings := t_warnings t;
         t_errors := t_errors t + 1; t_total := t_total t + 1 |}
  | None => t
  end.

Definition aggregate (all_verdicts : list verdict) (d : details) : report :=
  let t0 := {| t_grounded := 0; t_warnings := 0; t_errors := 0;
               t_total := len all_verdicts + len (supporting_quotes d) |} in
  let t := fold_left count_stat (statistical_evidence d)
             (fold_left count_quote (supporting_quotes d)
                (fold_left count_verdict all_verdicts t0)) in
  let score : Q :=
    if 0 <? t_total t then int_div (t_grounded t) (t_total t) else flt 0 in
  {| overall_score := round2 score;
     overall_status :=
       if Qle_bool (flt (85 # 100)) score && (t_errors t =? 0) then Grounded
       else if Qle_bool (flt (6 # 10)) score || (t_errors t <=? 1) then PartiallyGrounded
       else ReviewNeeded;
     total_claims := t_total t;
     grounded_claims := t_grounded t;
     warnings := t_warnings t;
     errors := t_errors t;
     report_details := d;
     corrections_applied := None;
     correction_rounds := None |}.

Definition kind_is (k : claim_kind) (e : claim_kind * verdict) : bool :=
  match k, e.1 with
  | KeyFinding, KeyFinding | SafetyClaim, SafetyClaim
  | ClinicalImplication, ClinicalImplication => true
  | _, _ => false
  end.

Definition validate_grounding (output : json) (source_text : str) (skip_llm : bool)
  : M report :=
  let* _ := emit (EvValidate skip_llm) in
  match output with
  | JDict out =>
      let* '(stat_results, claims) :=
        lift (match dict_get out "key_findings" (JList []) with
              | JList findings => check_findings source_text 0 findings
              | _ => Ok ([], [])
              end) in
      let* quote_results :=
        lift (match dict_get out "supporting_quotes" (JList []) with
              | JList quotes => _verify_quotes quotes source_text
              | _ => Ok []
              end) in
      let claims_for_llm := implication_claims_of out (safety_claims_of out claims) in
      let* llm_verdicts :=
        (if skip_llm then ret (JList (map (fun _ => presumed_ok) claims_for_llm))
         else _verify_claims_with_llm claims_for_llm source_text) in
      let* items := lift (iterate llm_verdicts) in
      let* entries := lift (zip_entries claims_for_llm items) in
      ret (aggregate (map snd entries)
             {| key_findings := map snd (List.filter (kind_is KeyFinding) entries);
                supporting_quotes := quote_results;
                safety_claims := map snd (List.filter (kind_is SafetyClaim) entries);
                statistical_evidence := stat_results |})
  | _ => raise (attribute_error "object has no attribute 'get'")
  end.

(** *** Collecting what failed ([_collect_ungrounded_claims]) *)

Definition failed (v : verdict) : bool :=
  is_bool (v_grounded v) false || eq_str (v_severity v) "error".

Definition collect_verdicts (k : ug_kind) (vs : list verdict) : list ungrounded_claim :=
  omap id (imap (fun i v =>
                   if failed v
                   then Some {| ug_type := k; ug_index := Z.of_nat i;
                                ug_claim := JStr (v_claim v);
                                ug_why := ReasonGiven (v_reason v) |}
                   else None) vs).

Definition _collect_ungrounded_claims (grounding_result : report) : list ungrounded_claim :=
  let d := report_details grounding_result in
  collect_verdicts UgKeyFinding (key_findings d)
  ++ collect_verdicts UgSafetyClaim (safety_claims d)
  ++ omap id (imap (fun i q =>
                      match q_grounded q with
                      | Some false =>
                          Some {| ug_type := UgSupportingQuote; ug_index := Z.of_nat i;
                                  ug_claim := q_quote q;
                                  ug_why := ReasonScore (q_score q) |}
                      | _ => None
                      end) (supporting_quotes d))
  ++ omap id (imap (fun i s =>
                      match grounded (s_check s) with
                      | Some false =>
                          Some {| ug_type := UgStatEvidence; ug_index := Z.of_nat i;
                                  ug_claim := JStr (s_finding s);
                                  ug_why := ReasonMissing (missing (s_check s)) |}
                      | _ => None
                      end) (statistical_evidence d)).

End WithService.

End Validator.

(** ** The object store: building, reading and copying JSON-shaped data *)

Module Store.

Definition vals_of (o : obj) : list val :=
  match o with
  | OList vs => vs
  | ODict kvs => map snd kvs
  end.

(** The object graph that [json.loads] builds for a value: children
    first, then the container. *)
Fixpoint store_json (j : json) (h : list obj) {struct j} : list obj * val :=
  match j with
  | JNull => (h, VNone)
  | JBool b => (h, VBool b)
  | JInt z => (h, VInt z)
  | JFloat q => (h, VFloat q)
  | JStr s => (h, VStr s)
  | JList items =>
      let '(h', vs) :=
        (fix go (l : list json) (h : list obj) {struct l} : list obj * list val :=
           match l with
           | [] => (h, [])
           | x :: l' =>
               let '(h1, v) := store_json x h in
               let '(h2, vs) := go l' h1 in
               (h2, v :: vs)
           end) items h in
      (h' ++ [OList vs], VRef (length h'))
  | JDict kvs =>
      let '(h', vs) :=
        (fix go (l : list (str * json)) (h : list obj) {struct l}
           : list obj * list (str * val) :=
           match l with
           | [] => (h, [])
           | (k, x) :: l' =>
               let '(h1, v) := store_json x h in
               let '(h2, vs) := go l' h1 in
               (h2, (k, v) :: vs)
           end) kvs h in
      (h' ++ [ODict vs], VRef (length h'))
  end.

(** The values of a dict literal, stored one after the other. *)
Fixpoint store_items (kvs : list (str * json)) (h : list obj)
  : list obj * list (str * val) :=
  match kvs with
  | [] => (h, [])
  | (k, x) :: l' =>
      let '(h1, v) := store_json x h in
      let '(h2, vs) := store_items l' h1 in
      (h2, (k, v) :: vs)
  end.

(** The JSON value that an object graph holds; the fuel bounds the
    depth, and a graph built by [store_json] is no deeper than the
    store is long. *)
Fixpoint snapshot (fuel : nat) (h : list obj) (v : val) {struct fuel} : json :=
  match v with
  | VNone => JNull
  | VBool b => JBool b
  | VInt z => JInt z
  | VFloat q => JFloat q
  | VStr s => JStr s
  | VRef l =>
      match fuel with
      | O => JNull
      | S fuel' =>
          match h !! l with
          | Some (OList vs) => JList (map (snapshot fuel' h) vs)
          | Some (ODict kvs) => JDict (map (fun kv => (kv.1, snapshot fuel' h kv.2)) kvs)
          | None => JNull
          end
      end
  end.

Definition read_json (h : list obj) (v : val) : json := snapshot (S (length h)) h v.

Definition set_heap (w : world) (h : list obj) : world :=
  {| trace := trace w; heap := h; fig_cache := fig_cache w |}.

(** [copy.deepcopy(v)] on JSON-shaped data: a fresh graph with the
    same content. *)
Definition deepcopy (v : val) : M val :=
  fun w => let '(h, v') := store_json (read_json (heap w) v) (heap w) in
           (set_heap w h, Ok v').

(** A freshly parsed value, put into the store. *)
Definition new_object (j : json) : M val :=
  fun w => let '(h, v) := store_json j (heap w) in (set_heap w h, Ok v).

Definition lookup_list (h : list obj) (v : val) : option (nat * list val) :=
  match v with
  | VRef l => match h !! l with Some (OList vs) => Some (l, vs) | _ => None end
  | _ => None
  end.

Definition lookup_dict (h : list obj) (v : val) : option (nat * list (str * val)) :=
  match v with
  | VRef l => match h !! l with Some (ODict kvs) => Some (l, kvs) | _ => None end
  | _ => None
  end.

End Store.

(** ** Self-correction ([correct_ungrounded_claims]) *)

Module Correction.
Import Validator Store.
Local Open Scope monad_scope.

Section WithService.

Variable llm : list event -> request -> result str.
Variable json_loads : str -> option json.
Variable py_str : json -> str.

(** An [int] read from a JSON number ([bool] is an [int] in Python). *)
Definition as_int (j : json) : option Z :=
  match j with
  | JInt z => Some z
  | JBool b => Some (Z.b2z b)
  | _ => None
  end.

Definition in_range (i : Z) {A} (l : list A) : bool := (0 <=? i) && (i <? len l).

(** [findings[original_idx] = ...] for a key finding; an index that
    is no [int], a missing list, or a container of another shape ends
    in the guard or in a caught exception: nothing is applied. *)
Definition correct_key_finding (h : list obj) (root : list (str * val))
  (idx : option Z) (cv : json) : list obj * bool :=
  match assoc root (py "key_findings"), idx with
  | Some fv, Some i =>
      match lookup_list h fv with
      | Some (lf, items) =>
          if in_range i items then
            match items !! Z.to_nat i with
            | Some old_val =>
                match lookup_dict h old_val, cv with
                | Some (lo, old_items), JDict cv_items =>
                    let '(h1, new_items) := store_items cv_items h in
                    let merged :=
                      fold_left (fun acc kv => assoc_set acc kv.1 kv.2) new_items old_items in
                    (<[lf := OList (<[Z.to_nat i := VRef (length h1)]> items)]>
                       (h1 ++ [ODict merged]), true)
                | Some (lo, old_items), JStr s =>
                    (<[lo := ODict (assoc_set old_items (py "finding") (VStr s))]> h, true)
                | _, _ =>
                    let '(h1, v) := store_json cv h in
                    (<[lf := OList (<[Z.to_nat i := v]> items)]> h1, true)
                end
            | None => (h, false)
            end
          else (h, false)
      | None => (h, false)
      end
  | _, _ => (h, false)
  end.

Definition correct_quote (h : list obj) (root : list (str * val))
  (idx : option Z) (cv : json) : list obj * bool :=
  match assoc root (py "supporting_quotes"), idx, cv with
  | Some qv, Some i, JStr s =>
      match lookup_list h qv with
      | Some (lq, items) =>
          if in_range i items
          then (<[lq := OList (<[Z.to_nat i := VStr s]> items)]> h, true)
          else (h, false)
      | None => (h, false)
      end
  | _, _, _ => (h, false)
  end.

(** [d.get(key, [])] when a list is expected: the list and where it
    lives, the fresh empty list for a missing key, or another shape. *)
Inductive list_field :=
| FieldList (l : nat) (items : list val)
| FieldMissing
| FieldOther.

Definition get_list (h : list obj) (d : list (str * val)) (key : string) : list_field :=
  match assoc d (py key) with
  | None => FieldMissing
  | Some v =>
      match lookup_list h v with
      | Some (l, items) => FieldList l items
      | None => FieldOther
      end
  end.

Definition field_items (f : list_field) : list val :=
  match f with FieldList _ items => items | _ => [] end.

(** The safety profile of the output: its two lists, or
    [AttributeError] when [safety_profile] is no dict. *)
Definition safety_lists (h : list obj) (root : list (str * val))
  : result (list_field * list_field) :=
  match assoc root (py "safety_profile") with
  | None => Ok (FieldMissing, FieldMissing)
  | Some sv =>
      match lookup_dict h sv with
      | Some (_, safety) =>
          Ok (get_list h safety "adverse_events",
              get_list h safety "serious_adverse_events")
      | None => Raise (attribute_error "object has no attribute 'get'")
      end
  end.

Definition correct_safety (h : list obj) (root : list (str * val))
  (idx : option Z) (cv : json) : result (list obj * bool) :=
  rbind (safety_lists h root) (fun '(ae, sae) =>
  match ae, sae, idx, cv with
  | FieldOther, _, _, _ | _, FieldOther, _, _ => Ok (h, false)
  | _, _, Some i, JStr s =>
      if (0 <=? i) && (i <? len (field_items ae) + len (field_items sae)) then
        if i <? len (field_items ae) then
          match ae with
          | FieldList l items =>
              Ok (<[l := OList (<[Z.to_nat i := VStr s]> items)]> h, true)
          | _ => Ok (h, true)
          end
        else
          match sae with
          | FieldList l items =>
              Ok (<[l := OList (<[Z.to_nat (i - len (field_items ae)) := VStr s]> items)]> h,
                  true)
          | _ => Ok (h, true)
          end
      else Ok (h, false)
  | _, _, _, _ => Ok (h, false)
  end).

(** The indices marked for removal, per claim type. *)
Record removals :=
  { rm_key_finding : list json; rm_safety_claim : list json;
    rm_supporting_quote : list json; rm_stat_evidence : list json }.

Definition mark (r : removals) (k : ug_kind) (idx : json) : removals :=
  match k with
  | UgKeyFinding =>
      {| rm_key_finding := rm_key_finding r ++ [idx];
         rm_safety_claim := rm_safety_claim r;
         rm_supporting_quote := rm_supporting_quote r;
         rm_stat_evidence := rm_stat_evidence r |}
  | UgSafetyClaim =>
      {| rm_key_finding := rm_key_finding r;
         rm_safety_claim := rm_safety_claim r ++ [idx];
         rm_supporting_quote := rm_supporting_quote r;
         rm_stat_evidence := rm_stat_evidence r |}
  | UgSupportingQuote =>
      {| rm_key_finding := rm_key_finding r;
         rm_safety_claim := rm_safety_claim r;
         rm_supporting_quote := rm_supporting_quote r ++ [idx];
         rm_stat_evidence := rm_stat_evidence r |}
  | UgStatEvidence =>
      {| rm_key_finding := rm_key_finding r;
         rm_safety_claim := rm_safety_claim r;
         rm_supporting_quote := rm_supporting_quote r;
         rm_stat_evidence := rm_stat_evidence r ++ [idx] |}
  end.

Record loop_state :=
  { ls_heap : list obj; ls_applied : list applied; ls_removals : removals }.

(** [error_idx = corr.get("error_index", 0) - 1] and the range test:
    the position in [ungrounded], [None] for [continue]; a [float] in
    range, or no number at all, is a [TypeError]. *)
Definition error_position (corr : list (str * json)) (n : Z) : result (option nat) :=
  match dict_get corr "error_index" (JInt 0) with
  | JFloat q =>
      let error_idx := fsub q 1 in
      if Qlt_bool error_idx 0 || Qle_bool (inject_Z n) error_idx
      then Ok None
      else Raise (type_error "list indices must be integers")
  | j =>
      match as_int j with
      | Some z =>
          let error_idx := z - 1 in
          if (error_idx <? 0) || (n <=? error_idx) then Ok None
          else Ok (Some (Z.to_nat error_idx))
      | None => Raise (type_error "unsupported operand type(s) for -")
      end
  end.

Definition corrected_entry (ug : ungrounded_claim) (text : str) : applied :=
  {| ap_type := ug_type ug; ap_action := py "corrected";
     ap_original := ug_claim ug; ap_corrected := Some (slice_to text 200) |}.

(** One turn of the loop over [corrections]. *)
Definition apply_correction (ungrounded : list ungrounded_claim)
  (root : list (str * val)) (st : loop_state) (corr : json) : result loop_state :=
  match corr with
  | JDict c =>
      rbind (error_position c (len ungrounded)) (fun pos =>
      match pos with
      | None => Ok st
      | Some error_idx =>
          match ungrounded !! error_idx with
          | None => Ok st
          | Some ug =>
              let action := dict_get c "action" (JStr (py "remove")) in
              let original_idx := dict_get c "original_index" (JInt (ug_index ug)) in
              let corrected_value := dict_get c "corrected_value" JNull in
              let h := ls_heap st in
              let done (r : list obj * bool) (text : str) :=
                {| ls_heap := r.1;
                   ls_applied :=
                     if r.2 then ls_applied st ++ [corrected_entry ug text]
                     else ls_applied st;
                   ls_removals := ls_removals st |} in
              if eq_str action "correct"
                 && negb match corrected_value with JNull => true | _ => false end
              then
                match ug_type ug with
                | UgKeyFinding =>
                    Ok (done (correct_key_finding h root (as_int original_idx) corrected_value)
                             (py_str corrected_value))
                | UgSupportingQuote =>
                    Ok (done (correct_quote h root (as_int original_idx) corrected_value)
                             (match corrected_value with JStr s => s | _ => [] end))
                | UgSafetyClaim =>
                    rbind (correct_safety h root (as_int original_idx) corrected_value)
                      (fun r => Ok (done r (match corrected_value with
                                            | JStr s => s | _ => [] end)))
                | UgStatEvidence => Ok st
                end
              else if eq_str action "remove" then
                Ok {| ls_heap := h;
                      ls_applied :=
                        ls_applied st
                        ++ [ {| ap_type := ug_type ug; ap_action := py "removed";
                                ap_original := ug_claim ug; ap_corrected := None |} ];
                      ls_removals := mark (ls_removals st) (ug_type ug) original_idx |}
              else Ok st
          end
      end)
  | _ => Raise (attribute_error "object has no attribute 'get'")
  end.

Fixpoint apply_corrections (ungrounded : list ungrounded_claim)
  (root : list (str * val)) (st : loop_state) (corrs : list json)
  : list obj * result loop_state :=
  match corrs with
  | [] => (ls_heap st, Ok st)
  | c :: cs =>
      match apply_correction ungrounded root st c with
      | Ok st' => apply_corrections ungrounded root st' cs
      | Raise e => (ls_heap st, Raise e)
      end
  end.

(** [sorted(set(indices), reverse=True)]; the indices are expected to
    be [int]s, anything else is reported as a [TypeError]. *)
Definition indices_sorted (indices : list json) : result (list Z) :=
  rbind (Grounding.rmap (fun j => match as_int j with
                        | Some z => Ok z
                        | None => Raise (type_error "index is not an integer")
                        end) indices)
    (fun zs => Ok (sorted_by (fun a b => b <=? a) (remove_dups zs))).

(** [for idx in indices_sorted: if 0 <= idx < len(l): l.pop(idx)] *)
Definition pop_guarded (items : list val) (idxs : list Z) : list val :=
  fold_left (fun l idx => if in_range idx l then delete (Z.to_nat idx) l else l)
    idxs items.

Definition remove_from (h : list obj) (root : list (str * val)) (key : string)
  (idxs : list Z) : result (list obj) :=
  match get_list h root key with
  | FieldList l items => Ok (<[l := OList (pop_guarded items idxs)]> h)
  | FieldMissing => Ok h
  | FieldOther =>
      if existsb (fun idx => 0 <=? idx) idxs
      then Raise (type_error "object has no len()")
      else Ok h
  end.

(** [l.pop(idx)] with Python's negative indices. *)
Definition pop_at (items : list val) (idx : Z) : result (list val) :=
  let i := if idx <? 0 then idx + len items else idx in
  if in_range i items then Ok (delete (Z.to_nat i) items)
  else Raise {| kind := IndexError; msg := py "pop index out of range" |}.

(** The removal loop of the safety claims over the two lists. *)
Fixpoint remove_safety (ae sae : list val) (idxs : list Z)
  : result (list val * list val) :=
  match idxs with
  | [] => Ok (ae, sae)
  | idx :: rest =>
      if idx <? len ae then
        rbind (pop_at ae idx) (fun ae' => remove_safety ae' sae rest)
      else
        let sae_idx := idx - len ae in
        if in_range sae_idx sae
        then remove_safety ae (delete (Z.to_nat sae_idx) sae) rest
        else remove_safety ae sae rest
  end.

Definition write_field (h : list obj) (f : list_field) (items : list val) : list obj :=
  match f with
  | FieldList l _ => <[l := OList items]> h
  | _ => h
  end.

Definition remove_safety_claims (h : list obj) (root : list (str * val))
  (idxs : list Z) : result (list obj) :=
  rbind (safety_lists h root) (fun '(ae, sae) =>
  match ae, sae with
  | FieldOther, _ | _, FieldOther => Raise (type_error "object has no len()")
  | _, _ =>
      rbind (remove_safety (field_items ae) (field_items sae) idxs)
        (fun '(ae', sae') => Ok (write_field (write_field h ae ae') sae sae'))
  end).

(** One turn of the loop over [removal_indices.items()]; a raised
    exception leaves the store as it is by then. *)
Definition removal_step (h : list obj) (indices : list json)
  (f : list obj -> list Z -> result (list obj)) : list obj * result unit :=
  match indices with
  | [] => (h, Ok tt)
  | _ =>
      match indices_sorted indices with
      | Raise e => (h, Raise e)
      | Ok idxs =>
          match f h idxs with
          | Ok h' => (h', Ok tt)
          | Raise e => (h, Raise e)
          end
      end
  end.

(** The loop over [removal_indices.items()], in the order of the dict
    literal; nothing is removed for statistical evidence. *)
Definition apply_removals (h : list obj) (root : list (str * val)) (r : removals)
  : list obj * result unit :=
  match removal_step h (rm_key_finding r)
          (fun h idxs => remove_from h root "key_findings" idxs) with
  | (h1, Ok _) =>
      match removal_step h1 (rm_safety_claim r)
              (fun h idxs => remove_safety_claims h root idxs) with
      | (h2, Ok _) =>
          match removal_step h2 (rm_supporting_quote r)
                  (fun h idxs => remove_from h root "supporting_quotes" idxs) with
          | (h3, Ok _) => removal_step h3 (rm_stat_evidence r) (fun h _ => Ok h)
          | (h3, Raise e) => (h3, Raise e)
          end
      | (h2, Raise e) => (h2, Raise e)
      end
  | (h1, Raise e) => (h1, Raise e)
  end.

(** The answer of the correction call, up to [corrections]; what the
    [try] block computes. *)
Definition ask_corrections (ungrounded : list ungrounded_claim) (output : val)
  (source_text : str) : M json :=
  fun w =>
    let req := CorrectReq ungrounded (read_json (heap w) output)
                 (truncate_source "

[...middle omitted...]

" source_text) in
    (let* raw := call llm req in
     match json_loads raw with
     | Some (JDict parsed) => ret (dict_get parsed "corrections" (JList []))
     | Some _ => raise (attribute_error "object has no attribute 'get'")
     | None => raise {| kind := ValueError; msg := py "JSONDecodeError" |}
     end) w.

(** The part after the [try]: copy, apply, remove. *)
Definition apply_all (ungrounded : list ungrounded_claim) (output : val)
  (corrections : json) : M (val * list applied) :=
  let* corrected := deepcopy output in
  let* corrs := lift (iterate corrections) in
  fun w =>
    match lookup_dict (heap w) corrected with
    | None => (w, Raise (attribute_error "object has no attribute 'get'"))
    | Some (_, root) =>
        match apply_corrections ungrounded root
                {| ls_heap := heap w; ls_applied := [];
                   ls_removals := {| rm_key_finding := []; rm_safety_claim := [];
                                     rm_supporting_quote := []; rm_stat_evidence := [] |} |}
                corrs with
        | (h, Raise e) => (set_heap w h, Raise e)
        | (_, Ok st) =>
            match apply_removals (ls_heap st) root (ls_removals st) with
            | (h, Raise e) => (set_heap w h, Raise e)
            | (h, Ok _) => (set_heap w h, Ok (corrected, ls_applied st))
            end
        end
    end.

Definition correct_ungrounded_claims (output : val) (source_text : str)
  (grounding_result : report) : M (val * list applied) :=
  let ungrounded := _collect_ungrounded_claims grounding_result in
  match ungrounded with
  | [] => ret (output, [])
  | _ =>
      let* answer :=
        try_except
          (let* corrections := ask_corrections ungrounded output source_text in
           ret (Some corrections))
          (fun _ => ret None) in
      match answer with
      | None => ret (output, [])
      | Some corrections => apply_all ungrounded output corrections
      end
  end.

End WithService.

End Correction.

(** ** Tolerant JSON parsing ([json_safe.py]) *)

Module JsonSafe.
Import Re.

Definition any : re := Chr (fun _ => true).
Definition fence : re := lit "```".

(** The three patterns, with [re.DOTALL]: a fenced block tagged
    "json", any fenced block, and the widest brace-delimited text. *)
Definition patterns : list re :=
  [ seqs [fence; lit "json"; star space; Group 1 (lazy_star any); star space; fence];
    seqs [fence; star space; Group 1 (lazy_star any); star space; fence];
    Group 1 (seqs [chr 123; star any; chr 125]) ].

Section WithLoads.
Variable json_loads : str -> option json.

(** A failed parse and a parsed [null] are both [None] in Python. *)
Definition safe_parse_json (raw : str) : json :=
  match json_loads raw with
  | Some j => j
  | None =>
      default JNull
        (head
           (omap (fun p => match search p raw with
                           | Some m => json_loads (group m 1)
                           | None => None
                           end) patterns))
  end.

End WithLoads.

End JsonSafe.

(** ** The extraction orchestrator ([aoai.py]) *)

Module Orchestrator.
Import Figures Chunker JsonSafe Validator.
Local Open Scope monad_scope.

(** An extracted image, as handed to the vision call. *)
Record figure_image :=
  { img_index : Z; img_page : Z; img_caption : str; img_base64 : str }.

(** [{"parsed": ..., "raw": ...}] *)
Record chunk_result := { parsed : json; raw : str }.

Section WithService.

Variable llm : list event -> request -> result str.
Variable json_loads : str -> option json.
Variable MAX_CHUNK_CHARS : Z.

Definition _describe_single_figure (fig : figure_image)
  : M (option figure_description) :=
  let caption := img_caption fig in
  let b64 := img_base64 fig in
  if negb (truthy b64) then ret None
  else
    try_except
      (let* description := call llm (VisionReq caption b64) in
       if contains description (py "NOT_A_FIGURE") then ret None
       else ret (Some {| fd_index := Some (img_index fig); fd_page := img_page fig;
                         fd_caption := caption; fd_description := description |}))
      (fun e =>
         ret (Some {| fd_index := Some (img_index fig); fd_page := img_page fig;
                      fd_caption := caption;
                      fd_description :=
                        py "[Figure analysis failed: " ++ msg e ++ py "]" |})).

(** The thread pool, with its calls put one after the other: every
    task runs, whatever the others do. *)
Fixpoint run_all {A B} (f : A -> M B) (l : list A) (w : world)
  : world * list (result B) :=
  match l with
  | [] => (w, [])
  | x :: l' =>
      let '(w1, r) := f x w in
      let '(w2, rs) := run_all f l' w1 in
      (w2, r :: rs)
  end.

(** Collecting the futures: the results, or an exception that one of
    the tasks raised. *)
Fixpoint gather {B} (rs : list (result B)) : result (list B) :=
  match rs with
  | [] => Ok []
  | Ok b :: rs' => rbind (gather rs') (fun bs => Ok (b :: bs))
  | Raise e :: _ => Raise e
  end.

Definition parallel {A B} (f : A -> M B) (l : list A) : M (list B) :=
  fun w => let '(w', rs) := run_all f l w in (w', gather rs).

Definition _describe_figures_parallel (figure_images : list figure_image)
  : M (list figure_description) :=
  let* results := parallel _describe_single_figure figure_images in
  ret (sorted_by (fun a b => default 0 (fd_index a) <=? default 0 (fd_index b))
         (omap id results)).

Definition describe_figures (figure_images : list figure_image)
  : M (list figure_description) :=
  match figure_images with
  | [] => ret []
  | _ => _describe_figures_parallel figure_images
  end.

Definition _process_single_chunk (prompt_template schema_json text chunk_context : str)
  : M chunk_result :=
  let* raw := call llm (ChunkReq prompt_template schema_json text chunk_context) in
  ret {| parsed := safe_parse_json json_loads raw; raw := raw |}.

Definition _synthesize_outputs (schema_json : str) (chunk_outputs : list (str * json))
  : M chunk_result :=
  let* raw := call llm (SynthReq schema_json chunk_outputs) in
  ret {| parsed := safe_parse_json json_loads raw; raw := raw |}.

Definition rule : str := replicate 60 61%N.

Definition enrich (text : str) (matched_fds : list matched_figure) : str :=
  match matched_fds with
  | [] => text
  | _ =>
      text ++ py "

" ++ rule ++ py "
AI VISION ANALYSIS OF FIGURES IN THIS PAPER
" ++ rule ++ py "

"
      ++ concat (map (fun mfd =>
                        py "### " ++ label mfd ++ py " (PDF Page "
                        ++ str_of_Z (page mfd) ++ py ")
Description: " ++ description mfd ++ py "

") matched_fds)
  end.

Definition chunk_context (n : nat) (i : nat) (c : chunk) : str :=
  py "This is section '" ++ heading c ++ py "' (part " ++ str_of_Z (Z.of_nat i + 1)
  ++ py " of " ++ str_of_Z (Z.of_nat n) ++ py " from the full paper).".

(** The position of the first chunk with the given heading, 0 when
    there is none: the sort key of the chunk outputs. *)
Definition heading_position (chunks : list chunk) (section : str) : nat :=
  default 0%nat (fst <$> list_find (fun c => heading c = section) chunks).

Definition _generate_with_chunking (prompt_template schema_json text : str)
  (sections : list section) (figure_descriptions : list figure_description)
  : M chunk_result :=
  let matched_fds := _match_figures_to_paper text figure_descriptions in
  let enriched_text := enrich text matched_fds in
  let* chunks := lift (split_into_sections MAX_CHUNK_CHARS enriched_text sections) in
  match chunks with
  | [c] => _process_single_chunk prompt_template schema_json (content c) []
  | _ =>
      let* results :=
        parallel (fun '(i, c) =>
                    _process_single_chunk prompt_template schema_json (content c)
                      (chunk_context (length chunks) i c))
                 (imap pair chunks) in
      let chunk_outputs :=
        omap (fun '(c, r) =>
                if json_truthy (parsed r) then Some (heading c, parsed r) else None)
             (zip chunks results) in
      let ordered :=
        sorted_by (fun a b => (heading_position chunks a.1 <=? heading_position chunks b.1)%nat)
          chunk_outputs in
      _synthesize_outputs schema_json ordered
  end.

End WithService.

End Orchestrator.

(** ** The workflow runner ([workflow_runner.py]) *)

Module Workflow.
Import Figures Chunker Validator Store Correction Orchestrator.
Local Open Scope monad_scope.

Definition MAX_CORRECTION_ROUNDS : Z := 1.

(** The dict that [run_workflow] returns. *)
Record run_result :=
  { r_parsed : val; r_raw : str;
    r_figure_descriptions : list figure_description;
    r_grounding : option report }.

Section WithService.

Variable llm : list event -> request -> result str.
Variable json_loads : str -> option json.
Variable py_str : json -> str.
Variable MAX_CHUNK_CHARS : Z.

Definition _load_cached_descriptions (doc_id : str)
  : M (option (list figure_description)) :=
  fun w => (w, Ok (assoc (fig_cache w) doc_id)).

Definition _save_cached_descriptions (doc_id : str)
  (descriptions : list figure_description) : M unit :=
  fun w => ({| trace := trace w; heap := heap w;
               fig_cache := assoc_set (fig_cache w) doc_id descriptions |}, Ok tt).

Definition figure_step (figure_images : list figure_image) (doc_id : option str)
  : M (list figure_description) :=
  match figure_images with
  | [] => ret []
  | _ =>
      let doc := match doc_id with Some d => if truthy d then Some d else None | None => None end in
      let* cached :=
        match doc with
        | Some d => _load_cached_descriptions d
        | None => ret None
        end in
      match default [] cached with
      | [] =>
          let* described := describe_figures llm figure_images in
          let* _ := match doc with
                    | Some d => _save_cached_descriptions d described
                    | None => ret tt
                    end in
          ret described
      | fds => ret fds
      end
  end.

Definition current (v : val) : M json := fun w => (w, Ok (read_json (heap w) v)).

(** The state of the self-correction loop. *)
Record loop :=
  { l_parsed : val; l_grounding : report; l_corrections : list applied; l_round : Z }.

(** The [while] loop; [fuel] is the number of rounds still allowed. *)
Fixpoint correction_loop (max_rounds : Z) (fuel : nat) (input_text : str) (st : loop)
  : M loop :=
  match fuel with
  | O => ret st
  | S fuel' =>
      if (0 <? errors (l_grounding st)) && (l_round st <? max_rounds) then
        let correction_round := l_round st + 1 in
        let* _ := emit (EvCorrectionRound correction_round) in
        let* '(corrected_output, corrections_applied) :=
          correct_ungrounded_claims llm json_loads py_str
            (l_parsed st) input_text (l_grounding st) in
        match corrections_applied with
        | [] => ret {| l_parsed := l_parsed st; l_grounding := l_grounding st;
                       l_corrections := l_corrections st; l_round := correction_round |}
        | _ =>
            let* out := current corrected_output in
            let* grounding_result :=
              validate_grounding llm json_loads py_str out input_text true in
            correction_loop max_rounds fuel' input_text
              {| l_parsed := corrected_output; l_grounding := grounding_result;
                 l_corrections := l_corrections st ++ corrections_applied;
                 l_round := correction_round |}
        end
      else ret st
  end.

Definition with_corrections (r : report) (all_corrections : list applied) (rounds : Z)
  : report :=
  {| overall_score := overall_score r; overall_status := overall_status r;
     total_claims := total_claims r; grounded_claims := grounded_claims r;
     warnings := warnings r; errors := errors r;
     report_details := report_details r;
     corrections_applied := Some all_corrections;
     correction_rounds := Some (match all_corrections with [] => 0 | _ => rounds end) |}.

(** Step 3: validation and the self-correction loop. *)
Definition grounding_step (max_rounds : Z) (parsed : val) (input_text : str)
  : M (val * option report) :=
  let* out := current parsed in
  match out with
  | JDict (_ :: _) =>
      let* grounding_result :=
        validate_grounding llm json_loads py_str out input_text false in
      let* st :=
        correction_loop max_rounds (Z.to_nat max_rounds) input_text
          {| l_parsed := parsed; l_grounding := grounding_result;
             l_corrections := []; l_round := 0 |} in
      ret (l_parsed st,
           Some (with_corrections (l_grounding st) (l_corrections st) (l_round st)))
  | _ => ret (parsed, None)
  end.

Definition run_workflow_with (max_rounds : Z) (prompt_template output_schema_json input_text : str)
  (sections : list section) (figure_images : list figure_image)
  (doc_id : option str) : M run_result :=
  let* figure_descriptions := figure_step figure_images doc_id in
  let* result :=
    _generate_with_chunking llm json_loads MAX_CHUNK_CHARS
      prompt_template output_schema_json input_text sections figure_descriptions in
  let* parsed := new_object (parsed result) in
  let* '(parsed', grounding) := grounding_step max_rounds parsed input_text in
  ret {| r_parsed := parsed'; r_raw := raw result;
         r_figure_descriptions := figure_descriptions; r_grounding := grounding |}.

Definition run_workflow := run_workflow_with MAX_CORRECTION_ROUNDS.

End WithService.

End Workflow.

(* ================================================================== *)
(** * Part II: properties *)
(* ================================================================== *)

(** ** Floats *)

Module FloatProps.

Lemma round_half_even_bounds (q : Q) :
  (inject_Z (round_half_even q) - (1 # 2) <= q <= inject_Z (round_half_even q) + (1 # 2))%Q.
Proof.
  unfold round_half_even.
  pose proof (Qfloor_le q) as Hlo. pose proof (Qlt_floor q) as Hhi.
  rewrite inject_Z_plus in Hhi. change (inject_Z 1) with 1%Q in Hhi.
  destruct (Qcompare_spec (q - inject_Z (Qfloor q)) (1 # 2)) as [E|E|E].
  - destruct (Z.even (Qfloor q)).
    + split; lra.
    + rewrite inject_Z_plus. change (inject_Z 1) with 1%Q. split; lra.
  - split; lra.
  - rewrite inject_Z_plus. change (inject_Z 1) with 1%Q. split; lra.
Qed.

Lemma round_half_even_inject (n : Z) : round_half_even (inject_Z n) = n.
Proof.
  unfold round_half_even. rewrite Qfloor_Z.
  destruct (Qcompare_spec (inject_Z n - inject_Z n) (1 # 2)) as [E|E|E];
    [exfalso; lra|reflexivity|exfalso; lra].
Qed.

Lemma round_half_even_mono (x y : Q) :
  (x <= y)%Q -> round_half_even x <= round_half_even y.
Proof.
  intros Hxy. pose proof (Qfloor_resp_le _ _ Hxy) as Hf.
  unfold round_half_even.
  pose proof (Qfloor_le x) as Hx. pose proof (Qlt_floor x) as Hx'.
  pose proof (Qfloor_le y) as Hy. pose proof (Qlt_floor y) as Hy'.
  destruct (Z.eq_dec (Qfloor x) (Qfloor y)) as [E|N].
  - rewrite <- E in *.
    destruct (Qcompare_spec (x - inject_Z (Qfloor x)) (1 # 2)) as [E1|E1|E1];
      destruct (Qcompare_spec (y - inject_Z (Qfloor x)) (1 # 2)) as [E2|E2|E2];
      try destruct (Z.even (Qfloor x)); try lia; exfalso; lra.
  - assert (Qfloor x + 1 <= Qfloor y) by lia.
    destruct (Qcompare (x - inject_Z (Qfloor x)) (1 # 2));
      destruct (Qcompare (y - inject_Z (Qfloor y)) (1 # 2));
      try destruct (Z.even (Qfloor x)); try destruct (Z.even (Qfloor y)); lia.
Qed.

Lemma pow2_pos k : (0 < pow2 k)%Q.
Proof. apply Qpower_0_lt. reflexivity. Qed.

Lemma pow2_plus a b : (pow2 (a + b) == pow2 a * pow2 b)%Q.
Proof. apply Qpower_plus. discriminate. Qed.

Lemma pow2_succ k : (pow2 (k + 1) == 2 * pow2 k)%Q.
Proof. rewrite pow2_plus. change (pow2 1) with 2%Q. ring. Qed.

Lemma pow2_le a b : a <= b -> (pow2 a <= pow2 b)%Q.
Proof. intros H. apply Qpower_le_compat_l; [done|]. discriminate. Qed.

Lemma pow2_nonneg_Z n : 0 <= n -> (pow2 n == inject_Z (2 ^ n))%Q.
Proof. intros H. unfold pow2. by rewrite Zpower_Qpower. Qed.

Lemma pow2_sub_frac a b :
  0 <= a -> 0 <= b -> (pow2 (a - b) == (2 ^ a # Z.to_pos (2 ^ b)))%Q.
Proof.
  intros Ha Hb. unfold pow2. rewrite Qpower_minus by discriminate.
  fold (pow2 a) (pow2 b). rewrite !pow2_nonneg_Z by done.
  rewrite (Qmake_Qdiv (2 ^ a)). rewrite Z2Pos.id by lia. reflexivity.
Qed.

Lemma log2_floor_spec (q : Q) :
  (0 < q)%Q -> (pow2 (log2_floor q) <= q < pow2 (log2_floor q + 1))%Q.
Proof.
  intros Hq. destruct q as [n d]. unfold log2_floor. cbn [Qnum Qden].
  assert (Hn : 0 < n) by (unfold Qlt in Hq; simpl in Hq; lia).
  set (a := Z.log2 n). set (b := Z.log2 (Z.pos d)).
  assert (Ha : 0 <= a) by apply Z.log2_nonneg.
  assert (Hb : 0 <= b) by apply Z.log2_nonneg.
  destruct (Z.log2_spec n Hn) as [Ha1 Ha2]. fold a in Ha1, Ha2.
  destruct (Z.log2_spec (Z.pos d) ltac:(lia)) as [Hb1 Hb2]. fold b in Hb1, Hb2.
  replace (Z.succ a) with (a + 1) in Ha2 by lia.
  replace (Z.succ b) with (b + 1) in Hb2 by lia.
  rewrite Z.pow_add_r in Ha2, Hb2 by lia. change (2 ^ 1) with 2 in Ha2, Hb2.
  assert (HA : 0 < 2 ^ a) by lia. assert (HB : 0 < 2 ^ b) by lia.
  assert (Hup : (n # d < pow2 (a - b + 1))%Q).
  { rewrite pow2_succ, pow2_sub_frac by done. unfold Qlt, Qmult. cbn [Qnum Qden].
    rewrite Pos2Z.inj_mul, Z2Pos.id by lia. nia. }
  assert (Hlo : (pow2 (a - b - 1) <= n # d)%Q).
  { assert (E : (pow2 (a - b) == 2 * pow2 (a - b - 1))%Q).
    { rewrite <- pow2_succ. by replace (a - b - 1 + 1) with (a - b) by lia. }
    assert (2 * pow2 (a - b - 1) <= 2 * (n # d))%Q; [|lra].
    rewrite <- E, pow2_sub_frac by done. unfold Qle, Qmult. cbn [Qnum Qden].
    rewrite !Pos2Z.inj_mul, Z2Pos.id by lia. nia. }
  destruct (Qle_bool (pow2 (a - b)) (n # d)) eqn:E.
  - apply Qle_bool_iff in E. split; done.
  - split; [done|]. replace (a - b - 1 + 1) with (a - b) by lia.
    apply Qnot_le_lt. intros H. apply Qle_bool_iff in H. congruence.
Qed.

Lemma Qabs_nonneg_eq (q : Q) : (0 <= q)%Q -> Qabs q = q.
Proof.
  destruct q as [n d]. unfold Qle. simpl. intros H. unfold Qabs.
  f_equal. apply Z.abs_eq. lia.
Qed.

(** The value of [nearest] on a positive number. *)
Lemma nearest_pos (q : Q) :
  (0 < q)%Q ->
  let e := Z.max (log2_floor q - 52) (-1074) in
  (nearest q == inject_Z (round_half_even (q / pow2 e)) * pow2 e)%Q.
Proof.
  intros Hq e. unfold nearest.
  destruct (Qeq_bool q 0) eqn:E0.
  { apply Qeq_bool_iff in E0. lra. }
  rewrite Qabs_nonneg_eq by lra. fold e.
  assert (E : Qle_bool 0 q = true) by (apply Qle_bool_iff; lra).
  rewrite E, Qred_correct. ring.
Qed.

Lemma nearest_0 (q : Q) : (q == 0)%Q -> nearest q = 0%Q.
Proof. intros H. unfold nearest. apply Qeq_bool_iff in H. by rewrite H. Qed.

Lemma scaled_le (q : Q) (e k : Z) :
  (q <= pow2 (e + k))%Q -> 0 <= k ->
  (inject_Z (round_half_even (q / pow2 e)) * pow2 e <= pow2 (e + k))%Q.
Proof.
  intros Hq Hk. pose proof (pow2_pos e) as He.
  assert (H : round_half_even (q / pow2 e) <= 2 ^ k).
  { rewrite <- (round_half_even_inject (2 ^ k)). apply round_half_even_mono.
    rewrite <- pow2_nonneg_Z by done.
    apply Qle_shift_div_r; [done|]. by rewrite Qmult_comm, <- pow2_plus. }
  rewrite Zle_Qle, <- pow2_nonneg_Z in H by done.
  rewrite pow2_plus, (Qmult_comm (pow2 e)).
  apply Qmult_le_compat_r; [done|lra].
Qed.

Lemma scaled_ge (q : Q) (e k : Z) :
  (pow2 (e + k) <= q)%Q -> 0 <= k ->
  (pow2 (e + k) <= inject_Z (round_half_even (q / pow2 e)) * pow2 e)%Q.
Proof.
  intros Hq Hk. pose proof (pow2_pos e) as He.
  assert (H : 2 ^ k <= round_half_even (q / pow2 e)).
  { rewrite <- (round_half_even_inject (2 ^ k)) at 1. apply round_half_even_mono.
    rewrite <- pow2_nonneg_Z by done.
    apply Qle_shift_div_l; [done|]. by rewrite Qmult_comm, <- pow2_plus. }
  rewrite Zle_Qle, <- pow2_nonneg_Z in H by done.
  rewrite pow2_plus, (Qmult_comm (pow2 e)).
  apply Qmult_le_compat_r; [done|lra].
Qed.

Lemma nearest_nonneg (q : Q) : (0 <= q)%Q -> (0 <= nearest q)%Q.
Proof.
  intros Hq. destruct (Qeq_dec q 0) as [E|N].
  { rewrite nearest_0 by done. lra. }
  rewrite nearest_pos by lra.
  set (e := Z.max _ _). pose proof (pow2_pos e) as He.
  apply Qmult_le_0_compat; [|lra].
  change 0%Q with (inject_Z 0). rewrite <- Zle_Qle.
  rewrite <- (round_half_even_inject 0). apply round_half_even_mono.
  apply Qle_shift_div_l; [done|]. change (inject_Z 0) with 0%Q. lra.
Qed.

(** Rounding is monotone. *)
Lemma nearest_mono (a b : Q) :
  (0 <= a)%Q -> (a <= b)%Q -> (nearest a <= nearest b)%Q.
Proof.
  intros Ha Hab. destruct (Qeq_dec a 0) as [E|N].
  { rewrite (nearest_0 a) by done. apply nearest_nonneg. lra. }
  assert (Ha' : (0 < a)%Q) by lra. assert (Hb' : (0 < b)%Q) by lra.
  rewrite (nearest_pos a), (nearest_pos b) by done.
  destruct (log2_floor_spec a Ha') as [La Ua].
  destruct (log2_floor_spec b Hb') as [Lb Ub].
  set (ka := log2_floor a) in *. set (kb := log2_floor b) in *.
  assert (Hk : ka <= kb).
  { destruct (Z_le_gt_dec ka kb) as [?|Hgt]; [done|exfalso].
    pose proof (pow2_le (kb + 1) ka ltac:(lia)). lra. }
  set (ea := Z.max (ka - 52) (-1074)). set (eb := Z.max (kb - 52) (-1074)).
  destruct (Z.eq_dec ea eb) as [Ee|Ne].
  - rewrite Ee. pose proof (pow2_pos eb) as He.
    apply Qmult_le_compat_r; [|lra]. rewrite <- Zle_Qle.
    apply round_half_even_mono, Qmult_le_compat_r; [done|].
    apply Qinv_le_0_compat. lra.
  - assert (Hlt : ea + 1 <= eb /\ eb = kb - 52) by lia. destruct Hlt as [Hlt Heb].
    apply Qle_trans with (pow2 (ea + 53)).
    + apply scaled_le; [|lia].
      apply Qle_trans with (pow2 (ka + 1)); [lra|]. apply pow2_le. lia.
    + apply Qle_trans with (pow2 (eb + 52)); [apply pow2_le; lia|].
      apply scaled_ge; [|lia]. by replace (eb + 52) with kb by lia.
Qed.

Lemma nearest_le_1 (q : Q) : (0 <= q <= 1)%Q -> (0 <= nearest q <= 1)%Q.
Proof.
  intros [H0 H1]. split; [by apply nearest_nonneg|].
  apply Qle_trans with (nearest 1); [by apply nearest_mono|by vm_compute].
Qed.

Lemma quotient_unit (g t : Z) :
  0 <= g <= t -> 0 < t -> (0 <= inject_Z g / inject_Z t <= 1)%Q.
Proof.
  intros Hg Ht. assert (Ht' : (0 < inject_Z t)%Q).
  { change 0%Q with (inject_Z 0). by rewrite <- Zlt_Qlt. }
  split.
  - apply Qle_shift_div_l; [done|]. rewrite Qmult_0_l.
    change 0%Q with (inject_Z 0). rewrite <- Zle_Qle. lia.
  - apply Qle_shift_div_r; [done|]. rewrite Qmult_1_l, <- Zle_Qle. lia.
Qed.

Lemma int_div_unit (g t : Z) :
  0 <= g <= t -> 0 < t -> (0 <= int_div g t <= 1)%Q.
Proof. intros Hg Ht. by apply nearest_le_1, quotient_unit. Qed.

Lemma round2_unit (x : Q) : (0 <= x <= 1)%Q -> (0 <= round2 x <= 1)%Q.
Proof.
  intros [H0 H1]. unfold round2. apply nearest_le_1.
  assert (Hlo : 0 <= round_half_even (x * 100)).
  { rewrite <- (round_half_even_inject 0). apply round_half_even_mono.
    change (inject_Z 0) with 0%Q. lra. }
  assert (Hhi : round_half_even (x * 100) <= round_half_even (inject_Z 100)).
  { apply round_half_even_mono. change (inject_Z 100) with 100%Q. lra. }
  rewrite round_half_even_inject in Hhi.
  split; unfold Qle; cbn [Qnum Qden]; lia.
Qed.

(** Comparing a quotient of two [int]s with a decimal literal [p / q]:
    when the float below the literal is further from it than
    [1 / (q * bound)], the comparison of the floats decides the
    comparison of the exact numbers for every denominator up to
    [bound]. *)
Lemma int_div_threshold (p : Z) (q bound : positive) (g t : Z) :
  0 <= p ->
  Qlt_bool (nearest ((p # q) - (1 # q * bound))) (flt (p # q)) = true ->
  0 <= g -> 0 < t <= Z.pos bound ->
  Qle_bool (flt (p # q)) (int_div g t) = true <-> p * t <= Z.pos q * g.
Proof.
  intros Hp Hgap Hg Ht.
  assert (Ht' : (0 < inject_Z t)%Q).
  { change 0%Q with (inject_Z 0). rewrite <- Zlt_Qlt. lia. }
  assert (Hq : (0 <= inject_Z g / inject_Z t)%Q).
  { apply Qle_shift_div_l; [done|]. rewrite Qmult_0_l.
    change 0%Q with (inject_Z 0). by rewrite <- Zle_Qle. }
  assert (Hpq : (0 <= p # q)%Q) by (unfold Qle; simpl; lia).
  rewrite Qle_bool_iff. unfold flt, int_div. split.
  - intros Hle. destruct (Z_le_gt_dec (p * t) (Z.pos q * g)) as [?|Hgt]; [done|exfalso].
    unfold Qlt_bool in Hgap. apply negb_true_iff in Hgap.
    assert (Hc : (inject_Z g / inject_Z t <= (p # q) - (1 # q * bound))%Q).
    { apply Qle_shift_div_r; [done|].
      assert (E : (inject_Z t == t # 1)%Q) by reflexivity. rewrite E.
      assert (E' : (inject_Z g == g # 1)%Q) by reflexivity. rewrite E'.
      unfold Qle, Qminus, Qplus, Qmult, Qopp. cbn [Qnum Qden].
      rewrite !Pos2Z.inj_mul.
      assert (H1 : (Z.pos q * g + 1) * Z.pos bound <= p * t * Z.pos bound) by nia.
      assert (H2 : g * Z.pos q * Z.pos bound <= (p * Z.pos bound - 1) * t) by nia.
      assert (H3 : Z.pos q * (g * Z.pos q * Z.pos bound)
                   <= Z.pos q * ((p * Z.pos bound - 1) * t)) by nia.
      lia. }
    pose proof (nearest_mono _ _ Hq Hc) as Hm.
    assert (Qle_bool (flt (p # q)) (nearest ((p # q) - (1 # q * bound))) = true);
      [|congruence].
    apply Qle_bool_iff. unfold flt. lra.
  - intros Hle. apply nearest_mono; [done|].
    apply Qle_shift_div_l; [done|].
    assert (E : (inject_Z t == t # 1)%Q) by reflexivity. rewrite E.
    unfold Qle, Qmult. cbn [Qnum Qden]. unfold inject_Z. cbn [Qnum Qden]. nia.
Qed.

Definition size_bound : positive := 2 ^ 48.


Lemma grounded_threshold (g t : Z) :
  0 <= g -> 0 < t <= Z.pos size_bound ->
  Qle_bool (flt (85 # 100)) (int_div g t) = true <-> 17 * t <= 20 * g.
Proof.
  intros Hg Ht.
  replace (flt (85 # 100)) with (flt (17 # 20)) by (by vm_compute).
  rewrite (int_div_threshold 17 20 size_bound) by (done || by vm_compute). lia.
Qed.

Lemma partial_threshold (g t : Z) :
  0 <= g -> 0 < t <= Z.pos size_bound ->
  Qle_bool (flt (6 # 10)) (int_div g t) = true <-> 3 * t <= 5 * g.
Proof.
  intros Hg Ht.
  replace (flt (6 # 10)) with (flt (3 # 5)) by (by vm_compute).
  rewrite (int_div_threshold 3 5 size_bound) by (done || by vm_compute). lia.
Qed.

(** *** The rounding against the IEEE 754 reference

    [SpecFloat] is the Standard Library's executable specification of
    IEEE 754 arithmetic; at precision 53 and [emax] 1024 it is binary64.
    On the quotients, differences and sums below, its operations and
    [nearest] of the exact result give the same number. *)

Definition ieee_value (f : SpecFloat.spec_float) : Q :=
  match f with
  | SpecFloat.S754_finite s m e =>
      Qred ((if s then -1 else 1) * (inject_Z (Z.pos m) * pow2 e))%Q
  | _ => 0%Q
  end.

Definition ieee_of_int (n : Z) : SpecFloat.spec_float :=
  SpecFloat.binary_normalize 53 1024 (Z.abs n) 0 (n <? 0).

Definition ieee_div (a b : Z) : SpecFloat.spec_float :=
  SpecFloat.SFdiv 53 1024 (ieee_of_int a) (ieee_of_int b).

Example int_div_is_ieee :
  let pairs :=
    [ (1, 40); (37, 40); (11, 13); (1, 3); (2, 3); (3, 4); (23, 34); (43, 44);
      (85, 100); (6, 10); (1, 10); (5, 100); (51, 1000); (1, 1000);
      (9007199254740991, 3); (1, 9007199254740991) ] in
  map (fun '(a, b) => int_div a b) pairs
  = map (fun '(a, b) => ieee_value (ieee_div a b)) pairs.
Proof. by vm_compute. Qed.

(** The quotient of two [int]s is rounded once, also when the [int]s
    are no floats themselves. *)
Example int_div_rounds_once :
  int_div (2 ^ 53 + 1) 3 = 3002399751580331%Q
  /\ fdiv (float_of_int (2 ^ 53 + 1)) (float_of_int 3) = (6004799503160661 # 2)%Q.
Proof. by vm_compute. Qed.

Example float_of_int_is_ieee :
  let ints :=
    [ 1; 3; 100; 9007199254740992; 9007199254740993; 9007199254740995;
      2 ^ 70 + 2 ^ 17; 2 ^ 70 + 2 ^ 17 + 1 ] in
  map float_of_int ints = map (fun n => ieee_value (ieee_of_int n)) ints.
Proof. by vm_compute. Qed.

Example fsub_is_ieee :
  fsub (flt (5 # 100)) (flt (51 # 1000))
  = ieee_value (SpecFloat.SFsub 53 1024 (ieee_div 5 100) (ieee_div 51 1000)).
Proof. by vm_compute. Qed.

Example fadd_is_ieee :
  fadd (flt (1 # 10)) (flt (2 # 10))
  = ieee_value (SpecFloat.SFadd 53 1024 (ieee_div 1 10) (ieee_div 2 10))
  /\ fadd (flt (1 # 10)) (flt (2 # 10)) <> flt (3 # 10).
Proof. by vm_compute. Qed.

Example fmul_is_ieee :
  fmul (int_div 1 6) (float_of_int 3)
  = ieee_value (SpecFloat.SFmul 53 1024 (ieee_div 1 6) (ieee_of_int 3))
  /\ fmul (int_div 1 6) (float_of_int 3) = (1 # 2)%Q.
Proof. by vm_compute. Qed.

(** What Python prints: [round(1 / 40, 2)] is [0.03], [round(37 / 40, 2)]
    is [0.93], [abs(0.05 - 0.051) < 0.001] holds, and the smallest
    subnormal number is [2 ** -1074]. *)
Example round2_examples :
  round2 (int_div 1 40) = flt (3 # 100)
  /\ round2 (int_div 37 40) = flt (93 # 100)
  /\ round2 (int_div 11 13) = flt (85 # 100)
  /\ round2 (flt (1 # 8)) = flt (12 # 100)
  /\ Qlt_bool (Qabs (fsub (flt (5 # 100)) (flt (51 # 1000)))) (flt (1 # 1000)) = true
  /\ nearest (3 # 2 ^ 1075) = pow2 (-1073)
  /\ nearest (1 # 2 ^ 1075) = 0%Q.
Proof. by vm_compute. Qed.

Example float_of_long_digit_strings :
  parse_float (py "0.1") = Some (Finite (flt (1 # 10)))
  /\ parse_float (py "1.") = Some (Finite 1%Q)
  /\ parse_float (py ".5") = Some (Finite (1 # 2)%Q)
  /\ parse_float (py ".") = None
  /\ parse_float (py "0.001.") = None
  /\ parse_float (repeat 57%N 308) = Some (Finite (nearest (inject_Z (10 ^ 308 - 1))))
  /\ parse_float (repeat 57%N 309) = Some Infinite.
Proof. by vm_compute. Qed.

End FloatProps.

(** ** The text chunker *)

Module ChunkerProps.
Import Chunker.

Example chunk_by_size_small :
  _chunk_by_size 4 (py "abcdefghij")
  = Ok [ {| heading := py "Part 1"; content := py "abcd" |};
         {| heading := py "Part 2"; content := py "efgh" |};
         {| heading := py "Part 3"; content := py "ij" |} ].
Proof. vm_compute. reflexivity. Qed.

Example split_small :
  split_into_sections 12 (py "Title  Intro text. Methods here")
    [ {| sec_heading := py "Methods"; sec_offset := Some 19 |};
      {| sec_heading := py "Intro"; sec_offset := Some 7 |} ]
  = Ok [ {| heading := py "Preamble / Title"; content := py "Title" |};
         {| heading := py "Intro"; content := py "Intro text." |};
         {| heading := py "Methods"; content := py "Methods here" |} ].
Proof. vm_compute. reflexivity. Qed.


(** *** Slices and trimming *)

Lemma slice_length_bound {A} (s : list A) (a m : Z) :
  0 <= a -> 0 <= m -> len (slice s a (a + m)) <= m.
Proof.
  intros Ha Hm. unfold slice, len, clamp.
  rewrite length_take, length_drop.
  destruct (a <? 0) eqn:E1; [apply Z.ltb_lt in E1; lia|].
  destruct (a + m <? 0) eqn:E2; [apply Z.ltb_lt in E2; lia|].
  lia.
Qed.

Lemma slice_nil {A} (a b : Z) : slice (@nil A) a b = [].
Proof. unfold slice. rewrite drop_nil. apply take_nil. Qed.

Lemma strip_blank_line (s : str) : strip ([10%N; 10%N] ++ s) = strip s.
Proof. reflexivity. Qed.

Lemma truthy_app_l (a b : str) : truthy a = true -> truthy (a ++ b) = true.
Proof. destruct a; [discriminate|reflexivity]. Qed.

Lemma truthy_nonempty (a : str) : truthy a = true <-> a <> [].
Proof. destruct a; simpl; split; congruence. Qed.

Lemma join_snoc (sep : str) (ps : list str) (p : str) :
  ps <> [] -> join sep (ps ++ [p]) = join sep ps ++ sep ++ p.
Proof.
  induction ps as [|q ps IH]; [congruence|]. intros _.
  destruct ps as [|r ps]; [reflexivity|].
  change (join sep ((q :: r :: ps) ++ [p]))
    with (q ++ sep ++ join sep ((r :: ps) ++ [p])).
  rewrite IH by congruence.
  change (join sep (q :: r :: ps)) with (q ++ sep ++ join sep (r :: ps)).
  by rewrite <- !(assoc_L (++)).
Qed.

(** *** The fixed-size fallback *)

Lemma chunk_by_size_bound (MAX : Z) (text : str) :
  match _chunk_by_size MAX text with
  | Ok out => Forall (fun c => len (content c) <= MAX) out
  | Raise _ => MAX = 0
  end.
Proof.
  unfold _chunk_by_size, py_range.
  destruct (MAX =? 0) eqn:E0; [by apply Z.eqb_eq in E0|].
  apply Z.eqb_neq in E0. simpl.
  apply Forall_lookup. intros k c Hk.
  rewrite list_lookup_imap in Hk.
  destruct (_ !! k) as [i|] eqn:Hi; [|discriminate].
  simpl in Hk. injection Hk as <-. simpl.
  rewrite list_lookup_fmap in Hi.
  destruct (seq _ _ !! k) as [j|] eqn:Hj; [|discriminate].
  simpl in Hi. injection Hi as <-.
  apply lookup_seq in Hj as [-> Hlt].
  destruct (0 <? MAX) eqn:Epos.
  - apply Z.ltb_lt in Epos. apply slice_length_bound; lia.
  - apply Z.ltb_ge in Epos. exfalso.
    assert ((0 - len text - MAX - 1) / - MAX < 1).
    { apply Z.div_lt_upper_bound; unfold len; lia. }
    lia.
Qed.

(** *** Merging: which pieces end up in which chunk *)

Definition piece_sum (g : list chunk) : Z :=
  foldr (fun c acc => len (content c) + acc) 0 g.

(** Text of a chunk that was built from the pieces [g]. *)
Definition rendered (g : list chunk) : str :=
  strip (join [10%N; 10%N] (map content g)).

(** A chunk made of two or more pieces holds less than the budget of
    section text. *)
Definition group_ok (max_size : Z) (g : list chunk) : Prop :=
  (2 <= length g)%nat -> piece_sum g < max_size.

Lemma piece_sum_snoc g c : piece_sum (g ++ [c]) = piece_sum g + len (content c).
Proof. induction g as [|d g IH]; simpl; [lia|]. rewrite IH. lia. Qed.

(** The loop invariant: [done] are the groups already flushed, [cur]
    the pieces sitting in the buffer. *)
Record merge_inv (max_size : Z) (seen : list chunk) (st : merge_state)
  (done : list (list chunk)) (cur : list chunk) : Prop :=
  { inv_seen : concat done ++ cur = seen;
    inv_done_nonempty : Forall (fun g => g <> []) done;
    inv_done_ok : Forall (group_ok max_size) done;
    inv_cur_ok : group_ok max_size cur;
    inv_merged : map content (merged st) = map rendered done;
    inv_buffer :
      (cur = [] /\ buffer_content st = [])
      \/ (cur <> []
          /\ (buffer_content st = join [10%N; 10%N] (map content cur)
              \/ buffer_content st
                 = [10%N; 10%N] ++ join [10%N; 10%N] (map content cur)));
    inv_sum : piece_sum cur <= len (buffer_content st) }.

Lemma join_truthy (g : list chunk) :
  g <> [] -> Forall (fun c => truthy (content c) = true) g ->
  truthy (join [10%N; 10%N] (map content g)) = true.
Proof.
  destruct g as [|c g]; [congruence|]. intros _ H.
  apply Forall_cons in H as [Hc _].
  destruct g; simpl; [done|]. by apply truthy_app_l.
Qed.

Lemma flush_inv max_size seen st done cur :
  Forall (fun c => truthy (content c) = true) seen ->
  merge_inv max_size seen st done cur ->
  exists groups,
    concat groups = seen /\ Forall (fun g => g <> []) groups
    /\ Forall (group_ok max_size) groups
    /\ map content (flush st) = map rendered groups.
Proof.
  intros Hne [Hseen Hdne Hdok Hcok Hm Hb Hs].
  destruct Hb as [[-> Hb]|[Hcur Hb]].
  - exists done. rewrite app_nil_r in Hseen.
    unfold flush. rewrite Hb. simpl. done.
  - exists (done ++ [cur]). split_and!.
    + rewrite concat_app. simpl. by rewrite app_nil_r.
    + apply Forall_app. split; [done|]. by constructor.
    + apply Forall_app. split; [done|]. by constructor.
    + assert (Hall : Forall (fun c => truthy (content c) = true) cur).
      { rewrite <- Hseen in Hne. by apply Forall_app in Hne as [_ ?]. }
      pose proof (join_truthy cur Hcur Hall) as Ht.
      unfold flush.
      destruct Hb as [Hb|Hb]; rewrite Hb.
      * rewrite Ht. rewrite !map_app, Hm. reflexivity.
      * change (truthy (_ ++ _)) with true. cbv iota.
        rewrite !map_app, Hm. reflexivity.
Qed.

Lemma merge_step_inv max_size seen st done cur c :
  Forall (fun c => truthy (content c) = true) (seen ++ [c]) ->
  merge_inv max_size seen st done cur ->
  exists done' cur',
    merge_inv max_size (seen ++ [c]) (merge_step max_size st c) done' cur'.
Proof.
  intros Hne Hinv.
  pose proof Hinv as [Hseen Hdne Hdok Hcok Hm Hb Hs].
  unfold merge_step.
  destruct (len (buffer_content st) + len (content c) <? max_size) eqn:E.
  - apply Z.ltb_lt in E.
    exists done, (cur ++ [c]). split; simpl; try done.
    + by rewrite (assoc_L (++)), Hseen.
    + intros _. rewrite piece_sum_snoc. lia.
    + right. split; [by destruct cur|].
      destruct Hb as [[-> Hb]|[Hcur Hb]].
      * rewrite Hb. by right.
      * rewrite map_app. change (map content [c]) with [content c].
        rewrite join_snoc by (by destruct cur).
        destruct Hb as [Hb|Hb]; rewrite Hb; [by left|right].
        by rewrite <- !(assoc_L (++)).
    + rewrite piece_sum_snoc. unfold len in *. rewrite !length_app. simpl. lia.
  - assert (Hseen' : Forall (fun c => truthy (content c) = true) seen).
    { by apply Forall_app in Hne as [? _]. }
    destruct (flush_inv max_size seen st done cur Hseen' Hinv)
      as (groups & Hg1 & Hg2 & Hg3 & Hg4).
    exists groups, [c]. split; simpl; try done.
    + by rewrite Hg1.
    + intros ?. simpl in *. lia.
    + right. split; [done|by left].
    + lia.
Qed.

Lemma merge_fold_inv max_size chunks seen st done cur :
  Forall (fun c => truthy (content c) = true) (seen ++ chunks) ->
  merge_inv max_size seen st done cur ->
  exists done' cur',
    merge_inv max_size (seen ++ chunks)
      (fold_left (merge_step max_size) chunks st) done' cur'.
Proof.
  revert seen st done cur.
  induction chunks as [|c chunks IH]; intros seen st done cur Hne Hinv.
  - rewrite app_nil_r. eauto.
  - simpl. replace (seen ++ c :: chunks) with ((seen ++ [c]) ++ chunks) in *
      by (by rewrite <- (assoc_L (++))).
    destruct (merge_step_inv max_size seen st done cur c) as (d' & c' & Hinv');
      [by apply Forall_app in Hne as [? _]|done|].
    eapply IH; eauto.
Qed.

(** Merging never splits a piece and never puts two pieces together
    whose lengths add up to the budget or more. *)
Lemma merge_small_chunks_groups (chunks : list chunk) (max_size : Z) :
  Forall (fun c => truthy (content c) = true) chunks ->
  exists groups,
    concat groups = chunks /\ Forall (fun g => g <> []) groups
    /\ Forall (group_ok max_size) groups
    /\ map content (_merge_small_chunks chunks max_size) = map rendered groups.
Proof.
  intros Hne. unfold _merge_small_chunks.
  destruct (merge_fold_inv max_size chunks []
              {| merged := []; buffer_heading := []; buffer_content := [] |}
              [] []) as (dn & cur & Hinv); [by rewrite app_nil_l| |].
  { split; simpl; try done; [|by left]. intros ?. simpl in *. lia. }
  eapply flush_inv; eauto.
Qed.

Lemma piece_truthy h body : Forall (fun c => truthy (content c) = true) (piece h body).
Proof.
  unfold piece. destruct (truthy (strip body)) eqn:E; [|done].
  by constructor.
Qed.

Lemma raw_chunks_truthy text sections :
  Forall (fun c => truthy (content c) = true) (raw_chunks text sections).
Proof.
  unfold raw_chunks. apply Forall_app. split.
  - unfold preamble_chunks. destruct (sorted_sections sections) as [|[o h] l]; [done|].
    destruct (0 <? o); [apply piece_truthy|done].
  - induction (sorted_sections sections) as [|[o h] l IH]; [done|].
    simpl. apply Forall_app. split; [apply piece_truthy|apply IH].
Qed.

(** *** The size budget *)

(** C3, as the code has it. Every chunk of the fixed-size fallback is
    at most [MAX_CHUNK_CHARS] long. On the section path no section is
    ever split: the pieces (preamble and trimmed section bodies) are
    grouped in order, each output chunk is the trimmed blank-line join
    of one group, and a group of two or more pieces holds less than
    [MAX_CHUNK_CHARS] characters of section text. The fallback raises
    only for a budget of zero. *)
Theorem chunk_budget (MAX : Z) (text : str) (sections : list section) :
  match split_into_sections MAX text sections with
  | Raise _ => MAX = 0 /\ uses_fallback sections = true
  | Ok out =>
      if uses_fallback sections
      then Forall (fun c => len (content c) <= MAX) out
      else exists groups,
          concat groups = raw_chunks text sections
          /\ Forall (fun g => g <> []) groups
          /\ map content out = map rendered groups
          /\ Forall (group_ok MAX) groups
  end.
Proof.
  unfold split_into_sections.
  destruct (uses_fallback sections) eqn:Efb.
  - pose proof (chunk_by_size_bound MAX text) as H.
    destruct (_chunk_by_size MAX text); [done|]. by split.
  - destruct (merge_small_chunks_groups (raw_chunks text sections) MAX
                (raw_chunks_truthy text sections)) as (groups & H1 & H2 & H3 & H4).
    exists groups. done.
Qed.

(** A paper whose first section is 30001 characters long, chunked with
    the default budget of 30000. *)
Definition long_text : str := repeat 97%N (Z.to_nat 30001) ++ py " tail".
Definition long_sections : list section :=
  [ {| sec_heading := py "Body"; sec_offset := Some 0 |};
    {| sec_heading := py "End"; sec_offset := Some 30002 |} ].

Definition within_budget (MAX : Z) (r : result (list chunk)) : bool :=
  match r with
  | Ok out => forallb (fun c => len (content c) <=? MAX) out
  | Raise _ => true
  end.

Lemma within_budget_spec (MAX : Z) (r : result (list chunk)) :
  (forall out, r = Ok out -> Forall (fun c => len (content c) <= MAX) out) ->
  within_budget MAX r = true.
Proof.
  intros H. destruct r as [out|e]; [|done]. simpl.
  apply forallb_forall. intros c Hc.
  specialize (H out eq_refl). rewrite Forall_forall in H.
  apply Z.leb_le, H. by apply list_elem_of_In.
Qed.

Example long_text_chunks :
  within_budget 30000 (split_into_sections 30000 long_text long_sections) = false.
Proof. vm_compute. reflexivity. Qed.

(** C3 as stated fails: the section path does not bound a chunk. *)
Lemma chunk_budget_counterexample :
  ~ (forall MAX text sections out,
        split_into_sections MAX text sections = Ok out ->
        Forall (fun c => len (content c) <= MAX) out).
Proof.
  intros H.
  pose proof (within_budget_spec 30000
                (split_into_sections 30000 long_text long_sections)
                (H 30000 long_text long_sections)) as Hb.
  rewrite long_text_chunks in Hb. discriminate.
Qed.

(** The chunker on a text without characters: no chunk at all, for
    every section list (and a non-zero budget). *)
Lemma split_empty_text (MAX : Z) (sections : list section) :
  MAX <> 0 -> split_into_sections MAX [] sections = Ok [].
Proof.
  intros HM. unfold split_into_sections.
  destruct (uses_fallback sections).
  - unfold _chunk_by_size, py_range.
    destruct (MAX =? 0) eqn:E; [apply Z.eqb_eq in E; lia|].
    simpl. unfold len. simpl length. replace (Z.to_nat _) with 0%nat; [done|].
    destruct (0 <? MAX) eqn:Ep.
    + apply Z.ltb_lt in Ep. rewrite Z.div_small; lia.
    + apply Z.ltb_ge in Ep.
      assert ((0 - 0 - MAX - 1) / - MAX < 1) by (apply Z.div_lt_upper_bound; lia).
      lia.
  - f_equal. unfold raw_chunks.
    assert (Hp : forall h a b, piece h (slice (@nil char) a b) = []).
    { intros. by rewrite slice_nil. }
    assert (Hs : forall l, section_chunks [] l = []).
    { induction l as [|[o h] l IH]; [done|]. simpl. by rewrite Hp, IH. }
    rewrite Hs. unfold preamble_chunks, slice_to.
    destruct (sorted_sections sections) as [|[o h] l]; [done|].
    destruct (0 <? o); [by rewrite Hp|done].
Qed.

End ChunkerProps.

(** ** The stable sort *)

Module SortProps.

Section Sort.
Context {A : Type} (le : A -> A -> bool).
Hypothesis le_total : forall a b, le a b = false -> le b a = true.
Hypothesis le_trans : forall a b c, le a b = true -> le b c = true -> le a c = true.

Lemma insert_by_perm (x : A) (l : list A) : insert_by le x l ≡ₚ x :: l.
Proof.
  induction l as [|y l IH]; simpl; [done|].
  destruct (le x y); [done|]. rewrite IH. apply Permutation_swap.
Qed.

Lemma sorted_by_perm (l : list A) : sorted_by le l ≡ₚ l.
Proof.
  induction l as [|x l IH]; simpl; [done|].
  rewrite insert_by_perm. by rewrite IH.
Qed.

Lemma sorted_by_length (l : list A) : length (sorted_by le l) = length l.
Proof. apply Permutation_length, sorted_by_perm. Qed.

Lemma insert_by_sorted (x : A) (l : list A) :
  StronglySorted (fun a b => le a b = true) l ->
  StronglySorted (fun a b => le a b = true) (insert_by le x l).
Proof.
  induction 1 as [|y l Hs IH Hy]; simpl.
  - repeat constructor.
  - destruct (le x y) eqn:E.
    + constructor; [by constructor|]. constructor; [done|].
      eapply Forall_impl; [exact Hy|]. intros z Hz. by eapply le_trans.
    + constructor; [done|].
      eapply Permutation_Forall; [symmetry; apply insert_by_perm|].
      constructor; [by apply le_total|done].
Qed.

Lemma sorted_by_sorted (l : list A) :
  StronglySorted (fun a b => le a b = true) (sorted_by le l).
Proof.
  induction l as [|x l IH]; simpl; [constructor|]. by apply insert_by_sorted.
Qed.

End Sort.

End SortProps.

(** ** Figure matching *)

Module FiguresProps.
Import Re Figures SortProps.

Definition two_figure_text : str :=
  py "See Fig. 2: Forest plot of overall survival.
Figure 1. PRISMA flow diagram of the search.
As shown in Fig. 1, the search was broad.".

Definition two_images : list figure_description :=
  [ {| fd_index := Some 1; fd_page := 5; fd_caption := [];
       fd_description := py "A forest plot." |};
    {| fd_index := Some 0; fd_page := 2; fd_caption := [];
       fd_description := py "A flow diagram." |} ].

Example two_figure_refs :
  map (fun r => (fig_num r, ref_offset r)) (unique_refs two_figure_text)
  = [ (2, 4); (1, 45) ].
Proof. vm_compute. reflexivity. Qed.

Example two_figure_match :
  _match_figures_to_paper two_figure_text two_images
  = [ {| label := py "Fig. 1"; page := 2; description := py "A flow diagram." |};
      {| label := py "Fig. 2"; page := 5; description := py "A forest plot." |} ].
Proof. vm_compute. reflexivity. Qed.



Lemma ref_le_total a b : ref_le a b = false -> ref_le b a = true.
Proof. unfold ref_le. lia. Qed.

Lemma ref_le_trans a b c :
  ref_le a b = true -> ref_le b c = true -> ref_le a c = true.
Proof. unfold ref_le. lia. Qed.

(** De-duplication keeps exactly one reference per figure number. *)
Lemma first_per_number_spec (seen : list Z) (refs : list fig_ref) :
  NoDup (map fig_num (first_per_number seen refs))
  /\ forall n, n ∈ map fig_num (first_per_number seen refs)
               <-> n ∈ map fig_num refs /\ n ∉ seen.
Proof.
  revert seen. induction refs as [|r refs IH]; intros seen; simpl.
  - split; [constructor|]. intros n. rewrite elem_of_nil. tauto.
  - case_bool_decide as Hin.
    + destruct (IH seen) as [Hnd Hel]. split; [done|].
      intros n. rewrite Hel, elem_of_cons. split; [tauto|].
      intros [[->|?] ?]; tauto.
    + destruct (IH (fig_num r :: seen)) as [Hnd Hel]. split.
      * simpl. constructor; [|done]. rewrite Hel, elem_of_cons. tauto.
      * intros n. simpl. rewrite !elem_of_cons, Hel, elem_of_cons.
        split; [intros [->|[? ?]]; tauto|].
        destruct (decide (n = fig_num r)); tauto.
Qed.

Lemma unique_refs_nodup text : NoDup (map fig_num (unique_refs text)).
Proof. apply first_per_number_spec. Qed.


Lemma sorted_refs_increasing text :
  StronglySorted (fun a b => fig_num a < fig_num b) (sorted_refs text).
Proof.
  unfold sorted_refs.
  pose proof (sorted_by_sorted ref_le ref_le_total ref_le_trans (unique_refs text)) as Hs.
  assert (Hnd : NoDup (map fig_num (sorted_by ref_le (unique_refs text)))).
  { eapply NoDup_Permutation_proper; [|apply (unique_refs_nodup text)].
    apply Permutation_map, sorted_by_perm. }
  induction Hs as [|r l Hs IH Hr]; [constructor|].
  simpl in Hnd. apply NoDup_cons in Hnd as [Hnotin Hnd].
  constructor; [by apply IH|].
  apply Forall_forall. intros b Hb.
  rewrite Forall_forall in Hr. specialize (Hr b Hb).
  unfold ref_le in Hr. apply Z.leb_le in Hr.
  assert (fig_num b <> fig_num r); [|lia].
  intros E. apply Hnotin. rewrite <- E. by apply list_elem_of_fmap_2.
Qed.



End FiguresProps.

(** ** The statistical layer of the validator *)

Module StatProps.
Import Re Grounding FloatProps.

Definition hr_evidence : str := py "HR=0.64, 95% CI 0.58-0.71, p<0.001".
Definition hr_source : str :=
  py "hazard ratio of 0.64 (95% CI: 0.58 to 0.71), p<0.001".

Example hr_evidence_values :
  _extract_key_values hr_evidence
  = [ Metric (py "HR") (py "0.64"); PValue (py "<") (py "0.001");
      CI (py "0.58") (py "0.71"); Percent (py "95") ].
Proof. vm_compute. reflexivity. Qed.

Example hr_source_values :
  _extract_key_values hr_source
  = [ PValue (py "<") (py "0.001"); Percent (py "95") ].
Proof. vm_compute. reflexivity. Qed.


(** A claimed p-value that ends a sentence: the captured text keeps
    the full stop and [float] rejects it. *)
(** A claimed [p=0.051] against a source [p=0.05]: the difference of
    the two floats is below the float [0.001], although the difference
    of the two decimals is 0.001. *)
Example p_equal_within_tolerance :
  _verify_stat_evidence (py "p=0.051") (py "p=0.05")
  = Ok {| grounded := Some true; score := flt 1;
          found := [py "p=0.051"]; missing := []; detail := None |}
  /\ _find_value_in_source (py "0.051") (_normalize (py "p=0.05")) = false
  /\ Qlt_bool (Qabs ((5 # 100) - (51 # 1000))) (1 # 1000) = false.
Proof. by vm_compute. Qed.

Example trailing_dot_raises :
  _verify_stat_evidence (py "HR=0.64, p<0.001.") (py "HR of 0.64, p<0.001")
  = Raise {| kind := ValueError; msg := py "could not convert string to float" |}.
Proof. vm_compute. reflexivity. Qed.







(** Reading the claim word for word: a claimed value is found when it
    is among the values extracted from the source, or, for a p-value
    with operator < or <=, when some source p-value is at most the
    claimed one. *)
Global Instance key_value_eq_dec : EqDecision key_value.
Proof. solve_decision. Defined.



(** A percentage that is found only as a piece of a year. *)
Definition year_evidence : str := py "12% of patients".
Definition year_source : str := py "Enrolment began in 2012.".

Example year_values :
  _extract_key_values year_evidence = [Percent (py "12")]
  /\ _extract_key_values year_source = [].
Proof. vm_compute. done. Qed.





End StatProps.

(** ** Quote verification *)

Module QuoteProps.
Import Re Grounding FloatProps.

Definition os_quote : str := py "significant improvement in overall survival".
Definition os_source : str :=
  py "a significant improvement in overall sur- vival was observed".

Example os_quote_verdict :
  verify_quote os_source (JStr os_quote)
  = Ok {| q_quote := JStr os_quote; q_grounded := Some true;
          q_score := flt (68 # 100); q_detail := None |}.
Proof. vm_compute. reflexivity. Qed.

Example os_quote_word_ratio :
  word_ratio (_normalize os_source) (content_words (_normalize os_quote)) = flt (3 # 4).
Proof. vm_compute. reflexivity. Qed.

Example os_first_window :
  head (windows (split_ws (_normalize os_source))
          (len (split_ws (_normalize os_quote))))
  = Some (py "a significant improvement")
  /\ Difflib.ratio (_normalize os_quote) (py "a significant improvement")
     = int_div 23 34.
Proof. vm_compute. done. Qed.

(** The docstring of [_fuzzy_contains] promises [(is_match, best_ratio)],
    and the window loop returns [ratio], the ratio of the window that
    reached the threshold: here that is 23/34 while [best_ratio], which
    holds the content-word coverage, is 0.75. *)
Example crossing_window_below_best_ratio :
  let source_norm := _normalize os_source in
  let sub_norm := _normalize os_quote in
  let best_ratio := Qmax (flt 0) (word_ratio source_norm (content_words sub_norm)) in
  _fuzzy_contains os_source os_quote QUOTE_SIMILARITY_THRESHOLD = (true, int_div 23 34)
  /\ best_ratio = flt (75 # 100)
  /\ Qlt_bool (int_div 23 34) best_ratio = true.
Proof. vm_compute. done. Qed.

Example fabricated_quote :
  verify_quote (py "the quick brown fox jumps over the lazy dog and runs far away")
    (JStr (py "entirely fabricated statement about nothing real"))
  = Ok {| q_quote := JStr (py "entirely fabricated statement about nothing real");
          q_grounded := Some false; q_score := flt (27 # 100); q_detail := None |}.
Proof. vm_compute. reflexivity. Qed.

(** Reading the claim word for word: the best ratio over exact
    containment, content-word coverage and the windows of every size
    and at every position. *)
Definition all_windows (words : list str) (sub_word_count : Z) : list str :=
  flat_map (fun size_offset =>
              let win_size := sub_word_count + size_offset in
              if (win_size <? 3) || (len words <? win_size) then []
              else map (fun i => join [32%N] (slice words (Z.of_nat i)
                                                (Z.of_nat i + win_size)))
                       (seq 0 (Z.to_nat (len words - win_size + 1))))
    [-2; -1; 0; 1; 2; 3].

Definition best_over_all_strategies (source quote : str) : Q :=
  let source_norm := _normalize source in
  let sub_norm := _normalize quote in
  let cws := content_words sub_norm in
  fold_left Qmax
    ((if contains source_norm sub_norm then [flt 1] else [])
     ++ (match cws with [] => [] | _ => [word_ratio source_norm cws] end)
     ++ map (Difflib.ratio sub_norm)
          (all_windows (split_ws source_norm) (len (split_ws sub_norm))))
    (flt 0).

(** A quote with four misspelt words: one content word in four occurs
    in the source, the first window examined ("significant improvement
    in") has ratio 48/65, and the five-word window at the same place
    has ratio 39/41. *)
Definition typo_quote : str := py "signifcant improvment in overal survivl".
Definition typo_source : str :=
  py "significant improvement in overall survival was observed in the treated group".


Example typo_quote_ratios :
  let source_norm := _normalize typo_source in
  let sub_norm := _normalize typo_quote in
  word_ratio source_norm (content_words sub_norm) = flt (25 # 100)
  /\ head (windows (split_ws source_norm) (len (split_ws sub_norm)))
     = Some (py "significant improvement in")
  /\ Difflib.ratio sub_norm (py "significant improvement in") = int_div 48 65
  /\ Difflib.ratio sub_norm (py "significant improvement in overall survival")
     = int_div 39 41
  /\ best_over_all_strategies typo_source typo_quote = int_div 39 41
  /\ round2 (int_div 39 41) = flt (95 # 100).
Proof. vm_compute. done. Qed.












End QuoteProps.

(** ** The aggregation of the validator *)

Module ValidatorProps.
Import Grounding Validator FloatProps.

(** A service that is down, a decoder that rejects everything: enough
    for runs that never call them. *)
Definition no_service : list event -> request -> result str :=
  fun _ _ => Raise {| kind := ServiceError; msg := py "service unavailable" |}.
Definition no_json : str -> option json := fun _ => None.
Definition no_str : json -> str := fun _ => [].
Definition empty_world : world := {| trace := []; heap := []; fig_cache := [] |}.

(** [grounded_claims / total_claims], 0.0 for no claim. *)
Definition ratio_of (r : report) : Q :=
  if 0 <? total_claims r
  then int_div (grounded_claims r) (total_claims r) else flt 0.

Definition counted (t : tally) : Z := t_grounded t + t_warnings t + t_errors t.

Definition nonneg (t : tally) : Prop :=
  0 <= t_grounded t /\ 0 <= t_warnings t /\ 0 <= t_errors t.

Lemma count_verdict_fold vs : forall t,
  nonneg t ->
  let t' := fold_left count_verdict vs t in
  nonneg t' /\ t_total t' = t_total t /\ counted t' <= counted t + len vs.
Proof.
  unfold len. induction vs as [|v vs IH]; intros t Ht; simpl.
  - unfold counted. repeat split; try apply Ht; lia.
  - destruct (IH (count_verdict t v)) as (H1 & H2 & H3).
    { unfold count_verdict, nonneg in *.
      destruct (is_ok v), (is_warning v), (is_error v); simpl; lia. }
    split; [exact H1|]. rewrite H2. split.
    + unfold count_verdict. by destruct (is_ok v), (is_warning v), (is_error v).
    + etransitivity; [exact H3|].
      unfold count_verdict, counted.
      destruct (is_ok v), (is_warning v), (is_error v); simpl; lia.
Qed.

Lemma count_quote_fold qs : forall t,
  nonneg t ->
  let t' := fold_left count_quote qs t in
  nonneg t' /\ t_total t' = t_total t /\ counted t' = counted t + len qs.
Proof.
  unfold len. induction qs as [|q qs IH]; intros t Ht; simpl.
  - unfold counted. repeat split; try apply Ht; lia.
  - destruct (IH (count_quote t q)) as (H1 & H2 & H3).
    { unfold count_quote, nonneg in *. destruct (q_grounded q) as [[]|]; simpl; lia. }
    split; [exact H1|]. rewrite H2, H3. split.
    + unfold count_quote. by destruct (q_grounded q) as [[]|].
    + unfold count_quote, counted. destruct (q_grounded q) as [[]|]; simpl; lia.
Qed.

Lemma count_stat_fold ss : forall t,
  nonneg t ->
  let t' := fold_left count_stat ss t in
  nonneg t' /\ t_total t' - counted t' = t_total t - counted t.
Proof.
  induction ss as [|s ss IH]; intros t Ht; simpl.
  - by split.
  - destruct (IH (count_stat t s)) as (H1 & H2).
    { unfold count_stat, nonneg in *.
      destruct (grounded (s_check s)) as [[]|]; simpl; lia. }
    split; [exact H1|]. rewrite H2.
    unfold count_stat, counted. destruct (grounded (s_check s)) as [[]|]; simpl; lia.
Qed.

(** The counters of a report: none is negative, and together they are
    at most the total. *)
Lemma aggregate_tally (vs : list verdict) (d : details) :
  let r := aggregate vs d in
  0 <= grounded_claims r /\ 0 <= warnings r /\ 0 <= errors r
  /\ grounded_claims r + warnings r + errors r <= total_claims r.
Proof.
  unfold aggregate. cbv zeta.
  set (t0 := {| t_grounded := 0; t_warnings := 0; t_errors := 0;
                t_total := len vs + len (supporting_quotes d) |}).
  assert (H0 : nonneg t0) by (unfold nonneg; simpl; lia).
  destruct (count_verdict_fold vs t0 H0) as (N1 & T1 & C1).
  destruct (count_quote_fold (supporting_quotes d) _ N1) as (N2 & T2 & C2).
  destruct (count_stat_fold (statistical_evidence d) _ N2) as (N3 & C3).
  set (t := fold_left count_stat _ _) in *. cbn [grounded_claims warnings errors total_claims].
  assert (Hsum : counted t <= t_total t).
  { rewrite T2, T1, C2 in C3. unfold counted in *. simpl in *. lia. }
  destruct N3 as (G & W & E). unfold counted in Hsum.
  split_and!; [done..|lia].
Qed.

(** What [aggregate] puts into a report: the score is the float
    quotient rounded to two decimals; the status is decided by float
    comparisons of the unrounded quotient with the literals [0.85] and
    [0.6]; and for at most [2 ** 48] claims these comparisons are the
    comparisons of the exact quotient with 85/100 and 6/10. *)
Definition report_consistent (r : report) : Prop :=
  overall_score r = round2 (ratio_of r)
  /\ (overall_status r = Grounded
      <-> (flt (85 # 100) <= ratio_of r)%Q /\ errors r = 0)
  /\ (overall_status r = PartiallyGrounded
      <-> ~ ((flt (85 # 100) <= ratio_of r)%Q /\ errors r = 0)
          /\ ((flt (6 # 10) <= ratio_of r)%Q \/ errors r <= 1))
  /\ (overall_status r = ReviewNeeded
      <-> ~ ((flt (85 # 100) <= ratio_of r)%Q /\ errors r = 0)
          /\ ~ ((flt (6 # 10) <= ratio_of r)%Q \/ errors r <= 1))
  /\ (0 < total_claims r <= Z.pos size_bound ->
      ((flt (85 # 100) <= ratio_of r)%Q
       <-> 85 * total_claims r <= 100 * grounded_claims r)
      /\ ((flt (6 # 10) <= ratio_of r)%Q
          <-> 6 * total_claims r <= 10 * grounded_claims r)).

Lemma aggregate_consistent (vs : list verdict) (d : details) :
  report_consistent (aggregate vs d).
Proof.
  pose proof (aggregate_tally vs d) as Htally. cbv zeta in Htally.
  destruct Htally as (Hg & _).
  unfold report_consistent, ratio_of.
  unfold aggregate in *. cbn [overall_score overall_status total_claims grounded_claims errors] in *.
  set (t := fold_left count_stat _ _) in *.
  set (score := if 0 <? t_total t then _ else _).
  set (hi := flt (85 # 100)). set (lo := flt (6 # 10)).
  split; [done|].
  assert (HA : Qle_bool hi score = true <-> (hi <= score)%Q)
    by apply Qle_bool_iff.
  assert (HC : Qle_bool lo score = true <-> (lo <= score)%Q)
    by apply Qle_bool_iff.
  assert (HB : (t_errors t =? 0) = true <-> t_errors t = 0) by apply Z.eqb_eq.
  assert (HD : (t_errors t <=? 1) = true <-> t_errors t <= 1) by apply Z.leb_le.
  assert (Hexact : 0 < t_total t <= Z.pos size_bound ->
            ((hi <= score)%Q <-> 85 * t_total t <= 100 * t_grounded t)
            /\ ((lo <= score)%Q <-> 6 * t_total t <= 10 * t_grounded t)).
  { intros Ht. unfold score, hi, lo.
    destruct (Z.ltb_spec 0 (t_total t)); [|lia].
    rewrite <- !Qle_bool_iff.
    rewrite grounded_threshold, partial_threshold by done. lia. }
  clearbody hi lo score.
  revert HA HC HB HD Hexact.
  generalize (hi <= score)%Q (lo <= score)%Q (t_errors t = 0) (t_errors t <= 1).
  intros A C B D.
  destruct (Qle_bool hi score), (t_errors t =? 0),
    (Qle_bool lo score), (t_errors t <=? 1); simpl; intros HA HC HB HD Hexact;
    (split_and!; try exact Hexact; split; intros; try discriminate; try done;
     intuition (try discriminate; try congruence)).
Qed.

Lemma validate_grounding_aggregates llm json_loads py_str output source_text skip w w' r :
  validate_grounding llm json_loads py_str output source_text skip w = (w', Ok r) ->
  exists vs d, r = aggregate vs d.
Proof.
  unfold validate_grounding, bind, lift, ret, raise, emit. intros H.
  repeat case_match; simplify_eq; eauto.
Qed.

(** Thirteen supporting quotes: eleven are in the source word for
    word, two are too short to be checked. *)
Definition thirteen_source : str :=
  py "The treatment arm showed a significant improvement in overall survival.".
Definition thirteen_quotes : json :=
  JDict [ (py "supporting_quotes",
           JList (replicate 11 (JStr (py "significant improvement in overall survival"))
                  ++ [JStr (py "improved"); JStr (py "survival")])) ].

Example thirteen_report :
  let r := (validate_grounding no_service no_json no_str thirteen_quotes
              thirteen_source false empty_world).2 in
  match r with
  | Ok r => (total_claims r, grounded_claims r, warnings r, errors r,
             overall_score r, overall_status r)
            = (13, 11, 2, 0, flt (85 # 100), PartiallyGrounded)
  | Raise _ => False
  end.
Proof. vm_compute. reflexivity. Qed.

(** Forty supporting quotes of which one is grounded: 1 / 40 is the
    float just above 0.025, and the reported score is 0.03. *)
Definition forty_quotes : json :=
  JDict [ (py "supporting_quotes",
           JList (JStr (py "significant improvement in overall survival")
                  :: replicate 39 (JStr (py "improved")))) ].

Example forty_report :
  let r := (validate_grounding no_service no_json no_str forty_quotes
              thirteen_source false empty_world).2 in
  match r with
  | Ok r => (total_claims r, grounded_claims r, warnings r, errors r,
             overall_score r, overall_status r)
            = (40, 1, 39, 0, flt (3 # 100), PartiallyGrounded)
  | Raise _ => False
  end.
Proof. vm_compute. reflexivity. Qed.

(** C2 as stated fails: the reported [overall_score] is rounded to
    two decimals, the status is decided before rounding. Here the
    report says 0.85 with no error, and is only partially grounded. *)
Lemma report_counterexample :
  ~ (forall llm json_loads py_str output source_text skip w w' r,
        validate_grounding llm json_loads py_str output source_text skip w = (w', Ok r) ->
        overall_score r = ratio_of r)
  /\ ~ (forall llm json_loads py_str output source_text skip w w' r,
          validate_grounding llm json_loads py_str output source_text skip w = (w', Ok r) ->
          (overall_status r = Grounded
           <-> (flt (85 # 100) <= overall_score r)%Q /\ errors r = 0)).
Proof.
  pose proof thirteen_report as E. cbv zeta in E.
  destruct (validate_grounding no_service no_json no_str thirteen_quotes
              thirteen_source false empty_world) as [w' [r|e]] eqn:Ev; [|done].
  simpl in E. injection E as Et Eg Ew Ee Es Est.
  split; intros H; specialize (H _ _ _ _ _ _ _ _ _ Ev).
  - unfold ratio_of in H. rewrite Et, Eg, Es in H. vm_compute in H. discriminate.
  - rewrite Es, Ee, Est in H. destruct H as [_ H].
    discriminate H. split; [apply Qle_refl|done].
Qed.

(** C2, as the code has it. In every report that [validate_grounding]
    returns, [overall_score] is [grounded_claims / total_claims] (0.0
    for no claim) rounded to two decimals, and the status is decided
    on the unrounded quotient: grounded exactly when it is at least
    0.85 with no error; otherwise partially grounded exactly when it is
    at least 0.60 or there is at most one error; otherwise review
    needed. The quotient and the two bounds are floats; for at most
    [2 ** 48] claims the comparisons agree with those of the exact
    numbers. *)
Theorem report_aggregation llm json_loads py_str output source_text skip w :
  match validate_grounding llm json_loads py_str output source_text skip w with
  | (_, Ok r) => report_consistent r
  | (_, Raise _) => True
  end.
Proof.
  destruct (validate_grounding _ _ _ _ _ _ _) as [w' [r|e]] eqn:E; [|done].
  apply validate_grounding_aggregates in E as (vs & d & ->).
  apply aggregate_consistent.
Qed.

End ValidatorProps.

(** ** The object store *)

Module StoreProps.
Import Store.

(** Induction on JSON values, through the lists and dicts. *)
Section JsonInd.
Variable P : json -> Prop.
Hypothesis Hnull : P JNull.
Hypothesis Hbool : forall b, P (JBool b).
Hypothesis Hint : forall z, P (JInt z).
Hypothesis Hfloat : forall q, P (JFloat q).
Hypothesis Hstr : forall s, P (JStr s).
Hypothesis Hlist : forall items, Forall P items -> P (JList items).
Hypothesis Hdict : forall kvs, Forall (fun kv => P kv.2) kvs -> P (JDict kvs).

Fixpoint json_induction (j : json) : P j :=
  match j with
  | JNull => Hnull
  | JBool b => Hbool b
  | JInt z => Hint z
  | JFloat q => Hfloat q
  | JStr s => Hstr s
  | JList items =>
      Hlist items
        ((fix go (l : list json) : Forall P l :=
            match l with
            | [] => List.Forall_nil P
            | x :: l' => List.Forall_cons P x l' (json_induction x) (go l')
            end) items)
  | JDict kvs =>
      Hdict kvs
        ((fix go (l : list (str * json)) : Forall (fun kv => P kv.2) l :=
            match l with
            | [] => List.Forall_nil _
            | kv :: l' => List.Forall_cons _ kv l' (json_induction kv.2) (go l')
            end) kvs)
  end.
End JsonInd.

(** A value that does not point below [n]; an object holding only
    such values. *)
Definition fresh_val (n : nat) (v : val) : Prop :=
  match v with VRef l => (n <= l)%nat | _ => True end.
Definition fresh_obj (n : nat) (o : obj) : Prop := Forall (fresh_val n) (vals_of o).

(** The store [h] extends [h0] without touching it, and nothing that
    was allocated since points back into [h0]. *)
Record frame_inv (h0 h : list obj) : Prop :=
  { frame_old : take (length h0) h = h0;
    frame_closed : forall l o, (length h0 <= l)%nat -> h !! l = Some o ->
                               fresh_obj (length h0) o }.

Lemma frame_inv_refl h : frame_inv h h.
Proof.
  split; [by rewrite firstn_all|].
  intros l o Hl Ho. apply lookup_lt_Some in Ho. lia.
Qed.

Lemma frame_inv_length h0 h : frame_inv h0 h -> (length h0 <= length h)%nat.
Proof.
  intros [Ht _]. rewrite <- Ht at 1. rewrite length_take. lia.
Qed.

Lemma frame_inv_prefix h0 h : frame_inv h0 h -> h0 `prefix_of` h.
Proof. intros [Ht _]. exists (drop (length h0) h). by rewrite <- Ht at 1; rewrite take_drop. Qed.

Lemma fresh_val_mono n m v : (n <= m)%nat -> fresh_val m v -> fresh_val n v.
Proof. destruct v; simpl; lia. Qed.

Lemma fresh_obj_mono n m o : (n <= m)%nat -> fresh_obj m o -> fresh_obj n o.
Proof.
  intros ? H. eapply Forall_impl; [exact H|]. intros v. by apply fresh_val_mono.
Qed.

Lemma frame_inv_write h0 h l o :
  frame_inv h0 h -> (length h0 <= l)%nat -> fresh_obj (length h0) o ->
  frame_inv h0 (<[l := o]> h).
Proof.
  intros [Ht Hc] Hl Ho. split.
  - by rewrite take_insert_ge.
  - intros l' o' Hl' Hlook.
    destruct (decide (l = l')) as [->|Hne].
    + destruct (decide (l' < length h)%nat).
      * rewrite list_lookup_insert_eq in Hlook by done. by simplify_eq.
      * rewrite list_insert_ge in Hlook by lia. eauto.
    + rewrite list_lookup_insert_ne in Hlook by done. eauto.
Qed.

Lemma frame_inv_app h0 h k :
  frame_inv h0 h -> Forall (fresh_obj (length h0)) k -> frame_inv h0 (h ++ k).
Proof.
  intros Hinv Hk. pose proof (frame_inv_length _ _ Hinv) as Hlen.
  destruct Hinv as [Ht Hc]. split.
  - rewrite take_app_le by done. done.
  - intros l o Hl Hlook. apply lookup_app_Some in Hlook as [?|[_ Hlook]]; [eauto|].
    rewrite Forall_lookup in Hk. eauto.
Qed.

(** [store_json] only appends, and what it appends points at what it
    appended. *)
Definition appends_fresh (h h' : list obj) : Prop :=
  exists k, h' = h ++ k /\ Forall (fresh_obj (length h)) k.

Lemma appends_fresh_refl h : appends_fresh h h.
Proof. exists []. by rewrite app_nil_r. Qed.

Lemma appends_fresh_trans h1 h2 h3 :
  appends_fresh h1 h2 -> appends_fresh h2 h3 -> appends_fresh h1 h3.
Proof.
  intros (k1 & -> & H1) (k2 & -> & H2). exists (k1 ++ k2).
  split; [by rewrite (assoc_L (++))|].
  apply Forall_app. split; [done|].
  eapply Forall_impl; [exact H2|]. intros o. apply fresh_obj_mono.
  rewrite length_app. lia.
Qed.

Lemma appends_fresh_length h h' : appends_fresh h h' -> (length h <= length h')%nat.
Proof. intros (k & -> & _). rewrite length_app. lia. Qed.

Lemma appends_fresh_snoc h h' o :
  appends_fresh h h' -> fresh_obj (length h) o -> appends_fresh h (h' ++ [o]).
Proof.
  intros (k & -> & Hk) Ho. exists (k ++ [o]).
  split; [by rewrite (assoc_L (++))|].
  apply Forall_app. split; [done|by constructor].
Qed.

Lemma store_json_appends (j : json) :
  forall h, appends_fresh h (store_json j h).1
            /\ fresh_val (length h) (store_json j h).2.
Proof.
  induction j as [| | | | |items IH|kvs IH] using json_induction; intros h;
    try (split; [apply appends_fresh_refl|exact I]).
  - simpl.
    set (go := fix go (l : list json) (h : list obj) {struct l} :=
           match l with
           | [] => (h, [])
           | x :: l' =>
               let '(h1, v) := store_json x h in
               let '(h2, vs) := go l' h1 in (h2, v :: vs)
           end).
    assert (Hgo : forall h, appends_fresh h (go items h).1
                            /\ Forall (fresh_val (length h)) (go items h).2).
    { clear h. induction IH as [|x l Hx _ IHl]; intros h; simpl.
      - split; [apply appends_fresh_refl|constructor].
      - destruct (Hx h) as [H1 H2]. destruct (store_json x h) as [h1 v]. simpl in *.
        destruct (IHl h1) as [H3 H4]. destruct (go l h1) as [h2 vs]. simpl in *.
        split; [by eapply appends_fresh_trans|].
        constructor; [done|].
        eapply Forall_impl; [exact H4|]. intros w. apply fresh_val_mono.
        by apply appends_fresh_length. }
    destruct (Hgo h) as [H1 H2]. destruct (go items h) as [h' vs]. simpl in *.
    split; [by apply appends_fresh_snoc|by apply appends_fresh_length].
  - simpl.
    set (go := fix go (l : list (str * json)) (h : list obj) {struct l} :=
           match l with
           | [] => (h, [])
           | (k, x) :: l' =>
               let '(h1, v) := store_json x h in
               let '(h2, vs) := go l' h1 in (h2, (k, v) :: vs)
           end).
    assert (Hgo : forall h, appends_fresh h (go kvs h).1
                            /\ Forall (fresh_val (length h)) (map snd (go kvs h).2)).
    { clear h. induction IH as [|[k x] l Hx _ IHl]; intros h; simpl.
      - split; [apply appends_fresh_refl|constructor].
      - simpl in Hx.
        destruct (Hx h) as [H1 H2]. destruct (store_json x h) as [h1 v]. simpl in *.
        destruct (IHl h1) as [H3 H4]. destruct (go l h1) as [h2 vs]. simpl in *.
        split; [by eapply appends_fresh_trans|].
        constructor; [done|].
        eapply Forall_impl; [exact H4|]. intros w. apply fresh_val_mono.
        by apply appends_fresh_length. }
    destruct (Hgo h) as [H1 H2]. destruct (go kvs h) as [h' vs]. simpl in *.
    split; [by apply appends_fresh_snoc|by apply appends_fresh_length].
Qed.

Lemma store_items_appends (kvs : list (str * json)) :
  forall h, appends_fresh h (store_items kvs h).1
            /\ Forall (fresh_val (length h)) (map snd (store_items kvs h).2).
Proof.
  induction kvs as [|[k x] l IH]; intros h; simpl.
  - split; [apply appends_fresh_refl|constructor].
  - destruct (store_json_appends x h) as [H1 H2].
    destruct (store_json x h) as [h1 v]. simpl in *.
    destruct (IH h1) as [H3 H4]. destruct (store_items l h1) as [h2 vs]. simpl in *.
    split; [by eapply appends_fresh_trans|].
    constructor; [done|].
    eapply Forall_impl; [exact H4|]. intros w. apply fresh_val_mono.
    by apply appends_fresh_length.
Qed.

Lemma frame_inv_appends h0 h h' :
  frame_inv h0 h -> appends_fresh h h' -> frame_inv h0 h'.
Proof.
  intros Hinv (k & -> & Hk). apply frame_inv_app; [done|].
  eapply Forall_impl; [exact Hk|]. intros o. apply fresh_obj_mono.
  by apply frame_inv_length.
Qed.

Lemma lookup_list_fresh h0 h v l items :
  frame_inv h0 h -> fresh_val (length h0) v ->
  lookup_list h v = Some (l, items) ->
  (length h0 <= l)%nat /\ Forall (fresh_val (length h0)) items.
Proof.
  intros [_ Hc] Hv Hl. unfold lookup_list in Hl.
  destruct v; try discriminate. destruct (h !! l0) as [[vs|kvs]|] eqn:E; try discriminate.
  simplify_eq. split; [done|]. apply (Hc _ _ Hv E).
Qed.

Lemma lookup_dict_fresh h0 h v l kvs :
  frame_inv h0 h -> fresh_val (length h0) v ->
  lookup_dict h v = Some (l, kvs) ->
  (length h0 <= l)%nat /\ Forall (fresh_val (length h0)) (map snd kvs).
Proof.
  intros [_ Hc] Hv Hl. unfold lookup_dict in Hl.
  destruct v; try discriminate. destruct (h !! l0) as [[vs|kvs']|] eqn:E; try discriminate.
  simplify_eq. split; [done|]. apply (Hc _ _ Hv E).
Qed.

Lemma assoc_fresh {n} (kvs : list (str * val)) key v :
  Forall (fresh_val n) (map snd kvs) -> assoc kvs key = Some v -> fresh_val n v.
Proof.
  unfold assoc. intros Hall Hf.
  destruct (find _ kvs) as [[k w]|] eqn:E; [|discriminate]. simpl in Hf. simplify_eq.
  apply find_some in E as [Hin _].
  rewrite Forall_forall in Hall. apply Hall.
  apply list_elem_of_In. apply (in_map snd) in Hin. exact Hin.
Qed.

Lemma assoc_set_fresh {n} (kvs : list (str * val)) key v :
  Forall (fresh_val n) (map snd kvs) -> fresh_val n v ->
  Forall (fresh_val n) (map snd (assoc_set kvs key v)).
Proof.
  intros Hall Hv. induction kvs as [|[k w] kvs IH]; simpl.
  - by constructor.
  - simpl in Hall. apply Forall_cons in Hall as [Hw Hall].
    destruct (str_eqb k key); simpl; constructor; auto.
Qed.

End StoreProps.

(** ** Self-correction *)

Module CorrectionProps.
Import Grounding Validator Store Correction StoreProps ValidatorProps.

Section Frame.
Variable h0 : list obj.
Let n0 := length h0.

Lemma fold_assoc_set_fresh (new_items old_items : list (str * val)) :
  Forall (fresh_val n0) (map snd new_items) ->
  Forall (fresh_val n0) (map snd old_items) ->
  Forall (fresh_val n0)
    (map snd (fold_left (fun acc kv => assoc_set acc kv.1 kv.2) new_items old_items)).
Proof.
  revert old_items. induction new_items as [|[k v] l IH]; intros old Hn Ho; simpl; [done|].
  simpl in Hn. apply Forall_cons in Hn as [Hv Hn].
  apply IH; [done|]. by apply assoc_set_fresh.
Qed.

Lemma write_list_frame h l items :
  frame_inv h0 h -> (n0 <= l)%nat -> Forall (fresh_val n0) items ->
  frame_inv h0 (<[l := OList items]> h).
Proof. intros. by apply frame_inv_write. Qed.

Lemma insert_fresh (items : list val) i v :
  Forall (fresh_val n0) items -> fresh_val n0 v ->
  Forall (fresh_val n0) (<[i := v]> items).
Proof.
  intros Hall Hv. apply Forall_lookup. intros j w Hj.
  destruct (decide (i = j)) as [->|Hne].
  - destruct (decide (j < length items)%nat).
    + rewrite list_lookup_insert_eq in Hj by done. by simplify_eq.
    + rewrite list_insert_ge in Hj by lia. rewrite Forall_lookup in Hall. eauto.
  - rewrite list_lookup_insert_ne in Hj by done. rewrite Forall_lookup in Hall. eauto.
Qed.

Lemma delete_fresh (items : list val) i :
  Forall (fresh_val n0) items -> Forall (fresh_val n0) (delete i items).
Proof. apply Forall_delete. Qed.

Lemma correct_key_finding_frame h root idx cv :
  frame_inv h0 h -> Forall (fresh_val n0) (map snd root) ->
  frame_inv h0 (correct_key_finding h root idx cv).1.
Proof.
  intros Hinv Hroot. unfold correct_key_finding.
  destruct (assoc root (py "key_findings")) as [fv|] eqn:Ef; [|done].
  destruct idx as [i|]; [|done].
  pose proof (assoc_fresh _ _ _ Hroot Ef) as Hfv.
  destruct (lookup_list h fv) as [[lf items]|] eqn:El; [|done].
  destruct (lookup_list_fresh _ _ _ _ _ Hinv Hfv El) as [Hlf Hitems].
  destruct (in_range i items); [|done].
  destruct (items !! Z.to_nat i) as [old_val|] eqn:Eo; [|done].
  assert (Hold : fresh_val n0 old_val).
  { rewrite Forall_lookup in Hitems. eauto. }
  assert (Hdefault : frame_inv h0
            (let '(h1, v) := store_json cv h in
             (<[lf := OList (<[Z.to_nat i := v]> items)]> h1, true)).1).
  { destruct (store_json_appends cv h) as [Ha Hv].
    destruct (store_json cv h) as [h1 v]. simpl in *.
    apply write_list_frame; [exact (frame_inv_appends _ _ _ Hinv Ha)|done|].
    apply insert_fresh; [done|].
    eapply fresh_val_mono; [|exact Hv]. by apply frame_inv_length. }
  destruct (lookup_dict h old_val) as [[lo old_items]|] eqn:Ed.
  - destruct (lookup_dict_fresh _ _ _ _ _ Hinv Hold Ed) as [Hlo Hoi].
    destruct cv as [| | | |s|l|cv_items]; try exact Hdefault.
    + simpl. apply frame_inv_write; [done|done|].
      unfold fresh_obj. simpl. by apply assoc_set_fresh.
    + clear Hdefault.
      destruct (store_items_appends cv_items h) as [Ha Hn].
      destruct (store_items cv_items h) as [h1 new_items]. simpl in Ha, Hn. simpl.
      pose proof (frame_inv_length _ _ Hinv) as Hlen.
      pose proof (appends_fresh_length _ _ Ha) as Hlen1.
      apply write_list_frame; [|done|].
      * apply frame_inv_app; [exact (frame_inv_appends _ _ _ Hinv Ha)|].
        constructor; [|done]. unfold fresh_obj. simpl.
        apply fold_assoc_set_fresh; [|done].
        eapply Forall_impl; [exact Hn|]. intros w. by apply fresh_val_mono.
      * apply insert_fresh; [done|]. simpl. unfold n0. lia.
  - destruct cv; exact Hdefault.
Qed.

Lemma correct_quote_frame h root idx cv :
  frame_inv h0 h -> Forall (fresh_val n0) (map snd root) ->
  frame_inv h0 (correct_quote h root idx cv).1.
Proof.
  intros Hinv Hroot. unfold correct_quote.
  destruct (assoc root (py "supporting_quotes")) as [qv|] eqn:Ef; [|done].
  destruct idx as [i|]; [|done]. destruct cv; try done.
  pose proof (assoc_fresh _ _ _ Hroot Ef) as Hqv.
  destruct (lookup_list h qv) as [[lq items]|] eqn:El; [|done].
  destruct (lookup_list_fresh _ _ _ _ _ Hinv Hqv El) as [Hlq Hitems].
  destruct (in_range i items); [|done]. simpl.
  apply write_list_frame; [done|done|]. by apply insert_fresh.
Qed.

(** A list field that lives in the fresh part of the store. *)
Definition fresh_field (f : list_field) : Prop :=
  match f with
  | FieldList l items => (n0 <= l)%nat /\ Forall (fresh_val n0) items
  | _ => True
  end.

Lemma get_list_fresh h d key :
  frame_inv h0 h -> Forall (fresh_val n0) (map snd d) ->
  fresh_field (get_list h d key).
Proof.
  intros Hinv Hd. unfold get_list.
  destruct (assoc d (py key)) as [v|] eqn:E; [|done].
  pose proof (assoc_fresh _ _ _ Hd E) as Hv.
  destruct (lookup_list h v) as [[l items]|] eqn:El; [|done].
  simpl. eapply lookup_list_fresh; eauto.
Qed.

Lemma safety_lists_fresh h root ae sae :
  frame_inv h0 h -> Forall (fresh_val n0) (map snd root) ->
  safety_lists h root = Ok (ae, sae) -> fresh_field ae /\ fresh_field sae.
Proof.
  intros Hinv Hroot. unfold safety_lists.
  destruct (assoc root (py "safety_profile")) as [sv|] eqn:E.
  - pose proof (assoc_fresh _ _ _ Hroot E) as Hsv.
    destruct (lookup_dict h sv) as [[ls safety]|] eqn:Ed; [|discriminate].
    destruct (lookup_dict_fresh _ _ _ _ _ Hinv Hsv Ed) as [_ Hs].
    intros [= <- <-]. split; by apply get_list_fresh.
  - intros [= <- <-]. done.
Qed.

Lemma field_items_fresh f : fresh_field f -> Forall (fresh_val n0) (field_items f).
Proof. destruct f; simpl; [tauto|constructor..]. Qed.

Lemma correct_safety_frame h root idx cv r :
  frame_inv h0 h -> Forall (fresh_val n0) (map snd root) ->
  correct_safety h root idx cv = Ok r -> frame_inv h0 r.1.
Proof.
  intros Hinv Hroot. unfold correct_safety.
  destruct (safety_lists h root) as [[ae sae]|e] eqn:Es; [|discriminate]. simpl.
  destruct (safety_lists_fresh _ _ _ _ Hinv Hroot Es) as [Hae Hsae].
  intros H.
  repeat case_match; simplify_eq; simpl; try done;
    simpl in Hae, Hsae; destruct_and?;
    (apply write_list_frame; [done|done|]; by apply insert_fresh).
Qed.

Lemma apply_correction_frame ungrounded py_str root st corr st' :
  frame_inv h0 (ls_heap st) -> Forall (fresh_val n0) (map snd root) ->
  apply_correction py_str ungrounded root st corr = Ok st' ->
  frame_inv h0 (ls_heap st').
Proof.
  intros Hinv Hroot. unfold apply_correction.
  destruct corr as [| | | | | |c]; try discriminate.
  destruct (error_position c (len ungrounded)) as [[pos|]|e]; simpl;
    [|by intros [= <-]|discriminate].
  destruct (ungrounded !! pos) as [ug|]; [|by intros [= <-]].
  destruct (_ && _).
  - destruct (ug_type ug).
    + intros [= <-]. simpl. by apply correct_key_finding_frame.
    + destruct (correct_safety _ _ _ _) as [r|e] eqn:Ec; [|discriminate].
      simpl. intros [= <-]. simpl. by eapply correct_safety_frame.
    + intros [= <-]. simpl. by apply correct_quote_frame.
    + by intros [= <-].
  - destruct (eq_str _ _); by intros [= <-].
Qed.

Lemma apply_corrections_frame ungrounded py_str root corrs st :
  frame_inv h0 (ls_heap st) -> Forall (fresh_val n0) (map snd root) ->
  frame_inv h0 (apply_corrections py_str ungrounded root st corrs).1
  /\ forall st', (apply_corrections py_str ungrounded root st corrs).2 = Ok st' ->
                 (apply_corrections py_str ungrounded root st corrs).1 = ls_heap st'.
Proof.
  intros Hinv Hroot. revert st Hinv.
  induction corrs as [|c cs IH]; intros st Hinv; simpl.
  - split; [done|]. by intros st' [= <-].
  - destruct (apply_correction py_str ungrounded root st c) as [st1|e] eqn:E.
    + apply IH. by eapply apply_correction_frame.
    + split; [done|discriminate].
Qed.

Lemma pop_guarded_fresh items idxs :
  Forall (fresh_val n0) items -> Forall (fresh_val n0) (pop_guarded items idxs).
Proof.
  unfold pop_guarded. revert items.
  induction idxs as [|i idxs IH]; intros items H; simpl; [done|].
  apply IH. destruct (in_range i items); [by apply delete_fresh|done].
Qed.

Lemma remove_from_frame h root key idxs h' :
  frame_inv h0 h -> Forall (fresh_val n0) (map snd root) ->
  remove_from h root key idxs = Ok h' -> frame_inv h0 h'.
Proof.
  intros Hinv Hroot. unfold remove_from.
  pose proof (get_list_fresh h root key Hinv Hroot) as Hf.
  destruct (get_list h root key) as [l items| |]; simpl in Hf.
  - intros [= <-]. destruct Hf. apply write_list_frame; [done..|].
    by apply pop_guarded_fresh.
  - by intros [= <-].
  - destruct (existsb _ _); [discriminate|by intros [= <-]].
Qed.

Lemma remove_safety_fresh ae sae idxs ae' sae' :
  Forall (fresh_val n0) ae -> Forall (fresh_val n0) sae ->
  remove_safety ae sae idxs = Ok (ae', sae') ->
  Forall (fresh_val n0) ae' /\ Forall (fresh_val n0) sae'.
Proof.
  revert ae sae. induction idxs as [|i idxs IH]; intros ae sae Ha Hs; simpl.
  - by intros [= <- <-].
  - destruct (i <? len ae).
    + unfold pop_at. destruct (in_range _ ae); [|discriminate]. simpl.
      apply IH; [by apply delete_fresh|done].
    + destruct (in_range _ sae); apply IH; try done. by apply delete_fresh.
Qed.

Lemma write_field_frame h f items :
  frame_inv h0 h -> fresh_field f -> Forall (fresh_val n0) items ->
  frame_inv h0 (write_field h f items).
Proof.
  intros Hinv Hf Hi. destruct f; simpl in *; [|done..].
  destruct Hf. by apply write_list_frame.
Qed.

Lemma remove_safety_claims_frame h root idxs h' :
  frame_inv h0 h -> Forall (fresh_val n0) (map snd root) ->
  remove_safety_claims h root idxs = Ok h' -> frame_inv h0 h'.
Proof.
  intros Hinv Hroot. unfold remove_safety_claims.
  destruct (safety_lists h root) as [[ae sae]|e] eqn:Es; [|discriminate]. simpl.
  destruct (safety_lists_fresh _ _ _ _ Hinv Hroot Es) as [Hae Hsae].
  assert (Hgo : forall r, rbind (remove_safety (field_items ae) (field_items sae) idxs)
                   (fun '(ae', sae') => Ok (write_field (write_field h ae ae') sae sae'))
                 = Ok r -> frame_inv h0 r).
  { intros r.
    destruct (remove_safety _ _ idxs) as [[ae' sae']|e] eqn:Er; [|discriminate].
    simpl. intros [= <-].
    destruct (remove_safety_fresh _ _ _ _ _ (field_items_fresh _ Hae)
                (field_items_fresh _ Hsae) Er) as [Ha' Hs'].
    apply write_field_frame; [|done|done]. by apply write_field_frame. }
  destruct ae, sae; try discriminate; apply Hgo.
Qed.

Lemma removal_step_frame h indices f :
  frame_inv h0 h ->
  (forall h idxs h', frame_inv h0 h -> f h idxs = Ok h' -> frame_inv h0 h') ->
  frame_inv h0 (removal_step h indices f).1.
Proof.
  intros Hh Hf. unfold removal_step.
  destruct indices; [done|].
  destruct (indices_sorted _) as [idxs|e]; [|done].
  destruct (f h idxs) as [h'|e] eqn:E; [|done]. simpl. eauto.
Qed.

Lemma apply_removals_frame h root r :
  frame_inv h0 h -> Forall (fresh_val n0) (map snd root) ->
  frame_inv h0 (apply_removals h root r).1.
Proof.
  intros Hinv Hroot. unfold apply_removals.
  pose proof (removal_step_frame h (rm_key_finding r)
                (fun h idxs => remove_from h root "key_findings" idxs) Hinv
                ltac:(intros hh ii hh' Hh Hf; simpl in Hf;
                      exact (remove_from_frame _ _ _ _ _ Hh Hroot Hf))) as H1.
  destruct (removal_step h (rm_key_finding r) _) as [h1 [[]|e]]; simpl in *; [|done].
  pose proof (removal_step_frame h1 (rm_safety_claim r)
                (fun h idxs => remove_safety_claims h root idxs) H1
                ltac:(intros hh ii hh' Hh Hf; simpl in Hf;
                      exact (remove_safety_claims_frame _ _ _ _ Hh Hroot Hf))) as H2.
  destruct (removal_step h1 (rm_safety_claim r) _) as [h2 [[]|e]]; simpl in *; [|done].
  pose proof (removal_step_frame h2 (rm_supporting_quote r)
                (fun h idxs => remove_from h root "supporting_quotes" idxs) H2
                ltac:(intros hh ii hh' Hh Hf; simpl in Hf;
                      exact (remove_from_frame _ _ _ _ _ Hh Hroot Hf))) as H3.
  destruct (removal_step h2 (rm_supporting_quote r) _) as [h3 [[]|e]]; simpl in *; [|done].
  apply removal_step_frame; [done|]. by intros ? ? ? ? [= <-].
Qed.

End Frame.

(** *** Nothing to correct *)

Lemma omap_imap_none {A B} (f : nat -> A -> option B) (l : list A) :
  (forall i x, l !! i = Some x -> f i x = None) -> omap id (imap f l) = [].
Proof.
  revert f. induction l as [|x l IH]; intros f H; simpl; [done|].
  rewrite (H 0%nat x eq_refl). simpl. apply IH.
  intros i y Hy. apply (H (S i) y Hy).
Qed.

(** No verdict with [grounded=False] or [severity="error"], in any
    category. *)
Definition no_failed_claim (r : report) : Prop :=
  let d := report_details r in
  Forall (fun v => failed v = false) (key_findings d)
  /\ Forall (fun v => failed v = false) (safety_claims d)
  /\ Forall (fun q => q_grounded q <> Some false) (supporting_quotes d)
  /\ Forall (fun s => grounded (s_check s) <> Some false) (statistical_evidence d).

Lemma collect_nothing (r : report) :
  no_failed_claim r -> _collect_ungrounded_claims r = [].
Proof.
  intros (Hk & Hs & Hq & Ht). unfold _collect_ungrounded_claims, collect_verdicts.
  rewrite !omap_imap_none; [done|..].
  - intros i x Hx. rewrite Forall_lookup in Ht. specialize (Ht i x Hx).
    simpl in Ht. by destruct (grounded (s_check x)) as [[|]|].
  - intros i x Hx. rewrite Forall_lookup in Hq. specialize (Hq i x Hx).
    simpl in Hq. by destruct (q_grounded x) as [[|]|].
  - intros i x Hx. rewrite Forall_lookup in Hs. by rewrite (Hs i x Hx).
  - intros i x Hx. rewrite Forall_lookup in Hk. by rewrite (Hk i x Hx).
Qed.

(** C7. On a report without a failed claim the correction step calls
    nobody, changes nothing and returns the very object it was given,
    with no correction applied. *)
Theorem nothing_to_correct llm json_loads py_str output source_text report w :
  no_failed_claim report ->
  correct_ungrounded_claims llm json_loads py_str output source_text report w
  = (w, Ok (output, [])).
Proof.
  intros H. unfold correct_ungrounded_claims. by rewrite (collect_nothing _ H).
Qed.

Definition ok_verdict : verdict :=
  {| v_claim := py "Overall survival improved."; v_grounded := JBool true;
     v_severity := JStr (py "ok"); v_reason := JStr (py "Stated in the results.") |}.
Definition clean_report : report :=
  aggregate [ok_verdict]
    {| key_findings := [ok_verdict]; supporting_quotes := [];
       safety_claims := []; statistical_evidence := [] |}.

Lemma nothing_to_correct_witness :
  no_failed_claim clean_report
  /\ correct_ungrounded_claims no_service no_json no_str (VRef 0) [] clean_report
       empty_world
     = (empty_world, Ok (VRef 0, [])).
Proof.
  assert (H : no_failed_claim clean_report).
  { unfold no_failed_claim. simpl. split_and!; repeat constructor. }
  split; [exact H|].
  exact (nothing_to_correct no_service no_json no_str (VRef 0) [] clean_report
           empty_world H).
Defined.

(** [errors = 0] alone does not say that nothing failed: a judge that
    answers [grounded=false] with [severity="warning"] leaves the error
    count at zero, and the finding is collected all the same. *)
Definition lenient_judge : str -> option json :=
  fun _ => Some (JDict [ (py "results",
                          JList [ JDict [ (py "grounded", JBool false);
                                          (py "severity", JStr (py "warning")) ] ]) ]).
Definition one_finding : json :=
  JDict [ (py "key_findings", JList [ JStr (py "The drug cures everything.") ]) ].

Example warning_is_collected :
  match (validate_grounding (fun _ _ => Ok []) lenient_judge no_str one_finding
           (py "A short source.") false empty_world).2 with
  | Ok r => errors r = 0 /\ length (_collect_ungrounded_claims r) = 1%nat
  | Raise _ => False
  end.
Proof. vm_compute. done. Qed.

(** *** The copy is what gets corrected *)

Definition correction_request (ungrounded : list ungrounded_claim) (output : val)
  (source_text : str) (w : world) : request :=
  CorrectReq ungrounded (read_json (heap w) output)
    (truncate_source "

[...middle omitted...]

" source_text).

Lemma apply_all_frame py_str ungrounded output corrections w :
  let r := apply_all py_str ungrounded output corrections w in
  frame_inv (heap w) (heap r.1)
  /\ trace r.1 = trace w /\ fig_cache r.1 = fig_cache w
  /\ match r.2 with
     | Ok (v, _) => fresh_val (length (heap w)) v
     | Raise _ => True
     end.
Proof.
  unfold apply_all, bind, deepcopy, lift.
  destruct (store_json_appends (read_json (heap w) output) (heap w)) as [Ha Hv].
  destruct (store_json (read_json (heap w) output) (heap w)) as [h1 corrected].
  simpl in Ha, Hv.
  assert (Hinv1 : frame_inv (heap w) h1)
    by exact (frame_inv_appends _ _ _ (frame_inv_refl _) Ha).
  destruct (iterate corrections) as [corrs|e]; simpl; [|done].
  destruct (lookup_dict h1 corrected) as [[lr root]|] eqn:Er; simpl; [|done].
  destruct (lookup_dict_fresh _ _ _ _ _ Hinv1 Hv Er) as [_ Hroot].
  set (st0 := {| ls_heap := h1; ls_applied := []; ls_removals := _ |}).
  destruct (apply_corrections_frame (heap w) ungrounded py_str root corrs st0 Hinv1 Hroot)
    as [Hf Heq].
  destruct (apply_corrections py_str ungrounded root st0 corrs) as [h2 [st|e]];
    simpl in *; [|done].
  rewrite (Heq st eq_refl) in Hf.
  pose proof (apply_removals_frame (heap w) (ls_heap st) root (ls_removals st) Hf Hroot)
    as Hr.
  destruct (apply_removals (ls_heap st) root (ls_removals st)) as [h3 [[]|e]];
    simpl in *; done.
Qed.

(** C10. [correct_ungrounded_claims] changes no object that existed
    when it was called, so not the dict it was given: the store only
    grows. What it returns is either the given object itself, with no
    correction and an unchanged store, or a fresh object. When the
    correction call raises, or its answer does not decode, the given
    object comes back with an empty corrections list and the store is
    as before. *)
Theorem correction_never_mutates llm json_loads py_str output source_text report w :
  let r := correct_ungrounded_claims llm json_loads py_str output source_text report w in
  let ungrounded := _collect_ungrounded_claims report in
  let req := correction_request ungrounded output source_text w in
  heap w `prefix_of` heap r.1
  /\ fig_cache r.1 = fig_cache w
  /\ match r.2 with
     | Ok (v, ap) =>
         (v = output /\ ap = [] /\ heap r.1 = heap w)
         \/ fresh_val (length (heap w)) v
     | Raise _ => True
     end
  /\ (forall e, ungrounded <> [] -> llm (trace w) req = Raise e ->
                r = ({| trace := trace w ++ [EvCall req]; heap := heap w;
                        fig_cache := fig_cache w |}, Ok (output, [])))
  /\ (forall raw, ungrounded <> [] -> llm (trace w) req = Ok raw ->
                  json_loads raw = None ->
                  r = ({| trace := trace w ++ [EvCall req]; heap := heap w;
                          fig_cache := fig_cache w |}, Ok (output, []))).
Proof.
  intros r ungrounded req. subst r req. unfold correct_ungrounded_claims.
  fold ungrounded. clearbody ungrounded.
  destruct ungrounded as [|ug ugs].
  { simpl. split_and!; [done|done|by left|done|done]. }
  cbv iota. set (ungrounded := ug :: ugs). clearbody ungrounded.
  unfold bind at 1, try_except, ask_corrections, bind, call, ret, raise.
  fold (correction_request ungrounded output source_text w).
  set (req := correction_request ungrounded output source_text w).
  set (w1 := {| trace := trace w ++ [EvCall req]; heap := heap w;
                fig_cache := fig_cache w |}).
  destruct (llm (trace w) req) as [raw|e] eqn:El.
  - destruct (json_loads raw) as [parsed|] eqn:Ej.
    + assert (Hno : forall raw', Ok raw = Ok raw' -> json_loads raw' = None -> False).
      { intros raw' [= <-] ?. congruence. }
      destruct parsed as [| | | | | |kvs];
        try (simpl; split_and!;
             [done|done|by left|discriminate|intros ? _ H1 H2; destruct (Hno _ H1 H2)]).
      pose proof (apply_all_frame py_str ungrounded output
                    (dict_get kvs "corrections" (JList [])) w1) as (Hf & Ht & Hc & Hv).
      simpl in Hf, Ht, Hc, Hv. simpl.
      destruct (apply_all py_str ungrounded output _ w1) as [w2 res]. simpl in *.
      split_and!;
        [by apply frame_inv_prefix|done| |discriminate
        |intros ? _ H1 H2; destruct (Hno _ H1 H2)].
      destruct res as [[v ap]|]; [by right|done].
    + simpl. split_and!; [done|done|by left|discriminate|].
      intros raw' _ [= <-] _. done.
  - simpl. split_and!; [done|done|by left| |discriminate].
    intros e' _ _. done.
Qed.

(** One run, spelled out: a finding is rewritten, an adverse event is
    removed and a quote is replaced in the copy; the original reads as
    before. *)
Definition draft : json :=
  JDict [ (py "key_findings",
           JList [ JDict [ (py "finding", JStr (py "Drug X cures all patients."));
                           (py "statistical_evidence", JStr (py "HR=0.10")) ];
                   JDict [ (py "finding", JStr (py "Drug X was well tolerated.")) ] ]);
          (py "supporting_quotes",
           JList [ JStr (py "a fabricated quotation"); JStr (py "a real one") ]);
          (py "safety_profile",
           JDict [ (py "adverse_events", JList [ JStr (py "nausea"); JStr (py "invented") ]);
                   (py "serious_adverse_events", JList [ JStr (py "sepsis") ]) ]) ].

Definition failing (claim : string) : verdict :=
  {| v_claim := py claim; v_grounded := JBool false;
     v_severity := JStr (py "error"); v_reason := JStr (py "Not in the text.") |}.

Definition draft_report : report :=
  let d := {| key_findings := [failing "Drug X cures all patients."; ok_verdict];
              supporting_quotes :=
                [ {| q_quote := JStr (py "a fabricated quotation");
                     q_grounded := Some false; q_score := flt (20 # 100);
                     q_detail := None |} ];
              safety_claims := [ok_verdict; failing "Adverse event: invented"];
              statistical_evidence := [] |} in
  aggregate (key_findings d ++ safety_claims d) d.

Definition editor_answer : json :=
  JDict [ (py "corrections",
           JList [ JDict [ (py "error_index", JInt 1); (py "action", JStr (py "correct"));
                           (py "corrected_value",
                            JDict [ (py "finding", JStr (py "Drug X improved survival.")) ]) ];
                   JDict [ (py "error_index", JInt 2); (py "action", JStr (py "remove")) ];
                   JDict [ (py "error_index", JInt 3); (py "action", JStr (py "correct"));
                           (py "corrected_value", JStr (py "the verbatim sentence")) ] ]) ].

Definition draft_world : world :=
  {| trace := []; heap := (store_json draft []).1; fig_cache := [] |}.
Definition draft_root : val := (store_json draft []).2.

Definition corrected_draft : json :=
  JDict [ (py "key_findings",
           JList [ JDict [ (py "finding", JStr (py "Drug X improved survival."));
                           (py "statistical_evidence", JStr (py "HR=0.10")) ];
                   JDict [ (py "finding", JStr (py "Drug X was well tolerated.")) ] ]);
          (py "supporting_quotes",
           JList [ JStr (py "the verbatim sentence"); JStr (py "a real one") ]);
          (py "safety_profile",
           JDict [ (py "adverse_events", JList [ JStr (py "nausea") ]);
                   (py "serious_adverse_events", JList [ JStr (py "sepsis") ]) ]) ].

Example draft_is_stored : read_json (heap draft_world) draft_root = draft.
Proof. vm_compute. reflexivity. Qed.

Example draft_corrected :
  match correct_ungrounded_claims (fun _ _ => Ok []) (fun _ => Some editor_answer)
          no_str draft_root (py "The source.") draft_report draft_world with
  | (w', Ok (v, ap)) =>
      read_json (heap w') v = corrected_draft
      /\ read_json (heap w') draft_root = draft
      /\ map ap_action ap = [py "corrected"; py "removed"; py "corrected"]
  | (_, Raise _) => False
  end.
Proof. vm_compute. done. Qed.

End CorrectionProps.

(** ** The orchestrator and the calls it makes *)

Module OrchestratorProps.
Import Figures Chunker Grounding Validator Store Correction Orchestrator.
Import ValidatorProps CorrectionProps.

Definition called (w : world) (req : request) : world :=
  {| trace := trace w ++ [EvCall req]; heap := heap w; fig_cache := fig_cache w |}.

Definition outage : exn := {| kind := ServiceError; msg := py "service unavailable" |}.

Definition logo : figure_image :=
  {| img_index := 0; img_page := 1; img_caption := []; img_base64 := py "iVBORw0KGgo=" |}.

Example vision_failure_is_replaced :
  _describe_single_figure no_service logo empty_world
  = (called empty_world (VisionReq [] (py "iVBORw0KGgo=")),
     Ok (Some {| fd_index := Some 0; fd_page := 1; fd_caption := [];
                 fd_description := py "[Figure analysis failed: service unavailable]" |})).
Proof. vm_compute. reflexivity. Qed.

(** C6 as stated fails: a vision call that raises is caught inside
    [_describe_single_figure], which goes on with a description of its
    own making. *)
Lemma vision_failure_counterexample :
  ~ (forall llm fig w e,
        truthy (img_base64 fig) = true ->
        llm (trace w) (VisionReq (img_caption fig) (img_base64 fig)) = Raise e ->
        (_describe_single_figure llm fig w).2 = Raise e).
Proof.
  intros H.
  specialize (H no_service logo empty_world outage eq_refl eq_refl).
  rewrite vision_failure_is_replaced in H. discriminate.
Qed.

(** Every call on the trace [t] was answered: none raised. *)
Definition answered (llm : list event -> request -> result str) (t : list event) : Prop :=
  forall pre req post, t = pre ++ EvCall req :: post -> exists raw, llm pre req = Ok raw.

Lemma answered_snoc llm t req raw :
  answered llm t -> llm t req = Ok raw -> answered llm (t ++ [EvCall req]).
Proof.
  intros Ht Hr pre req' post E.
  destruct post as [|ev post] using rev_ind.
  - apply app_inj_tail in E as [<- [= <-]]. eauto.
  - clear IHpost. rewrite app_comm_cons, (assoc_L (++)) in E.
    apply app_inj_tail in E as [-> _]. by eapply Ht.
Qed.

Section WithService.
Variable llm : list event -> request -> result str.
Variable json_loads : str -> option json.
Variable MAX_CHUNK_CHARS : Z.

Lemma process_single_chunk_run pt sj text ctx w :
  _process_single_chunk llm json_loads pt sj text ctx w
  = (called w (ChunkReq pt sj text ctx),
     match llm (trace w) (ChunkReq pt sj text ctx) with
     | Ok raw => Ok {| parsed := JsonSafe.safe_parse_json json_loads raw; raw := raw |}
     | Raise e => Raise e
     end).
Proof.
  unfold _process_single_chunk, bind, call, ret, called.
  by destruct (llm _ _).
Qed.

Lemma synthesize_outputs_run sj outs w :
  _synthesize_outputs llm json_loads sj outs w
  = (called w (SynthReq sj outs),
     match llm (trace w) (SynthReq sj outs) with
     | Ok raw => Ok {| parsed := JsonSafe.safe_parse_json json_loads raw; raw := raw |}
     | Raise e => Raise e
     end).
Proof.
  unfold _synthesize_outputs, bind, call, ret, called.
  by destruct (llm _ _).
Qed.

Lemma describe_single_figure_failure fig w e :
  truthy (img_base64 fig) = true ->
  llm (trace w) (VisionReq (img_caption fig) (img_base64 fig)) = Raise e ->
  _describe_single_figure llm fig w
  = (called w (VisionReq (img_caption fig) (img_base64 fig)),
     Ok (Some {| fd_index := Some (img_index fig); fd_page := img_page fig;
                 fd_caption := img_caption fig;
                 fd_description := py "[Figure analysis failed: " ++ msg e ++ py "]" |})).
Proof.
  intros Hb He. unfold _describe_single_figure. rewrite Hb. simpl.
  unfold try_except, bind, call, ret. by rewrite He.
Qed.

Lemma run_all_answered {A B} (f : A -> M B) (l : list A) :
  (forall x w, answered llm (trace w) ->
               match (f x w).2 with
               | Ok _ => answered llm (trace (f x w).1)
               | Raise _ => True
               end) ->
  forall w bs, answered llm (trace w) ->
               gather (run_all f l w).2 = Ok bs ->
               answered llm (trace (run_all f l w).1).
Proof.
  intros Hf. induction l as [|x l IH]; intros w bs Hw Hg; simpl in *; [done|].
  specialize (Hf x w Hw).
  destruct (f x w) as [w1 r]. simpl in *.
  specialize (IH w1).
  destruct (run_all f l w1) as [w2 rs]. simpl in *.
  destruct r as [b|e]; [|discriminate].
  destruct (gather rs) as [bs'|e] eqn:Eg; [|discriminate].
  eapply IH; eauto.
Qed.

(** A run of the orchestrator that returns has had every one of its
    calls answered: a chunk or synthesis call that raises makes
    [_generate_with_chunking] raise. *)
Lemma generate_with_chunking_answered pt sj text sections fds w :
  answered llm (trace w) ->
  match (_generate_with_chunking llm json_loads MAX_CHUNK_CHARS pt sj text sections fds w).2 with
  | Ok _ => answered llm
              (trace (_generate_with_chunking llm json_loads MAX_CHUNK_CHARS
                        pt sj text sections fds w).1)
  | Raise _ => True
  end.
Proof.
  intros Hw. unfold _generate_with_chunking.
  set (enriched := enrich text _).
  unfold bind at 1, lift.
  destruct (split_into_sections MAX_CHUNK_CHARS enriched sections) as [chunks|e]; [|done].
  assert (Hone : forall t c w,
             answered llm (trace w) ->
             match (_process_single_chunk llm json_loads pt sj t c w).2 with
             | Ok _ => answered llm
                         (trace (_process_single_chunk llm json_loads pt sj t c w).1)
             | Raise _ => True
             end).
  { intros t c w0 Hw0. rewrite process_single_chunk_run. simpl.
    destruct (llm (trace w0) _) eqn:E; [|done]. by eapply answered_snoc. }
  assert (Hmany :
            match (bind (parallel
                           (fun '(i, c) =>
                              _process_single_chunk llm json_loads pt sj (content c)
                                (chunk_context (length chunks) i c))
                           (imap pair chunks))
                     (fun results =>
                        _synthesize_outputs llm json_loads sj
                          (sorted_by
                             (fun a b => (heading_position chunks a.1
                                          <=? heading_position chunks b.1)%nat)
                             (omap (fun '(c, r) =>
                                      if json_truthy (parsed r)
                                      then Some (heading c, parsed r) else None)
                                   (zip chunks results)))) w).2 with
            | Ok _ => answered llm (trace (bind (parallel
                           (fun '(i, c) =>
                              _process_single_chunk llm json_loads pt sj (content c)
                                (chunk_context (length chunks) i c))
                           (imap pair chunks))
                     (fun results =>
                        _synthesize_outputs llm json_loads sj
                          (sorted_by
                             (fun a b => (heading_position chunks a.1
                                          <=? heading_position chunks b.1)%nat)
                             (omap (fun '(c, r) =>
                                      if json_truthy (parsed r)
                                      then Some (heading c, parsed r) else None)
                                   (zip chunks results)))) w).1)
            | Raise _ => True
            end).
  { unfold bind, parallel.
    pose proof (run_all_answered
                  (fun '(i, c) =>
                     _process_single_chunk llm json_loads pt sj (content c)
                       (chunk_context (length chunks) i c))
                  (imap pair chunks)
                  ltac:(intros [i c] w0 Hw0; apply Hone, Hw0) w) as Hall.
    destruct (run_all _ (imap pair chunks) w) as [w1 rs]. simpl in *.
    destruct (gather rs) as [results|e] eqn:Eg; [|done].
    specialize (Hall results Hw eq_refl).
    rewrite synthesize_outputs_run. simpl.
    destruct (llm (trace w1) _) eqn:E; [|done]. by eapply answered_snoc. }
  destruct chunks as [|c [|c' chunks']]; [exact Hmany| |exact Hmany].
  apply Hone, Hw.
Qed.

(** A text without any character, no figure: the chunker returns no
    chunk and the orchestrator goes on to the synthesis call, over an
    empty list of partial results, and returns what it answers. *)
Lemma empty_text_reaches_synthesis pt sj sections w :
  MAX_CHUNK_CHARS <> 0 ->
  split_into_sections MAX_CHUNK_CHARS [] sections = Ok []
  /\ _generate_with_chunking llm json_loads MAX_CHUNK_CHARS pt sj [] sections [] w
     = (called w (SynthReq sj []),
        match llm (trace w) (SynthReq sj []) with
        | Ok raw => Ok {| parsed := JsonSafe.safe_parse_json json_loads raw; raw := raw |}
        | Raise e => Raise e
        end).
Proof.
  intros HM. pose proof (ChunkerProps.split_empty_text MAX_CHUNK_CHARS sections HM) as Hs.
  split; [done|].
  unfold _generate_with_chunking. simpl. unfold bind at 1, lift.
  rewrite Hs. unfold bind, parallel. simpl.
  apply synthesize_outputs_run.
Qed.

End WithService.

(** C6, as the code has it. A chunk-extraction or synthesis call that
    raises is made once and its exception is the result: it propagates
    out of [_generate_with_chunking], which returns only when every
    call it made was answered. A vision call that raises is caught:
    the figure gets the description "[Figure analysis failed: ...]".
    A correction call that raises is caught: the given output comes
    back with no correction. *)
Theorem upstream_failures (llm : list event -> request -> result str)
  (json_loads : str -> option json) (py_str : json -> str) (MAX_CHUNK_CHARS : Z) :
  (forall pt sj text ctx w e,
      llm (trace w) (ChunkReq pt sj text ctx) = Raise e ->
      _process_single_chunk llm json_loads pt sj text ctx w
      = (called w (ChunkReq pt sj text ctx), Raise e))
  /\ (forall sj outs w e,
         llm (trace w) (SynthReq sj outs) = Raise e ->
         _synthesize_outputs llm json_loads sj outs w
         = (called w (SynthReq sj outs), Raise e))
  /\ (forall pt sj text sections fds w res,
         answered llm (trace w) ->
         (_generate_with_chunking llm json_loads MAX_CHUNK_CHARS
            pt sj text sections fds w).2 = Ok res ->
         answered llm (trace (_generate_with_chunking llm json_loads MAX_CHUNK_CHARS
                                pt sj text sections fds w).1))
  /\ (forall fig w e,
         truthy (img_base64 fig) = true ->
         llm (trace w) (VisionReq (img_caption fig) (img_base64 fig)) = Raise e ->
         _describe_single_figure llm fig w
         = (called w (VisionReq (img_caption fig) (img_base64 fig)),
            Ok (Some {| fd_index := Some (img_index fig); fd_page := img_page fig;
                        fd_caption := img_caption fig;
                        fd_description :=
                          py "[Figure analysis failed: " ++ msg e ++ py "]" |})))
  /\ (forall output source_text report w e,
         _collect_ungrounded_claims report <> [] ->
         llm (trace w)
           (correction_request (_collect_ungrounded_claims report) output source_text w)
         = Raise e ->
         correct_ungrounded_claims llm json_loads py_str output source_text report w
         = (called w (correction_request (_collect_ungrounded_claims report)
                        output source_text w),
            Ok (output, []))).
Proof.
  split_and!.
  - intros. rewrite process_single_chunk_run. by rewrite H.
  - intros. rewrite synthesize_outputs_run. by rewrite H.
  - intros pt sj text sections fds w res Hw Hr.
    pose proof (generate_with_chunking_answered llm json_loads MAX_CHUNK_CHARS
                  pt sj text sections fds w Hw) as H.
    by rewrite Hr in H.
  - intros. by apply describe_single_figure_failure.
  - intros output source_text report w e Hne He.
    unfold correct_ungrounded_claims.
    destruct (_collect_ungrounded_claims report) as [|ug ugs] eqn:Eu; [done|].
    rewrite <- Eu in *.
    unfold bind, try_except, ask_corrections, bind, call, ret.
    unfold correction_request in He. by rewrite He.
Qed.

Lemma upstream_failures_witness :
  _process_single_chunk no_service no_json [] [] (py "text") [] empty_world
  = (called empty_world (ChunkReq [] [] (py "text") []), Raise outage).
Proof.
  apply (upstream_failures no_service no_json no_str 30000). reflexivity.
Defined.

(** C8 at work: for an empty text the orchestrator does not stop; it
    asks for a synthesis of nothing. *)
Theorem empty_document_is_synthesised (llm : list event -> request -> result str)
  (json_loads : str -> option json) pt sj sections w :
  split_into_sections 30000 [] sections = Ok []
  /\ _generate_with_chunking llm json_loads 30000 pt sj [] sections [] w
     = (called w (SynthReq sj []),
        match llm (trace w) (SynthReq sj []) with
        | Ok raw => Ok {| parsed := JsonSafe.safe_parse_json json_loads raw; raw := raw |}
        | Raise e => Raise e
        end).
Proof. by apply empty_text_reaches_synthesis. Qed.

(** The same for a text of blanks with two sections. *)
Example blank_text_is_synthesised :
  _generate_with_chunking (fun _ _ => Ok (py "{}")) (fun _ => Some (JDict []))
    30000 (py "{text}") (py "{}") (py "   ")
    [ {| sec_heading := py "A"; sec_offset := Some 0 |};
      {| sec_heading := py "B"; sec_offset := Some 2 |} ] [] empty_world
  = (called empty_world (SynthReq (py "{}") []),
     Ok {| parsed := JDict []; raw := py "{}" |}).
Proof. vm_compute. reflexivity. Qed.

End OrchestratorProps.

(** ** The self-correction loop *)

Module WorkflowProps.
Import Figures Chunker Grounding Validator Store Correction Orchestrator Workflow.
Import CorrectionProps ValidatorProps.
Local Open Scope monad_scope.

(** Counting the events of one sort on a trace. *)
Definition total (cost : event -> nat) (t : list event) : nat :=
  sum_list (map cost t).

Definition is_round (e : event) : nat :=
  match e with EvCorrectionRound _ => 1%nat | _ => 0%nat end.
Definition is_correction_call (e : event) : nat :=
  match e with EvCall (CorrectReq _ _ _) => 1%nat | _ => 0%nat end.
Definition is_fast_validation (e : event) : nat :=
  match e with EvValidate true => 1%nat | _ => 0%nat end.

Lemma total_app cost t1 t2 : total cost (t1 ++ t2) = (total cost t1 + total cost t2)%nat.
Proof.
  unfold total. induction t1 as [|e t1 IH]; simpl; [done|]. rewrite IH. lia.
Qed.

Section Cost.
Variable cost : event -> nat.

(** Whatever the world, [m] appends to the trace events of a total
    cost of at most [n]. *)
Definition emits_le (n : nat) {A} (m : M A) : Prop :=
  forall w, exists new, trace (m w).1 = trace w ++ new /\ (total cost new <= n)%nat.

Lemma emits_weaken {A} (m : M A) n k : (n <= k)%nat -> emits_le n m -> emits_le k m.
Proof. intros Hnk H w. destruct (H w) as (new & ? & ?). exists new. split; [done|lia]. Qed.

Lemma emits_silent {A} (m : M A) :
  (forall w, trace (m w).1 = trace w) -> emits_le 0 m.
Proof. intros H w. exists []. rewrite H, app_nil_r. done. Qed.

Lemma emits_ret {A} (a : A) : emits_le 0 (ret a).
Proof. by apply emits_silent. Qed.

Lemma emits_raise {A} (e : exn) : emits_le 0 (@raise A e).
Proof. by apply emits_silent. Qed.

Lemma emits_lift {A} (r : result A) : emits_le 0 (lift r).
Proof. by apply emits_silent. Qed.

Lemma emits_emit (e : event) : emits_le (cost e) (emit e).
Proof. intros w. exists [e]. split; [done|]. unfold total. simpl. lia. Qed.

Lemma emits_call llm req : emits_le (cost (EvCall req)) (call llm req).
Proof. intros w. exists [EvCall req]. split; [done|]. unfold total. simpl. lia. Qed.

Lemma emits_bind {A B} (m : M A) (f : A -> M B) n k :
  emits_le n m -> (forall a, emits_le k (f a)) -> emits_le (n + k) (bind m f).
Proof.
  intros Hm Hf w. unfold bind.
  destruct (Hm w) as (new1 & E1 & H1).
  destruct (m w) as [w1 [a|e]]; simpl in *.
  - destruct (Hf a w1) as (new2 & E2 & H2).
    exists (new1 ++ new2). rewrite E2, E1, (assoc_L (++)), total_app. split; [done|lia].
  - exists new1. split; [done|lia].
Qed.

Lemma emits_try_except {A} (m : M A) (handler : exn -> M A) n k :
  emits_le n m -> (forall e, emits_le k (handler e)) ->
  emits_le (n + k) (try_except m handler).
Proof.
  intros Hm Hf w. unfold try_except.
  destruct (Hm w) as (new1 & E1 & H1).
  destruct (m w) as [w1 [a|e]]; simpl in *.
  - exists new1. split; [done|lia].
  - destruct (Hf e w1) as (new2 & E2 & H2).
    exists (new1 ++ new2). rewrite E2, E1, (assoc_L (++)), total_app. split; [done|lia].
Qed.

Lemma emits_run_all {A B} (f : A -> M B) (l : list A) :
  (forall x, emits_le 0 (f x)) ->
  forall w, exists new, trace (run_all f l w).1 = trace w ++ new
                        /\ (total cost new <= 0)%nat.
Proof.
  intros Hf. induction l as [|x l IH]; intros w; simpl.
  - exists []. by rewrite app_nil_r.
  - destruct (Hf x w) as (new1 & E1 & H1).
    destruct (f x w) as [w1 r]. simpl in *.
    destruct (IH w1) as (new2 & E2 & H2).
    destruct (run_all f l w1) as [w2 rs]. simpl in *.
    exists (new1 ++ new2). rewrite E2, E1, (assoc_L (++)), total_app. split; [done|lia].
Qed.

Lemma emits_parallel {A B} (f : A -> M B) (l : list A) :
  (forall x, emits_le 0 (f x)) -> emits_le 0 (parallel f l).
Proof.
  intros Hf w. unfold parallel.
  destruct (emits_run_all f l Hf w) as (new & E & H).
  destruct (run_all f l w) as [w' rs]. simpl in *. eauto.
Qed.

End Cost.

Section Run.
Variable llm : list event -> request -> result str.
Variable json_loads : str -> option json.
Variable py_str : json -> str.
Variable MAX_CHUNK_CHARS : Z.

(** [cost] charges nothing for the vision, chunk, synthesis and judge
    calls nor for the first validation pass; a correction round, a
    correction call and a fast validation pass cost at most [r], [c]
    and [v]. *)
Variable cost : event -> nat.
Variables r c v : nat.
Hypothesis Hvision : forall a b, cost (EvCall (VisionReq a b)) = 0%nat.
Hypothesis Hchunk : forall a b d e, cost (EvCall (ChunkReq a b d e)) = 0%nat.
Hypothesis Hsynth : forall a b, cost (EvCall (SynthReq a b)) = 0%nat.
Hypothesis Hjudge : forall a b, cost (EvCall (JudgeReq a b)) = 0%nat.
Hypothesis Hfull : cost (EvValidate false) = 0%nat.
Hypothesis Hround : forall n, (cost (EvCorrectionRound n) <= r)%nat.
Hypothesis Hcorrect : forall a b d, (cost (EvCall (CorrectReq a b d)) <= c)%nat.
Hypothesis Hfast : (cost (EvValidate true) <= v)%nat.

Lemma emits_call_free req :
  match req with CorrectReq _ _ _ => False | _ => True end ->
  emits_le cost 0 (call llm req).
Proof.
  intros Hreq. eapply emits_weaken; [|apply emits_call].
  destruct req; simpl in *; rewrite ?Hvision, ?Hchunk, ?Hsynth, ?Hjudge; done.
Qed.

Lemma emits_describe_single_figure fig :
  emits_le cost 0 (_describe_single_figure llm fig).
Proof.
  unfold _describe_single_figure.
  destruct (negb _); [apply emits_ret|].
  apply (emits_try_except cost _ _ 0 0); [|intros; apply emits_ret].
  apply (emits_bind cost _ _ 0 0); [by apply emits_call_free|].
  intros d. destruct (contains _ _); apply emits_ret.
Qed.

Lemma emits_figure_step figure_images doc_id :
  emits_le cost 0 (figure_step llm figure_images doc_id).
Proof.
  unfold figure_step. destruct figure_images as [|fig figs]; [apply emits_ret|].
  apply (emits_bind cost _ _ 0 0).
  { destruct doc_id as [d|]; [destruct (truthy d)|]; try apply emits_ret.
    by apply emits_silent. }
  intros cached. destruct (default [] cached); [|apply emits_ret].
  apply (emits_bind cost _ _ 0 0).
  - unfold describe_figures, _describe_figures_parallel.
    apply (emits_bind cost _ _ 0 0); [|intros; apply emits_ret].
    apply emits_parallel, emits_describe_single_figure.
  - intros described. apply (emits_bind cost _ _ 0 0); [|intros; apply emits_ret].
    destruct doc_id as [d|]; [destruct (truthy d)|]; try apply emits_ret.
    by apply emits_silent.
Qed.

Lemma emits_process_single_chunk pt sj t ctx :
  emits_le cost 0 (_process_single_chunk llm json_loads pt sj t ctx).
Proof.
  apply (emits_bind cost _ _ 0 0); [by apply emits_call_free|].
  intros; apply emits_ret.
Qed.

Lemma emits_generate pt sj text sections fds :
  emits_le cost 0
    (_generate_with_chunking llm json_loads MAX_CHUNK_CHARS pt sj text sections fds).
Proof.
  unfold _generate_with_chunking.
  apply (emits_bind cost _ _ 0 0); [apply emits_lift|].
  intros chunks.
  assert (Hmany :
    emits_le cost 0
      (let* results :=
         parallel (fun '(i, c) =>
                     _process_single_chunk llm json_loads pt sj (content c)
                       (chunk_context (length chunks) i c))
                  (imap pair chunks) in
       _synthesize_outputs llm json_loads sj
         (sorted_by
            (fun a b => (heading_position chunks a.1 <=? heading_position chunks b.1)%nat)
            (omap (fun '(c, r) =>
                     if json_truthy (parsed r) then Some (heading c, parsed r) else None)
                  (zip chunks results))))).
  { apply (emits_bind cost _ _ 0 0).
    - apply emits_parallel. intros [i ch]. apply emits_process_single_chunk.
    - intros results. apply (emits_bind cost _ _ 0 0); [by apply emits_call_free|].
      intros; apply emits_ret. }
  destruct chunks as [|ch [|ch' chunks']];
    [exact Hmany|apply emits_process_single_chunk|exact Hmany].
Qed.

Lemma emits_verify_claims claims source_text :
  emits_le cost 0 (_verify_claims_with_llm llm json_loads claims source_text).
Proof.
  unfold _verify_claims_with_llm.
  destruct claims; [apply emits_ret|].
  apply (emits_try_except cost _ _ 0 0); [|intros; apply emits_ret].
  apply (emits_bind cost _ _ 0 0); [by apply emits_call_free|].
  intros raw. destruct (json_loads raw); [apply emits_ret|apply emits_raise].
Qed.

(** A validation pass logs its mode and calls, at most, the judge. *)
Lemma emits_validate output source_text skip :
  emits_le cost (cost (EvValidate skip))
    (validate_grounding llm json_loads py_str output source_text skip).
Proof.
  unfold validate_grounding.
  replace (cost (EvValidate skip)) with (cost (EvValidate skip) + 0)%nat by lia.
  apply emits_bind; [apply emits_emit|]. intros _.
  destruct output; try apply emits_raise.
  apply (emits_bind cost _ _ 0 0); [apply emits_lift|]. intros [stat_results claims].
  apply (emits_bind cost _ _ 0 0); [apply emits_lift|]. intros quote_results.
  apply (emits_bind cost _ _ 0 0).
  { destruct skip; [apply emits_ret|apply emits_verify_claims]. }
  intros vds.
  apply (emits_bind cost _ _ 0 0); [apply emits_lift|]. intros its.
  apply (emits_bind cost _ _ 0 0); [apply emits_lift|]. intros ents.
  apply emits_ret.
Qed.

Lemma emits_ask_corrections ungrounded output source_text :
  emits_le cost c (ask_corrections llm json_loads ungrounded output source_text).
Proof.
  intros w. unfold ask_corrections.
  set (req := CorrectReq _ _ _).
  assert (H : emits_le cost c
                (let* raw := call llm req in
                 match json_loads raw with
                 | Some (JDict parsed) => ret (dict_get parsed "corrections" (JList []))
                 | Some _ => raise (attribute_error "object has no attribute 'get'")
                 | None => raise {| kind := ValueError; msg := py "JSONDecodeError" |}
                 end)).
  { replace c with (c + 0)%nat by lia. apply emits_bind.
    - eapply emits_weaken; [|apply emits_call]. apply Hcorrect.
    - intros raw. destruct (json_loads raw) as [[]|]; first [apply emits_ret|apply emits_raise]. }
  apply H.
Qed.

Lemma emits_apply_all ungrounded output corrections :
  emits_le cost 0 (apply_all py_str ungrounded output corrections).
Proof.
  apply emits_silent. intros w.
  apply (CorrectionProps.apply_all_frame py_str ungrounded output corrections w).
Qed.

(** A correction step makes at most its one call. *)
Lemma emits_correct output source_text report :
  emits_le cost c
    (correct_ungrounded_claims llm json_loads py_str output source_text report).
Proof.
  unfold correct_ungrounded_claims.
  destruct (_collect_ungrounded_claims report) as [|ug ugs].
  { eapply emits_weaken; [|apply emits_ret]. lia. }
  replace c with (c + 0 + 0)%nat by lia. apply emits_bind.
  - apply emits_try_except; [|intros; apply emits_ret].
    replace c with (c + 0)%nat by lia.
    apply emits_bind; [apply emits_ask_corrections|intros; apply emits_ret].
  - intros [corrections|]; [apply emits_apply_all|apply emits_ret].
Qed.

Lemma emits_current x : emits_le cost 0 (current x).
Proof. by apply emits_silent. Qed.

Lemma emits_new_object j : emits_le cost 0 (new_object j).
Proof.
  apply emits_silent. intros w. unfold new_object.
  by destruct (store_json j (heap w)).
Qed.

(** The rounds the loop can still make, from its counter. *)
Definition rounds_left (max_rounds : Z) (st : loop) : nat :=
  Z.to_nat (max_rounds - l_round st).

Lemma emits_correction_loop max_rounds fuel input_text st :
  emits_le cost (rounds_left max_rounds st * (r + c + v))
    (correction_loop llm json_loads py_str max_rounds fuel input_text st).
Proof.
  revert st. induction fuel as [|fuel IH]; intros st; simpl.
  { eapply emits_weaken; [|apply emits_ret]. lia. }
  destruct (0 <? errors (l_grounding st)); simpl;
    [|eapply emits_weaken; [|apply emits_ret]; lia].
  destruct (Z.ltb_spec (l_round st) max_rounds) as [Hlt|Hge];
    [|eapply emits_weaken; [|apply emits_ret]; lia].
  set (st' := fun p g a => {| l_parsed := p; l_grounding := g; l_corrections := a;
                               l_round := l_round st + 1 |}).
  assert (Hleft : forall p g a,
             rounds_left max_rounds st = S (rounds_left max_rounds (st' p g a))).
  { intros. unfold rounds_left, st'. simpl. lia. }
  rewrite (Hleft (l_parsed st) (l_grounding st) []).
  set (k := rounds_left max_rounds _).
  replace (S k * (r + c + v))%nat with (r + (c + (0 + (v + k * (r + c + v)))))%nat by lia.
  apply emits_bind; [eapply emits_weaken; [|apply emits_emit]; apply Hround|].
  intros _. apply emits_bind; [apply emits_correct|].
  intros [corrected_output [|a applied]].
  { eapply emits_weaken; [|apply emits_ret]. lia. }
  apply emits_bind; [apply emits_current|]. intros out.
  apply emits_bind; [eapply emits_weaken; [|apply emits_validate]; apply Hfast|].
  intros g. apply (IH (st' corrected_output g (l_corrections st ++ a :: applied))).
Qed.

Lemma emits_grounding_step max_rounds parsed input_text :
  emits_le cost (Z.to_nat max_rounds * (r + c + v))
    (grounding_step llm json_loads py_str max_rounds parsed input_text).
Proof.
  unfold grounding_step.
  replace (Z.to_nat max_rounds * (r + c + v))%nat
    with (0 + (0 + (Z.to_nat max_rounds * (r + c + v) + 0)))%nat by lia.
  apply emits_bind; [apply emits_current|].
  intros [| | | | | |[|kv kvs]]; try (eapply emits_weaken; [|apply emits_ret]; lia).
  apply emits_bind.
  { eapply emits_weaken; [|apply emits_validate]. rewrite Hfull. lia. }
  intros g. apply emits_bind; [|intros; apply emits_ret].
  eapply emits_weaken; [|apply emits_correction_loop].
  unfold rounds_left. simpl. rewrite Z.sub_0_r. lia.
Qed.

Lemma emits_run_workflow_with max_rounds pt schema input_text sections figure_images doc_id :
  emits_le cost (Z.to_nat max_rounds * (r + c + v))
    (run_workflow_with llm json_loads py_str MAX_CHUNK_CHARS max_rounds
       pt schema input_text sections figure_images doc_id).
Proof.
  unfold run_workflow_with.
  replace (Z.to_nat max_rounds * (r + c + v))%nat
    with (0 + (0 + (0 + (Z.to_nat max_rounds * (r + c + v) + 0))))%nat by lia.
  apply emits_bind; [apply emits_figure_step|]. intros fds.
  apply emits_bind; [apply emits_generate|]. intros result.
  apply emits_bind; [apply emits_new_object|]. intros parsed.
  apply emits_bind; [apply emits_grounding_step|].
  intros [parsed' grounding]. apply emits_ret.
Qed.

End Run.

Section Rounds.
Variable llm : list event -> request -> result str.
Variable json_loads : str -> option json.
Variable py_str : json -> str.
Variable MAX_CHUNK_CHARS : Z.

Lemma bind_ext {A B} (m : M A) (f g : A -> M B) w :
  (forall a w', f a w' = g a w') -> bind m f w = bind m g w.
Proof. intros H. unfold bind. destruct (m w) as [w' [a|e]]; [apply H|done]. Qed.

(** The fuel of [correction_loop] stands for the termination of the
    [while]: once it covers the rounds the counter still allows, more
    of it changes nothing. *)
Lemma correction_loop_fuel max_rounds input_text fuel : forall fuel' st w,
  (rounds_left max_rounds st <= fuel)%nat ->
  (rounds_left max_rounds st <= fuel')%nat ->
  correction_loop llm json_loads py_str max_rounds fuel input_text st w
  = correction_loop llm json_loads py_str max_rounds fuel' input_text st w.
Proof.
  assert (Hstop : forall fuel st w,
             rounds_left max_rounds st = 0%nat ->
             correction_loop llm json_loads py_str max_rounds fuel input_text st w
             = (w, Ok st)).
  { intros [|f] st w H; simpl; [done|].
    destruct (Z.ltb_spec (l_round st) max_rounds) as [Hlt|Hge].
    - unfold rounds_left in H. lia.
    - by rewrite andb_false_r. }
  induction fuel as [|fuel IH]; intros fuel' st w H H'.
  { rewrite !Hstop; [done|lia|lia]. }
  destruct fuel' as [|fuel'].
  { rewrite !Hstop; [done|lia|lia]. }
  simpl.
  destruct (0 <? errors (l_grounding st)); simpl; [|done].
  destruct (Z.ltb_spec (l_round st) max_rounds) as [Hlt|Hge]; [|done].
  apply bind_ext. intros _ w1.
  apply bind_ext. intros [out [|a applied]] w2; [done|].
  apply bind_ext. intros j w3.
  apply bind_ext. intros g w4.
  apply IH; unfold rounds_left in *; simpl; lia.
Qed.

(** Without an error in the report the controller makes no round: the
    state comes back as it is and nothing is called. *)
Lemma no_error_no_round max_rounds input_text fuel st w :
  errors (l_grounding st) <= 0 ->
  correction_loop llm json_loads py_str max_rounds fuel input_text st w = (w, Ok st).
Proof.
  intros H. destruct fuel as [|fuel]; simpl; [done|].
  destruct (Z.ltb_spec 0 (errors (l_grounding st))) as [Hlt|Hge]; [lia|done].
Qed.

(** The counter only grows, and stays within the limit. *)
Lemma correction_loop_round max_rounds input_text fuel : forall st w,
  match (correction_loop llm json_loads py_str max_rounds fuel input_text st w).2 with
  | Ok st' => l_round st <= l_round st' <= Z.max (l_round st) max_rounds
  | Raise _ => True
  end.
Proof.
  induction fuel as [|fuel IH]; intros st w; simpl; [lia|].
  destruct (0 <? errors (l_grounding st)); simpl; [|lia].
  destruct (Z.ltb_spec (l_round st) max_rounds) as [Hlt|Hge]; simpl; [|lia].
  unfold bind at 1. destruct (emit _ w) as [w1 [[]|e]]; [|done].
  unfold bind at 1.
  destruct (correct_ungrounded_claims _ _ _ _ _ _ w1) as [w2 [[out [|a applied]]|e]];
    [simpl; lia| |done].
  unfold bind at 1. destruct (current out w2) as [w3 [j|e]]; [|done].
  unfold bind at 1.
  destruct (validate_grounding _ _ _ _ _ _ w3) as [w4 [g|e]]; [|done].
  match goal with |- context [correction_loop _ _ _ _ _ _ ?s ?w'] =>
    specialize (IH s w'); destruct (correction_loop _ _ _ _ _ _ s w') as [w5 [st'|e]]
  end; [|done].
  simpl in *. lia.
Qed.

(** The round counter of the report that a run returns. *)
Lemma run_workflow_rounds max_rounds pt schema input_text sections figure_images doc_id w :
  0 <= max_rounds ->
  match (run_workflow_with llm json_loads py_str MAX_CHUNK_CHARS max_rounds
           pt schema input_text sections figure_images doc_id w).2 with
  | Ok res =>
      match r_grounding res with
      | Some g => exists n, correction_rounds g = Some n /\ 0 <= n <= max_rounds
      | None => True
      end
  | Raise _ => True
  end.
Proof.
  intros Hmax. unfold run_workflow_with.
  unfold bind at 1. destruct (figure_step _ _ _ w) as [w1 [fds|e]]; [|done].
  unfold bind at 1.
  destruct (_generate_with_chunking _ _ _ _ _ _ _ _ w1) as [w2 [result|e]]; [|done].
  unfold bind at 1. destruct (new_object _ w2) as [w3 [parsed|e]]; [|done].
  unfold bind at 1. unfold grounding_step.
  unfold bind at 1. destruct (current parsed w3) as [w4 [out|e]]; [|done].
  destruct out as [| | | | | |[|kv kvs]]; try done.
  unfold bind at 1.
  destruct (validate_grounding _ _ _ _ _ _ w4) as [w5 [g|e]]; [|done].
  unfold bind at 1.
  match goal with |- context [correction_loop _ _ _ _ ?f _ ?s ?w'] =>
    pose proof (correction_loop_round max_rounds input_text f s w') as Hr;
    destruct (correction_loop _ _ _ _ f _ s w') as [w6 [st'|e]]
  end; [|done].
  simpl in *.
  destruct (l_corrections st'); eexists; (split; [reflexivity|lia]).
Qed.

End Rounds.

(** One run in full: the only chunk yields a draft with two quotes
    and a statistic that the source does not carry; the judge is down;
    the editor's answer removes one adverse event.  One round is made,
    with its one call and its one fast pass, and two errors are left
    in the report. *)
Definition scripted_service : list event -> request -> result str :=
  fun _ req =>
    match req with
    | ChunkReq _ _ _ _ => Ok (py "draft")
    | CorrectReq _ _ _ => Ok (py "edits")
    | _ => Raise {| kind := ServiceError; msg := py "service unavailable" |}
    end.

Definition scripted_loads : str -> option json :=
  fun s => if str_eqb s (py "draft") then Some draft
           else if str_eqb s (py "edits") then Some editor_answer
           else None.

Definition scripted_run : world * result run_result :=
  run_workflow scripted_service scripted_loads no_str 30000
    (py "Summarise.") (py "{}") (py "The source.") [] [] None empty_world.

Example one_round_with_errors_left :
  total is_round (trace scripted_run.1) = 1%nat
  /\ total is_correction_call (trace scripted_run.1) = 1%nat
  /\ total is_fast_validation (trace scripted_run.1) = 1%nat
  /\ match scripted_run.2 with
     | Ok res =>
         match r_grounding res with
         | Some g =>
             errors g = 2 /\ correction_rounds g = Some 1
             /\ (map ap_action <$> corrections_applied g) = Some [py "removed"]
         | None => False
         end
     | Raise _ => False
     end.
Proof. vm_compute. done. Qed.

(** C4.  With [MAX_CORRECTION_ROUNDS = 1], whatever the service
    answers and whatever the inputs, a run of [run_workflow] adds to
    the trace at most one correction call, at most one fast
    (judge-skipping) validation pass and at most one correction round,
    and the report it returns, if any, has a [correction_rounds] of 0
    or 1. *)
Theorem correction_is_bounded
  (llm : list event -> request -> result str) (json_loads : str -> option json)
  (py_str : json -> str) (MAX_CHUNK_CHARS : Z)
  (prompt_template output_schema_json input_text : str) (sections : list section)
  (figure_images : list figure_image) (doc_id : option str) (w : world) :
  let run := run_workflow llm json_loads py_str MAX_CHUNK_CHARS
               prompt_template output_schema_json input_text sections
               figure_images doc_id w in
  exists new,
    trace run.1 = trace w ++ new
    /\ (total is_correction_call new <= 1)%nat
    /\ (total is_fast_validation new <= 1)%nat
    /\ (total is_round new <= 1)%nat
    /\ match run.2 with
       | Ok res =>
           match r_grounding res with
           | Some g => exists n, correction_rounds g = Some n /\ 0 <= n <= 1
           | None => True
           end
       | Raise _ => True
       end.
Proof.
  intros run. subst run. unfold run_workflow, MAX_CORRECTION_ROUNDS.
  set (m := run_workflow_with _ _ _ _ _ _ _ _ _ _ _).
  assert (Hcalls : emits_le is_correction_call (Z.to_nat 1 * (0 + 1 + 0)) m).
  { apply emits_run_workflow_with; try done; simpl; intros; lia. }
  assert (Hfast : emits_le is_fast_validation (Z.to_nat 1 * (0 + 0 + 1)) m).
  { apply emits_run_workflow_with; try done; simpl; intros; lia. }
  assert (Hrounds : emits_le is_round (Z.to_nat 1 * (1 + 0 + 0)) m).
  { apply emits_run_workflow_with; try done; simpl; intros; lia. }
  destruct (Hcalls w) as (new & E & H1).
  destruct (Hfast w) as (new2 & E2 & H2).
  destruct (Hrounds w) as (new3 & E3 & H3).
  rewrite E in E2, E3. apply app_inv_head in E2, E3. subst new2 new3.
  exists new. repeat split; try done; try (simpl in *; lia).
  apply (run_workflow_rounds llm json_loads py_str MAX_CHUNK_CHARS 1). lia.
Qed.

End WorkflowProps.

(* ================================================================== *)
(** * Part III: further properties of the code *)
(* ================================================================== *)

(** ** The validator, further *)

Module ValidatorMore.
Import Grounding Validator ValidatorProps.
Local Open Scope monad_scope.
(** The world after one more event. *)
Definition logged (w : world) (e : event) : world :=
  {| trace := trace w ++ [e]; heap := heap w; fig_cache := fig_cache w |}.

Section WithService.
Variable llm : list event -> request -> result str.
Variable json_loads : str -> option json.
Variable py_str : json -> str.

(** What the deterministic layers and the presumed verdicts give in
    fast mode: no service, no decoder. *)
Definition fast_report (out : list (str * json)) (source_text : str) : result report :=
  rbind (match dict_get out "key_findings" (JList []) with
         | JList findings => check_findings source_text 0 findings
         | _ => Ok ([], [])
         end) (fun '(stat_results, claims) =>
  rbind (match dict_get out "supporting_quotes" (JList []) with
         | JList quotes => _verify_quotes quotes source_text
         | _ => Ok []
         end) (fun quote_results =>
  let claims_for_llm :=
    implication_claims_of py_str out (safety_claims_of py_str out claims) in
  rbind (zip_entries claims_for_llm (map (fun _ => presumed_ok) claims_for_llm))
    (fun entries =>
  Ok (aggregate (map snd entries)
        {| key_findings := map snd (List.filter (kind_is KeyFinding) entries);
           supporting_quotes := quote_results;
           safety_claims := map snd (List.filter (kind_is SafetyClaim) entries);
           statistical_evidence := stat_results |})))).

Lemma fast_validation_run out source_text w :
  validate_grounding llm json_loads py_str (JDict out) source_text true w
  = (logged w (EvValidate true), fast_report out source_text).
Proof.
  unfold validate_grounding, fast_report, bind, emit, lift, ret, logged. simpl.
  destruct (match dict_get out "key_findings" (JList []) with
            | JList findings => check_findings source_text 0 findings
            | _ => Ok ([], [])
            end) as [[stat_results claims]|e]; [|done]. simpl.
  destruct (match dict_get out "supporting_quotes" (JList []) with
            | JList quotes => _verify_quotes quotes source_text
            | _ => Ok []
            end) as [quote_results|e]; [|done]. simpl.
  destruct (zip_entries _ _) as [entries|e]; done.
Qed.

End WithService.

(** X1. A fast validation pass ([skip_llm=True]) calls nobody: it
    only logs itself, leaves store and cache alone, and its result is
    the same whatever the completion service and the decoder are. *)
Theorem fast_validation_calls_nothing
  (llm llm' : list event -> request -> result str)
  (json_loads json_loads' : str -> option json) (py_str : json -> str)
  (output : json) (source_text : str) (w : world) :
  (validate_grounding llm json_loads py_str output source_text true w).1
  = logged w (EvValidate true)
  /\ validate_grounding llm json_loads py_str output source_text true w
     = validate_grounding llm' json_loads' py_str output source_text true w.
Proof.
  destruct output as [| | | | | |out]; try (split; reflexivity).
  rewrite !fast_validation_run. done.
Qed.

Lemma aggregate_counts (vs : list verdict) (d : details) :
  let r := aggregate vs d in
  0 <= grounded_claims r /\ 0 <= warnings r /\ 0 <= errors r
  /\ grounded_claims r + warnings r + errors r <= total_claims r
  /\ (0 <= overall_score r)%Q /\ (overall_score r <= 1)%Q.
Proof.
  pose proof (aggregate_tally vs d) as H. cbv zeta in *.
  destruct H as (G & W & E & S). split_and!; [done..| |];
    unfold aggregate in *;
    cbn [overall_score grounded_claims warnings errors total_claims] in *;
    set (t := fold_left count_stat _ _) in *;
    (apply FloatProps.round2_unit;
     destruct (Z.ltb_spec 0 (t_total t));
     [apply FloatProps.int_div_unit; lia|by vm_compute]).
Qed.

(** X2. In every report of [validate_grounding] the three counters
    are non-negative and together at most [total_claims] (a verdict
    that is neither ok, warning nor error is counted in the total
    only), and [overall_score] lies between 0 and 1. *)
Theorem report_counters
  (llm : list event -> request -> result str) (json_loads : str -> option json)
  (py_str : json -> str) (output : json) (source_text : str) (skip_llm : bool)
  (w : world) :
  match (validate_grounding llm json_loads py_str output source_text skip_llm w).2 with
  | Ok r =>
      0 <= grounded_claims r /\ 0 <= warnings r /\ 0 <= errors r
      /\ grounded_claims r + warnings r + errors r <= total_claims r
      /\ (0 <= overall_score r)%Q /\ (overall_score r <= 1)%Q
  | Raise _ => True
  end.
Proof.
  destruct (validate_grounding _ _ _ _ _ _ w) as [w' [r|e]] eqn:E; [|done].
  destruct (validate_grounding_aggregates _ _ _ _ _ _ _ _ _ E) as (vs & d & ->).
  apply aggregate_counts.
Qed.

(** The request of the judge call. *)
Definition judge_request (claims : list llm_claim) (source_text : str) : request :=
  JudgeReq claims (truncate_source "

[...middle sections omitted for length...]

" source_text).

Definition warning_entry (e : claim_kind * verdict) : Prop :=
  v_grounded e.2 = JNull /\ v_severity e.2 = JStr (py "warning").

Definition warning_json (j : json) : Prop :=
  exists kvs, j = JDict kvs /\ dict_get kvs "grounded" JNull = JNull
              /\ dict_get kvs "severity" (JStr (py "warning")) = JStr (py "warning").

Lemma zip_entries_warnings (claims : list llm_claim) : forall vs,
  length vs = length claims -> Forall warning_json vs ->
  exists entries,
    zip_entries claims vs = Ok entries
    /\ map fst entries = map c_kind claims
    /\ Forall warning_entry entries.
Proof.
  induction claims as [|c cs IH]; intros [|v vs] Hlen Hall; try discriminate; simpl.
  - exists []. by repeat split.
  - apply Forall_cons in Hall as [(kvs & -> & Hg & Hs) Hall].
    destruct (IH vs) as (entries & -> & Hk & Hw); [by injection Hlen|done|].
    simpl. eexists. split; [reflexivity|]. simpl. split; [by rewrite Hk|].
    constructor; [|done]. by split.
Qed.

Lemma failed_verdicts_entries (claims : list llm_claim) (e : exn) :
  exists entries,
    rbind (iterate (failed_verdicts claims e)) (zip_entries claims) = Ok entries
    /\ map fst entries = map c_kind claims
    /\ Forall warning_entry entries.
Proof.
  unfold failed_verdicts. simpl. apply zip_entries_warnings.
  - by rewrite length_imap.
  - apply Forall_lookup. intros i j Hj.
    apply list_lookup_imap_Some in Hj as (c & _ & ->).
    eexists. split; [reflexivity|]. by split.
Qed.

(** X3. The judge layer never raises. When the judge call raises, or
    its answer does not decode, every claim gets a verdict with
    [grounded=None] and [severity="warning"]: a failed judge yields
    warnings, never errors. *)
Theorem judge_failure_is_a_warning
  (llm : list event -> request -> result str) (json_loads : str -> option json)
  (claims : list llm_claim) (source_text : str) (w : world) :
  let r := _verify_claims_with_llm llm json_loads claims source_text w in
  let req := judge_request claims source_text in
  (exists verdicts, r.2 = Ok verdicts)
  /\ (forall e, claims <> [] ->
        llm (trace w) req = Raise e
        \/ (exists raw, llm (trace w) req = Ok raw /\ json_loads raw = None
                        /\ e = {| kind := ValueError; msg := py "JSONDecodeError" |}) ->
        r = (logged w (EvCall req), Ok (failed_verdicts claims e))
        /\ exists entries,
            rbind (iterate (failed_verdicts claims e)) (zip_entries claims) = Ok entries
            /\ map fst entries = map c_kind claims
            /\ Forall warning_entry entries).
Proof.
  intros r req. subst r req. unfold _verify_claims_with_llm, judge_request.
  destruct claims as [|c cs]; [split; [by eexists|by intros e []]|].
  set (claims := c :: cs). clearbody claims.
  unfold try_except, bind, call, ret, raise.
  set (req := JudgeReq _ _).
  split.
  - destruct (llm (trace w) req) as [raw|e]; [|by eexists].
    destruct (json_loads raw); by eexists.
  - intros e _ H. split; [|apply failed_verdicts_entries].
    destruct H as [->|(raw & -> & -> & ->)]; done.
Qed.

Definition one_claim : list llm_claim :=
  [ {| c_text := py "Drug X improved survival."; c_evidence := JStr [];
       c_kind := KeyFinding; c_index := 0 |} ].

Lemma judge_failure_is_a_warning_witness :
  one_claim <> []
  /\ _verify_claims_with_llm no_service no_json one_claim (py "A source.") empty_world
     = (logged empty_world (EvCall (judge_request one_claim (py "A source."))),
        Ok (failed_verdicts one_claim
              {| kind := ServiceError; msg := py "service unavailable" |})).
Proof.
  assert (H : one_claim <> []) by discriminate.
  split; [exact H|].
  apply (judge_failure_is_a_warning no_service no_json one_claim (py "A source.")
           empty_world).
  - exact H.
  - left. reflexivity.
Defined.

End ValidatorMore.

(** ** The object store, further *)

Module StoreMore.
Import Store StoreProps ValidatorProps.

Lemma snapshot_store (j : json) :
  forall h ext fuel,
    (length (store_json j h).1 <= length h + fuel)%nat ->
    snapshot fuel ((store_json j h).1 ++ ext) (store_json j h).2 = j.
Proof.
  induction j as [| | | | |items IH|kvs IH] using json_induction; intros h ext fuel Hfuel;
    try (by destruct fuel).
  - simpl in *.
    set (go := fix go (l : list json) (h : list obj) {struct l} :=
           match l with
           | [] => (h, [])
           | x :: l' =>
               let '(h1, v) := store_json x h in
               let '(h2, vs) := go l' h1 in (h2, v :: vs)
           end) in *.
    assert (Hgo : forall h, exists k,
               (go items h).1 = h ++ k
               /\ forall ext f, (length k <= f)%nat ->
                    map (snapshot f (h ++ k ++ ext)) (go items h).2 = items).
    { clear h ext fuel Hfuel. induction IH as [|x l Hx _ IHl]; intros h; simpl.
      - exists []. by rewrite app_nil_r.
      - pose proof (store_json_appends x h) as [(k1 & E1 & _) _].
        specialize (Hx h). destruct (store_json x h) as [h1 v]. simpl in *. subst h1.
        destruct (IHl (h ++ k1)) as (k2 & E2 & Hmap).
        destruct (go l (h ++ k1)) as [h2 vs]. simpl in *. subst h2.
        exists (k1 ++ k2). split; [by rewrite (assoc_L (++))|].
        intros ext f Hf. rewrite length_app in Hf. f_equal.
        + rewrite <- (assoc_L (++) k1), (assoc_L (++) h). apply Hx.
          rewrite length_app. lia.
        + rewrite <- (assoc_L (++) k1), (assoc_L (++) h). apply Hmap. lia. }
    destruct (Hgo h) as (k & E & Hmap). destruct (go items h) as [hk vs]. simpl in *.
    subst hk. rewrite !length_app in Hfuel. simpl in Hfuel.
    destruct fuel as [|f]; [lia|]. simpl.
    rewrite <- !(assoc_L (++)). rewrite (assoc_L (++) h k).
    change ([OList vs] ++ ext) with (OList vs :: ext).
    rewrite list_lookup_middle by done. f_equal.
    rewrite <- (assoc_L (++) h k). apply (Hmap (OList vs :: ext)). lia.
  - simpl in *.
    set (go := fix go (l : list (str * json)) (h : list obj) {struct l} :=
           match l with
           | [] => (h, [])
           | (k, x) :: l' =>
               let '(h1, v) := store_json x h in
               let '(h2, vs) := go l' h1 in (h2, (k, v) :: vs)
           end) in *.
    assert (Hgo : forall h, exists k,
               (go kvs h).1 = h ++ k
               /\ forall ext f, (length k <= f)%nat ->
                    map (fun kv => (kv.1, snapshot f (h ++ k ++ ext) kv.2)) (go kvs h).2
                    = kvs).
    { clear h ext fuel Hfuel. induction IH as [|[key x] l Hx _ IHl]; intros h; simpl.
      - exists []. by rewrite app_nil_r.
      - pose proof (store_json_appends x h) as [(k1 & E1 & _) _].
        simpl in Hx. specialize (Hx h). destruct (store_json x h) as [h1 v].
        simpl in *. subst h1.
        destruct (IHl (h ++ k1)) as (k2 & E2 & Hmap).
        destruct (go l (h ++ k1)) as [h2 vs]. simpl in *. subst h2.
        exists (k1 ++ k2). split; [by rewrite (assoc_L (++))|].
        intros ext f Hf. rewrite length_app in Hf. f_equal.
        + f_equal. rewrite <- (assoc_L (++) k1), (assoc_L (++) h). apply Hx.
          rewrite length_app. lia.
        + rewrite <- (assoc_L (++) k1), (assoc_L (++) h). apply Hmap. lia. }
    destruct (Hgo h) as (k & E & Hmap). destruct (go kvs h) as [hk vs]. simpl in *.
    subst hk. rewrite !length_app in Hfuel. simpl in Hfuel.
    destruct fuel as [|f]; [lia|]. simpl.
    rewrite <- !(assoc_L (++)). rewrite (assoc_L (++) h k).
    change ([ODict vs] ++ ext) with (ODict vs :: ext).
    rewrite list_lookup_middle by done. f_equal.
    rewrite <- (assoc_L (++) h k). apply (Hmap (ODict vs :: ext)). lia.
Qed.

Lemma read_store (j : json) (h : list obj) :
  read_json (store_json j h).1 (store_json j h).2 = j.
Proof.
  unfold read_json.
  rewrite <- (app_nil_r (store_json j h).1) at 2. apply snapshot_store. lia.
Qed.

(** X4. Storing a JSON value as an object graph and reading the graph
    back gives the value, whatever the store held before; the store
    keeps what it held. *)
Theorem store_read_round_trip (j : json) (h : list obj) :
  read_json (store_json j h).1 (store_json j h).2 = j
  /\ h `prefix_of` (store_json j h).1.
Proof.
  split; [apply read_store|].
  destruct (store_json_appends j h) as [(k & -> & _) _]. by exists k.
Qed.

(** X5. [copy.deepcopy]: the copy reads as the original does, it is
    made of new objects only, and the store keeps what it held. *)
Theorem deepcopy_same_content (v : val) (w : world) :
  exists v',
    (deepcopy v w).2 = Ok v'
    /\ read_json (heap (deepcopy v w).1) v' = read_json (heap w) v
    /\ fresh_val (length (heap w)) v'
    /\ heap w `prefix_of` heap (deepcopy v w).1
    /\ trace (deepcopy v w).1 = trace w.
Proof.
  unfold deepcopy.
  pose proof (read_store (read_json (heap w) v) (heap w)) as Hread.
  destruct (store_json_appends (read_json (heap w) v) (heap w)) as [(k & Hk & _) Hv].
  destruct (store_json (read_json (heap w) v) (heap w)) as [h' v']. simpl in *.
  exists v'. repeat split; try done. subst h'. by exists k.
Qed.

End StoreMore.

(** ** Removals *)

Module RemovalProps.
Import Grounding Validator Store Correction StoreProps ValidatorProps SortProps.

(** The list without the elements whose position is marked. *)
Fixpoint without_from {A} (zs : list Z) (i : nat) (items : list A) : list A :=
  match items with
  | [] => []
  | x :: r =>
      if bool_decide (Z.of_nat i ∈ zs) then without_from zs (S i) r
      else x :: without_from zs (S i) r
  end.
Definition without {A} (zs : list Z) (items : list A) : list A := without_from zs 0 items.

Lemma without_from_none {A} (zs : list Z) (i : nat) (items : list A) :
  Forall (fun z => z < Z.of_nat i) zs -> without_from zs i items = items.
Proof.
  revert i. induction items as [|x r IH]; intros i Hall; simpl; [done|].
  rewrite bool_decide_eq_false_2.
  - f_equal. apply IH. eapply Forall_impl; [exact Hall|]. intros z ?. simpl in *. lia.
  - intros Hin. rewrite Forall_forall in Hall. apply Hall in Hin. lia.
Qed.

Lemma without_from_skip {A} (z : Z) (zs : list Z) (i : nat) (items : list A) :
  z < Z.of_nat i \/ Z.of_nat i + len items <= z ->
  without_from (z :: zs) i items = without_from zs i items.
Proof.
  unfold len. revert i. induction items as [|x r IH]; intros i Hz; simpl; [done|].
  simpl in Hz. rewrite IH by lia.
  destruct (decide (Z.of_nat i ∈ zs)) as [Hin|Hin].
  - rewrite !bool_decide_eq_true_2; [done|done|by right].
  - rewrite !bool_decide_eq_false_2; [done|done|].
    intros [E|?]%elem_of_cons; [lia|done].
Qed.

Lemma without_from_delete {A} (items : list A) : forall (n o : nat) (zs : list Z),
  (n < length items)%nat ->
  Forall (fun z => z < Z.of_nat (o + n)) zs ->
  without_from zs o (delete n items) = without_from (Z.of_nat (o + n) :: zs) o items.
Proof.
  induction items as [|x r IH]; intros n o zs Hn Hall; simpl in *; [lia|].
  destruct n as [|n]; simpl.
  - rewrite Nat.add_0_r in *. rewrite bool_decide_eq_true_2 by left.
    rewrite !without_from_none; [done| |].
    + constructor; [lia|]. eapply Forall_impl; [exact Hall|]. intros z ?. simpl in *. lia.
    + done.
  - replace (o + S n)%nat with (S o + n)%nat in * by lia.
    rewrite (IH n (S o) zs) by (done || lia).
    destruct (decide (Z.of_nat o ∈ zs)) as [Hin|Hin].
    + rewrite !bool_decide_eq_true_2; [done|by right|done].
    + rewrite !bool_decide_eq_false_2; [done| |done].
      intros [E|?]%elem_of_cons; [lia|done].
Qed.

Lemma pop_guarded_descending (zs : list Z) : forall items : list val,
  StronglySorted (fun a b => b < a) zs ->
  pop_guarded items zs = without zs items.
Proof.
  unfold pop_guarded, without.
  induction zs as [|z rest IH]; intros items Hs; simpl.
  - by rewrite without_from_none.
  - apply StronglySorted_inv in Hs as [Hs Hall].
    unfold in_range at 2. unfold len.
    destruct (Z.leb_spec 0 z) as [H0|H0]; simpl.
    + destruct (Z.ltb_spec z (Z.of_nat (length items))) as [H1|H1].
      * rewrite IH by done.
        rewrite (without_from_delete items (Z.to_nat z) 0 rest).
        -- simpl. by rewrite Z2Nat.id.
        -- lia.
        -- eapply Forall_impl; [exact Hall|]. intros y ?. simpl in *. lia.
      * rewrite IH by done. symmetry. apply without_from_skip. unfold len. lia.
    + rewrite IH by done. symmetry. apply without_from_skip. lia.
Qed.

Lemma descending_sorted (zs : list Z) :
  StronglySorted (fun a b => b < a) (sorted_by (fun a b => b <=? a) (remove_dups zs))
  /\ forall z, z ∈ sorted_by (fun a b => b <=? a) (remove_dups zs) <-> z ∈ zs.
Proof.
  set (le := fun a b : Z => b <=? a).
  assert (Htot : forall a b, le a b = false -> le b a = true) by (unfold le; intros; lia).
  assert (Htr : forall a b c, le a b = true -> le b c = true -> le a c = true)
    by (unfold le; intros; lia).
  pose proof (sorted_by_sorted le Htot Htr (remove_dups zs)) as Hs.
  pose proof (sorted_by_perm le (remove_dups zs)) as Hp.
  assert (Hnd : NoDup (sorted_by le (remove_dups zs))).
  { eapply NoDup_Permutation_proper; [exact Hp|]. apply NoDup_remove_dups. }
  split.
  - clear Hp. induction Hs as [|a l Hs IH Hall]; [constructor|].
    apply NoDup_cons in Hnd as [Hni Hnd]. constructor; [by apply IH|].
    apply Forall_forall. intros b Hb.
    rewrite Forall_forall in Hall. pose proof (Hall b Hb) as Hle. unfold le in Hle.
    assert (a <> b) by (intros ->; done). lia.
  - intros z. rewrite Hp. apply elem_of_remove_dups.
Qed.

(** X6. Removals are applied from the highest index down, on the
    de-duplicated indices, so they remove exactly the elements at the
    marked positions of the list as it was; an index below 0 or past
    the end is ignored. *)
Theorem removal_removes_marked_positions (indices : list json) (idxs : list Z)
  (items : list val) :
  indices_sorted indices = Ok idxs ->
  pop_guarded items idxs = without idxs items
  /\ (forall z, z ∈ idxs <-> exists j, j ∈ indices /\ as_int j = Some z)
  /\ (forall h root key l,
        get_list h root key = FieldList l items ->
        remove_from h root key idxs = Ok (<[l := OList (without idxs items)]> h)).
Proof.
  unfold indices_sorted. intros H.
  destruct (rmap _ indices) as [zs|e] eqn:E; [|discriminate].
  simpl in H. injection H as <-.
  destruct (descending_sorted zs) as [Hs Hm].
  assert (Hzs : forall z, z ∈ zs <-> exists j, j ∈ indices /\ as_int j = Some z).
  { clear Hs Hm. revert zs E. induction indices as [|j js IH]; intros zs E; simpl in E.
    - injection E as <-. intros z. split; [by intros ?%elem_of_nil|].
      by intros (j & ?%elem_of_nil & _).
    - destruct (as_int j) as [zj|] eqn:Ej; [|discriminate]. simpl in E.
      destruct (rmap _ js) as [zs'|] eqn:E'; [|discriminate]. simpl in E.
      injection E as <-. intros z. rewrite elem_of_cons, (IH zs' eq_refl). split.
      + intros [->|(j' & ? & ?)]; [exists j; split; [left|done]|].
        exists j'. split; [by right|done].
      + intros (j' & [->|?]%elem_of_cons & Hj'); [left; congruence|].
        right. by exists j'. }
  split; [by apply pop_guarded_descending|]. split.
  - intros z. by rewrite Hm.
  - intros h root key l Hg. unfold remove_from. rewrite Hg.
    by rewrite pop_guarded_descending.
Qed.

Lemma removal_removes_marked_positions_witness :
  indices_sorted [JInt 0; JInt 2; JInt 2; JInt 7; JInt (-1)] = Ok [7; 2; 0; -1]
  /\ pop_guarded [VInt 10; VInt 11; VInt 12; VInt 13] [7; 2; 0; -1]
     = [VInt 11; VInt 13].
Proof.
  assert (H : indices_sorted [JInt 0; JInt 2; JInt 2; JInt 7; JInt (-1)]
              = Ok [7; 2; 0; -1]) by (vm_compute; reflexivity).
  split; [exact H|].
  destruct (removal_removes_marked_positions _ _ [VInt 10; VInt 11; VInt 12; VInt 13] H)
    as [-> _].
  vm_compute. reflexivity.
Defined.

Lemma remove_safety_descending (idxs : list Z) : forall ae sae : list val,
  StronglySorted (fun a b => b < a) idxs -> Forall (fun z => 0 <= z) idxs ->
  remove_safety ae sae idxs
  = Ok (without idxs ae, without (map (fun z => z - len ae) idxs) sae).
Proof.
  unfold without.
  induction idxs as [|z rest IH]; intros ae sae Hs Hpos; simpl.
  - by rewrite !without_from_none.
  - apply StronglySorted_inv in Hs as [Hs Hall].
    apply Forall_cons in Hpos as [Hz Hpos].
    destruct (Z.ltb_spec z (len ae)) as [Hlt|Hge].
    + unfold pop_at. rewrite (proj2 (Z.ltb_ge z 0)) by lia.
      unfold in_range. rewrite (proj2 (Z.leb_le 0 z)), (proj2 (Z.ltb_lt z (len ae))) by lia.
      simpl. rewrite IH by done. f_equal. f_equal.
      * unfold len in Hlt.
        rewrite (without_from_delete ae (Z.to_nat z) 0 rest).
        -- simpl. by rewrite Z2Nat.id.
        -- lia.
        -- eapply Forall_impl; [exact Hall|]. intros y ?. simpl in *. lia.
      * rewrite (without_from_none (_ :: _)).
        -- apply without_from_none. apply Forall_fmap.
           eapply Forall_impl; [exact Hall|]. intros y Hy. simpl in *.
           unfold len in *. rewrite length_delete.
           ++ lia.
           ++ apply lookup_lt_is_Some. lia.
        -- constructor; [simpl; lia|]. apply Forall_fmap.
           eapply Forall_impl; [exact Hall|]. intros y Hy. simpl in *. lia.
    + assert (Hae : without_from (z :: rest) 0 ae = without_from rest 0 ae)
        by (apply without_from_skip; simpl; lia).
      rewrite Hae.
      unfold in_range. rewrite (proj2 (Z.leb_le 0 (z - len ae))) by lia. simpl.
      destruct (Z.ltb_spec (z - len ae) (len sae)) as [Hin|Hout].
      * rewrite IH by done. f_equal. f_equal. unfold len in Hin.
        rewrite (without_from_delete sae (Z.to_nat (z - len ae)) 0).
        -- simpl. by rewrite Z2Nat.id by lia.
        -- unfold len in *. lia.
        -- apply Forall_fmap. eapply Forall_impl; [exact Hall|].
           intros y Hy. simpl in *. unfold len in *. lia.
      * rewrite IH by done. f_equal. f_equal. symmetry.
        apply without_from_skip. simpl. lia.
Qed.

(** X7. Safety claims are indexed over [adverse_events] followed by
    [serious_adverse_events]. With no negative index, the removals
    delete exactly the marked positions of the two lists as they
    were. A negative index is not guarded here: it pops an adverse
    event counted from the end, or raises [IndexError] when there is
    none at that place. *)
Theorem safety_removal_positions (indices : list json) (idxs : list Z)
  (ae sae : list val) :
  indices_sorted indices = Ok idxs ->
  (Forall (fun z => 0 <= z) idxs ->
   remove_safety ae sae idxs
   = Ok (without idxs ae, without (map (fun z => z - len ae) idxs) sae))
  /\ (forall z, z < 0 ->
        remove_safety ae sae [z]
        = if - len ae <=? z then Ok (delete (Z.to_nat (z + len ae)) ae, sae)
          else Raise {| kind := IndexError; msg := py "pop index out of range" |}).
Proof.
  unfold indices_sorted. intros H.
  destruct (rmap _ indices) as [zs|e] eqn:E; [|discriminate].
  simpl in H. injection H as <-.
  destruct (descending_sorted zs) as [Hs _].
  split; [by apply remove_safety_descending|].
  intros z Hz. simpl. unfold pop_at, in_range, len.
  rewrite (proj2 (Z.ltb_lt z (Z.of_nat (length ae)))) by lia.
  rewrite (proj2 (Z.ltb_lt z 0)) by lia.
  destruct (Z.leb_spec (- Z.of_nat (length ae)) z) as [H1|H1].
  - rewrite (proj2 (Z.leb_le 0 (z + Z.of_nat (length ae)))) by lia.
    rewrite (proj2 (Z.ltb_lt (z + Z.of_nat (length ae)) (Z.of_nat (length ae)))) by lia.
    done.
  - rewrite (proj2 (Z.leb_gt 0 (z + Z.of_nat (length ae)))) by lia. done.
Qed.

Lemma safety_removal_positions_witness :
  indices_sorted [JInt 1; JInt 3] = Ok [3; 1]
  /\ remove_safety [VStr (py "nausea"); VStr (py "invented")]
       [VStr (py "sepsis"); VStr (py "made up")] [3; 1]
     = Ok ([VStr (py "nausea")], [VStr (py "sepsis")]).
Proof.
  assert (H : indices_sorted [JInt 1; JInt 3] = Ok [3; 1]) by (vm_compute; reflexivity).
  split; [exact H|].
  rewrite (proj1 (safety_removal_positions _ _ [VStr (py "nausea"); VStr (py "invented")]
                    [VStr (py "sepsis"); VStr (py "made up")] H)).
  - vm_compute. reflexivity.
  - repeat constructor; lia.
Defined.

End RemovalProps.

(** ** Chunking, further *)

Module ChunkerMore.
Import Chunker ChunkerProps.

Lemma py_range_forward (n step : Z) :
  0 < step ->
  py_range 0 n step
  = Ok (map (fun k => Z.of_nat k * step) (seq 0 (Z.to_nat ((n + step - 1) / step)))).
Proof.
  intros Hs. unfold py_range.
  rewrite (proj2 (Z.eqb_neq step 0)) by lia.
  rewrite (proj2 (Z.ltb_lt 0 step)) by lia.
  rewrite Z.sub_0_r. f_equal.
Qed.

(** Cutting a list into pieces of [m] elements and putting them back. *)
Lemma pieces_concat {A} (m : nat) (c : nat) : forall (l : list A),
  (0 < m)%nat -> (length l <= c * m)%nat ->
  concat (map (fun k => take m (drop (k * m) l)) (seq 0 c)) = l.
Proof.
  induction c as [|c IH]; intros l Hm Hl; simpl.
  - destruct l; [done|simpl in Hl; lia].
  - transitivity (take m l ++ drop m l); [|apply take_drop]. f_equal.
    rewrite <- seq_shift, map_map.
    etransitivity; [|apply (IH (drop m l) Hm); rewrite length_drop; simpl in Hl; lia].
    f_equal. apply map_ext. intros k. rewrite drop_drop. first [reflexivity | do 2 f_equal; simpl; lia].
Qed.

Lemma slice_piece {A} (l : list A) (k : nat) (m : Z) :
  0 < m ->
  slice l (Z.of_nat k * m) (Z.of_nat k * m + m)
  = take (Z.to_nat m) (drop (k * Z.to_nat m) l).
Proof.
  intros Hm. unfold slice, clamp, len.
  rewrite (proj2 (Z.ltb_ge _ 0)) by nia.
  rewrite (proj2 (Z.ltb_ge _ 0)) by nia.
  set (n := Z.of_nat (length l)).
  destruct (Z.le_gt_cases (Z.of_nat k * m) n) as [Hin|Hout].
  - rewrite (Z.min_l (Z.of_nat k * m)) by done.
    replace (Z.to_nat (Z.of_nat k * m)) with (k * Z.to_nat m)%nat by nia.
    destruct (Z.le_gt_cases (Z.of_nat k * m + m) n) as [Hin2|Hout2].
    + rewrite Z.min_l by done. f_equal. lia.
    + rewrite Z.min_r by lia.
      rewrite !take_ge; [done| |]; rewrite length_drop; unfold n in *; nia.
  - rewrite !Z.min_r by lia. rewrite Z.sub_diag. simpl.
    rewrite (drop_ge l (k * Z.to_nat m)) by (unfold n in *; nia).
    by rewrite take_nil.
Qed.

Lemma chunk_by_size_contents (MAX : Z) (text : str) :
  0 < MAX ->
  exists chunks,
    _chunk_by_size MAX text = Ok chunks
    /\ length chunks = Z.to_nat ((len text + MAX - 1) / MAX)
    /\ forall k c, chunks !! k = Some c ->
         heading c = py "Part " ++ str_of_Z (Z.of_nat k + 1)
         /\ content c = take (Z.to_nat MAX) (drop (k * Z.to_nat MAX) text).
Proof.
  intros Hm. unfold _chunk_by_size. rewrite py_range_forward by done. simpl.
  eexists. split; [reflexivity|]. split.
  - by rewrite length_imap, length_map, length_seq.
  - intros k c Hk. apply list_lookup_imap_Some in Hk as (i & Hi & ->). simpl.
    split; [done|].
    rewrite list_lookup_fmap in Hi.
    destruct (seq 0 _ !! k) as [k'|] eqn:E; [|discriminate].
    apply lookup_seq in E as [-> _]. simpl in Hi. injection Hi as <-.
    by apply slice_piece.
Qed.

Lemma chunk_by_size_pieces (MAX : Z) (text : str) :
  0 < MAX ->
  exists chunks,
    _chunk_by_size MAX text = Ok chunks
    /\ concat (map content chunks) = text
    /\ len chunks = (len text + MAX - 1) / MAX
    /\ Forall (fun c => content c <> [] /\ len (content c) <= MAX) chunks
    /\ (forall k c, chunks !! k = Some c ->
          heading c = py "Part " ++ str_of_Z (Z.of_nat k + 1)
          /\ (S k < length chunks -> len (content c) = MAX)%nat).
Proof.
  intros Hm. destruct (chunk_by_size_contents MAX text Hm) as (chunks & E & Hlen & Hc).
  exists chunks. split; [done|].
  set (m := Z.to_nat MAX) in *. set (n := length text).
  assert (Hcount : (length chunks * m >= n /\ (length chunks - 1) * m < n
                    \/ (n = 0 /\ length chunks = 0))%nat).
  { rewrite Hlen. unfold len. fold n.
    pose proof (Z.div_mod (Z.of_nat n + MAX - 1) MAX ltac:(lia)) as Hd.
    pose proof (Z.mod_pos_bound (Z.of_nat n + MAX - 1) MAX ltac:(lia)) as Hb.
    set (q := (Z.of_nat n + MAX - 1) / MAX) in *.
    assert (0 <= q) by (apply Z.div_pos; lia).
    destruct (decide (n = 0)%nat) as [->|Hn].
    - right. split; [done|]. assert (q = 0); [|lia].
      apply Z.div_small. lia.
    - left. unfold m. nia. }
  assert (Hmap : map content chunks
                 = map (fun k => take m (drop (k * m) text)) (seq 0 (length chunks))).
  { apply list_eq. intros k. rewrite !list_lookup_fmap.
    destruct (chunks !! k) as [c|] eqn:Ek; simpl.
    - destruct (Hc k c Ek) as [_ ->].
      rewrite lookup_seq_lt by (by apply lookup_lt_Some in Ek). done.
    - apply lookup_ge_None in Ek. by rewrite lookup_seq_ge. }
  split; [|split; [|split]].
  + rewrite Hmap. apply pieces_concat; [unfold m; lia|].
    destruct Hcount as [[? _]|[? _]]; fold n; lia.
  + unfold len. rewrite Hlen. rewrite Z2Nat.id; [done|]. apply Z.div_pos; unfold len; lia.
  + apply Forall_lookup. intros k c Ek. destruct (Hc k c Ek) as [_ ->].
    apply lookup_lt_Some in Ek. unfold len. rewrite length_take, length_drop. fold n.
    split; [|unfold m; lia].
    intros Hnil. apply (f_equal length) in Hnil.
    rewrite length_take, length_drop in Hnil. fold n in Hnil. simpl in Hnil.
    destruct Hcount as [[_ ?]|[_ ?]]; unfold m in *; nia.
  + intros k c Ek. destruct (Hc k c Ek) as [-> ->]. split; [done|].
    intros Hk. unfold len. rewrite length_take, length_drop. fold n.
    destruct Hcount as [[_ ?]|[_ ?]]; unfold m in *; nia.
Qed.

Lemma chunk_by_size_negative (MAX : Z) (text : str) :
  MAX < 0 -> _chunk_by_size MAX text = Ok [].
Proof.
  intros Hm. unfold _chunk_by_size, py_range.
  rewrite (proj2 (Z.eqb_neq MAX 0)) by lia.
  rewrite (proj2 (Z.ltb_ge 0 MAX)) by lia.
  replace (Z.to_nat _) with 0%nat; [done|].
  unfold len.
  assert ((0 - Z.of_nat (length text) - MAX - 1) / - MAX <= 0); [|lia].
  destruct (length text) as [|n].
  + rewrite Z.div_small; lia.
  + apply Z.lt_succ_r. apply Z.div_lt_upper_bound; lia.
Qed.

(** X8. The fixed-size fallback cuts the text into consecutive pieces
    of [MAX_CHUNK_CHARS] characters, the last one shorter: the pieces
    put back together are the text, none is empty, there are
    [ceil(len/MAX)] of them, named "Part 1", "Part 2", ... A negative
    budget yields no chunk at all, a zero budget raises. *)
Theorem chunk_by_size_partitions (MAX : Z) (text : str) :
  (0 < MAX ->
   exists chunks,
     _chunk_by_size MAX text = Ok chunks
     /\ concat (map content chunks) = text
     /\ len chunks = (len text + MAX - 1) / MAX
     /\ Forall (fun c => content c <> [] /\ len (content c) <= MAX) chunks
     /\ (forall k c, chunks !! k = Some c ->
           heading c = py "Part " ++ str_of_Z (Z.of_nat k + 1)
           /\ (S k < length chunks -> len (content c) = MAX)%nat))
  /\ (MAX < 0 -> _chunk_by_size MAX text = Ok [])
  /\ (MAX = 0 -> exists e, _chunk_by_size MAX text = Raise e /\ kind e = ValueError).
Proof.
  split; [apply chunk_by_size_pieces|]. split; [apply chunk_by_size_negative|].
  intros ->. eexists. split; [reflexivity|done].
Qed.

Lemma chunk_by_size_partitions_witness :
  0 < 4
  /\ exists chunks,
      _chunk_by_size 4 (py "abcdefghij") = Ok chunks
      /\ concat (map content chunks) = py "abcdefghij".
Proof.
  split; [lia|].
  destruct (proj1 (chunk_by_size_partitions 4 (py "abcdefghij")) ltac:(lia))
    as (chunks & E & Hc & _).
  by exists chunks.
Defined.

(** A string with a character that is no whitespace. *)
Definition has_ink (s : str) : bool := existsb (fun c => negb (is_space c)) s.

Lemma lstrip_decomp (s : str) :
  exists ws, s = ws ++ lstrip s /\ Forall (fun c => is_space c = true) ws
             /\ match lstrip s with c :: _ => is_space c = false | [] => True end.
Proof.
  induction s as [|c r (ws & E & Hws & Hh)]; simpl.
  - exists []. by repeat split.
  - destruct (is_space c) eqn:Ec.
    + exists (c :: ws). split; [by rewrite E at 1|]. split; [by constructor|done].
    + exists []. by repeat split.
Qed.

Lemma rstrip_decomp (s : str) :
  exists ws, s = rstrip s ++ ws /\ Forall (fun c => is_space c = true) ws
             /\ match reverse (rstrip s) with
                | c :: _ => is_space c = false | [] => True end.
Proof.
  unfold rstrip. destruct (lstrip_decomp (reverse s)) as (ws & E & Hws & Hh).
  exists (reverse ws). split; [|split].
  - rewrite <- reverse_app, <- E. by rewrite reverse_involutive.
  - by apply Forall_reverse.
  - by rewrite reverse_involutive.
Qed.

Lemma has_ink_app a b : has_ink (a ++ b) = has_ink a || has_ink b.
Proof. apply existsb_app. Qed.

Lemma has_ink_spaces ws : Forall (fun c => is_space c = true) ws -> has_ink ws = false.
Proof. induction 1 as [|c ws Hc _ IH]; simpl; [done|]. by rewrite Hc. Qed.

Lemma has_ink_strip s : has_ink (strip s) = has_ink s.
Proof.
  unfold strip.
  destruct (lstrip_decomp s) as (ws & E & Hws & _).
  destruct (rstrip_decomp (lstrip s)) as (ws' & E' & Hws' & _).
  rewrite E at 2. rewrite E' at 2.
  rewrite !has_ink_app, (has_ink_spaces ws), (has_ink_spaces ws') by done.
  by rewrite orb_false_r.
Qed.

Lemma has_ink_nonempty s : has_ink s = true -> s <> [].
Proof. by destruct s. Qed.

Lemma strip_nonempty_ink s : strip s <> [] -> has_ink (strip s) = true.
Proof.
  unfold strip. intros Hne.
  destruct (rstrip_decomp (lstrip s)) as (ws & E & Hws & Hlast).
  destruct (reverse (rstrip (lstrip s))) as [|c r] eqn:Er.
  - apply (f_equal reverse) in Er. rewrite reverse_involutive in Er. done.
  - apply (f_equal reverse) in Er. rewrite reverse_involutive in Er.
    rewrite Er, reverse_cons, has_ink_app. simpl. rewrite Hlast. simpl.
    by rewrite orb_true_r.
Qed.

Lemma lstrip_idem s : lstrip (lstrip s) = lstrip s.
Proof.
  destruct (lstrip_decomp s) as (_ & _ & _ & Hh).
  destruct (lstrip s) as [|c r]; [done|]. simpl. by rewrite Hh.
Qed.

Lemma strip_idem s : strip (strip s) = strip s.
Proof.
  unfold strip.
  assert (Hl : lstrip (rstrip (lstrip s)) = rstrip (lstrip s)).
  { destruct (lstrip_decomp s) as (_ & _ & _ & Hh).
    destruct (rstrip_decomp (lstrip s)) as (ws & E & Hws & _).
    destruct (lstrip s) as [|c r]; [done|].
    destruct (rstrip (c :: r)) as [|c' r'] eqn:Er; [done|].
    simpl in E. injection E as <- _. simpl. by rewrite Hh. }
  rewrite Hl. unfold rstrip at 1 2. by rewrite reverse_involutive, lstrip_idem.
Qed.

Lemma join_has_ink (ps : list str) :
  ps <> [] -> Forall (fun p => has_ink p = true) ps ->
  has_ink (join [10%N; 10%N] ps) = true.
Proof.
  intros Hne Hall. destruct ps as [|p ps]; [done|].
  apply Forall_cons in Hall as [Hp _].
  destruct ps; simpl; [done|]. by rewrite has_ink_app, Hp.
Qed.

Lemma piece_ink h body :
  Forall (fun c => has_ink (content c) = true) (piece h body).
Proof.
  unfold piece. destruct (truthy (strip body)) eqn:E; [|constructor].
  constructor; [|constructor]. simpl. apply strip_nonempty_ink.
  by destruct (strip body).
Qed.

Lemma raw_chunks_ink text sections :
  Forall (fun c => has_ink (content c) = true) (raw_chunks text sections).
Proof.
  unfold raw_chunks. apply Forall_app. split.
  - unfold preamble_chunks. destruct (sorted_sections sections) as [|[o hd] rest];
      [constructor|]. destruct (0 <? o); [apply piece_ink|constructor].
  - induction (sorted_sections sections) as [|[o hd] rest IH]; simpl; [constructor|].
    apply Forall_app. split; [apply piece_ink|apply IH].
Qed.

(** X9. No chunk is blank. Whatever the budget, every chunk that
    [split_into_sections] returns is non-empty; on the section path
    it holds a character that is no whitespace and has no whitespace
    at either end. *)
Theorem no_blank_chunk (MAX : Z) (text : str) (sections : list section) :
  match split_into_sections MAX text sections with
  | Ok out =>
      Forall (fun c => content c <> []) out
      /\ (uses_fallback sections = false ->
          Forall (fun c => has_ink (content c) = true
                           /\ strip (content c) = content c) out)
  | Raise _ => True
  end.
Proof.
  unfold split_into_sections. destruct (uses_fallback sections).
  - destruct (Z.lt_trichotomy MAX 0) as [Hneg|[->|Hpos]].
    + rewrite chunk_by_size_negative by done. split; [constructor|done].
    + done.
    + destruct (chunk_by_size_pieces MAX text Hpos) as (chunks & -> & _ & _ & Hall & _).
      split; [|done]. eapply Forall_impl; [exact Hall|]. by intros c [? _].
  - destruct (merge_small_chunks_groups (raw_chunks text sections) MAX
                (raw_chunks_truthy text sections)) as (groups & Hc & Hne & _ & Hmap).
    assert (Hink : Forall (fun s => has_ink s = true /\ strip s = s)
                     (map content (_merge_small_chunks (raw_chunks text sections) MAX))).
    { rewrite Hmap. apply Forall_fmap. apply Forall_forall. intros g Hg.
      simpl. unfold rendered. split; [|apply strip_idem].
      rewrite has_ink_strip. apply join_has_ink.
      - rewrite Forall_forall in Hne. specialize (Hne g Hg). by destruct g.
      - apply Forall_fmap. pose proof (raw_chunks_ink text sections) as Hraw.
        rewrite <- Hc in Hraw. rewrite Forall_concat in Hraw.
        rewrite Forall_forall in Hraw. by apply Hraw. }
    apply Forall_fmap in Hink.
    split; [|done]. eapply Forall_impl; [exact Hink|].
    intros c [Hi _]. simpl in Hi. by apply has_ink_nonempty.
Qed.

End ChunkerMore.

(** ** Figure matching, further *)

Module FiguresMore.
Import Figures FiguresProps SortProps.

Definition shown (m : matched_figure) : Z * str := (page m, description m).
Definition held (fd : figure_description) : Z * str := (fd_page fd, fd_description fd).

(** A label that [_match_figures_to_paper] can give to an image. *)
Definition label_ok (text : str) (m : matched_figure) : Prop :=
  (exists r, r ∈ unique_refs text /\ label m = py "Fig. " ++ str_of_Z (fig_num r))
  \/ label m = py "Image from Page " ++ str_of_Z (page m).

Lemma zip_with_labelled (imgs : list figure_description) : forall (refs : list fig_ref),
  length imgs = length refs ->
  map shown (zip_with (fun img r => labelled (fig_label r) img) imgs refs) = map held imgs.
Proof.
  induction imgs as [|img imgs IH]; intros [|r refs] Hlen; try discriminate; simpl; [done|].
  f_equal. apply IH. by injection Hlen.
Qed.

Lemma sorted_images_perm fds : sorted_images fds ≡ₚ fds.
Proof. apply sorted_by_perm. Qed.

Lemma sorted_refs_elem text r : r ∈ sorted_refs text <-> r ∈ unique_refs text.
Proof. unfold sorted_refs. by rewrite (sorted_by_perm ref_le (unique_refs text)). Qed.

(** X10. Matching keeps every image, once: the result holds the page
    and the description of each described image exactly once, in one
    of the two orders (the given one when the text names no figure,
    by page and index otherwise), and every label is "Fig. n" for a
    figure number n that the text refers to, or "Image from Page p"
    for the image's own page. *)
Theorem match_keeps_every_image (text : str) (fds : list figure_description) :
  let out := _match_figures_to_paper text fds in
  map shown out ≡ₚ map held fds
  /\ (map shown out = map held fds \/ map shown out = map held (sorted_images fds))
  /\ (unique_refs text = [] -> map shown out = map held fds)
  /\ Forall (label_ok text) out.
Proof.
  intros out. subst out. unfold _match_figures_to_paper.
  destruct fds as [|fd fds']; [by repeat split; try left|].
  set (fds := fd :: fds'). clearbody fds.
  destruct (unique_refs text) as [|r0 rs] eqn:Eu.
  - assert (E : map shown (map (fun fd => labelled (page_label fd) fd) fds) = map held fds)
      by (rewrite map_map; by apply map_ext).
    split; [by rewrite E|]. split; [by left|]. split; [done|].
    apply Forall_fmap, Forall_forall. intros x _. by right.
  - assert (Hperm : map held (sorted_images fds) ≡ₚ map held fds)
      by (apply Permutation_map, sorted_images_perm).
    destruct (length (sorted_images fds) =? length (sorted_refs text))%nat eqn:El.
    + apply Nat.eqb_eq in El.
      rewrite (zip_with_labelled _ _ El).
      split; [done|]. split; [by right|]. split; [done|].
      apply Forall_forall. intros m Hm.
      apply elem_of_lookup_zip_with in Hm as (i & img & r & -> & _ & Hr).
      left. exists r. split; [|done].
      apply sorted_refs_elem. by eapply list_elem_of_lookup_2.
    + unfold greedy_match.
      set (asg := assign _).
      assert (E : forall (f : nat -> figure_description -> str) imgs,
                 map shown (imap (fun i img => labelled (f i img) img) imgs) = map held imgs).
      { intros f imgs. revert f. induction imgs as [|img imgs IH]; intros f; simpl; [done|].
        f_equal. apply (IH (f ∘ S)). }
      set (lbl := fun (i : nat) (img : figure_description) =>
                    match find (fun a : nat * nat => (a.1 =? i)%nat) asg with
                    | Some (_, j) =>
                        match sorted_refs text !! j with
                        | Some r => fig_label r
                        | None => page_label img
                        end
                    | None => page_label img
                    end).
      assert (Eout : imap (fun i img =>
                match find (fun a : nat * nat => (a.1 =? i)%nat) asg with
                | Some (_, j) =>
                    match sorted_refs text !! j with
                    | Some r => labelled (fig_label r) img
                    | None => labelled (page_label img) img
                    end
                | None => labelled (page_label img) img
                end) (sorted_images fds)
              = imap (fun i img => labelled (lbl i img) img) (sorted_images fds)).
      { apply imap_ext. intros i img _. unfold lbl.
        destruct (find _ asg) as [[? j]|]; [|done]. by destruct (sorted_refs text !! j). }
      rewrite Eout, E.
      split; [done|]. split; [by right|]. split; [done|].
      apply Forall_lookup. intros i m Hm.
      apply list_lookup_imap_Some in Hm as (img & _ & ->). unfold lbl, label_ok. simpl.
      destruct (find _ asg) as [[? j]|]; [|by right].
      destruct (sorted_refs text !! j) as [r|] eqn:Er; [|by right].
      left. exists r. split; [|done].
      apply sorted_refs_elem. by eapply list_elem_of_lookup_2.
Qed.

Lemma py_inj (a b : string) : py a = py b -> a = b.
Proof.
  unfold py. intros H.
  assert (Hm : forall x y : list Ascii.ascii,
             map Ascii.N_of_ascii x = map Ascii.N_of_ascii y -> x = y).
  { induction x as [|c x IH]; intros [|d y] E; try discriminate; [done|].
    injection E as Ec Er. f_equal; [|by apply IH].
    rewrite <- (Ascii.ascii_N_embedding c), <- (Ascii.ascii_N_embedding d).
    by rewrite Ec. }
  apply Hm in H.
  rewrite <- (String.string_of_list_ascii_of_string a),
          <- (String.string_of_list_ascii_of_string b).
  by rewrite H.
Qed.

Lemma str_of_Z_inj (a b : Z) : str_of_Z a = str_of_Z b -> a = b.
Proof.
  unfold str_of_Z. intros H%py_inj.
  assert (Hnil : forall z, Z.to_int z <> Decimal.Pos Decimal.Nil
                           /\ Z.to_int z <> Decimal.Neg Decimal.Nil).
  { intros z. split; intros E; pose proof (f_equal Z.of_int E) as E2;
      rewrite DecimalZ.of_to in E2; simpl in E2; subst z; vm_compute in E;
      discriminate. }
  apply DecimalZ.to_int_inj.
  destruct (Hnil a) as [Ha1 Ha2]. destruct (Hnil b) as [Hb1 Hb2].
  pose proof (NilZero.isi _ Ha1 Ha2) as Ia. pose proof (NilZero.isi _ Hb1 Hb2) as Ib.
  rewrite H in Ia. congruence.
Qed.

Lemma fig_label_inj (r r' : fig_ref) : fig_label r = fig_label r' -> fig_num r = fig_num r'.
Proof. unfold fig_label. intros H%app_inv_head. by apply str_of_Z_inj. Qed.

Lemma page_label_no_fig (img : figure_description) (n : Z) :
  page_label img <> py "Fig. " ++ str_of_Z n.
Proof.
  unfold page_label. intros H. apply (f_equal head) in H. vm_compute in H. discriminate.
Qed.

Lemma increasing_lookup_inj (refs : list fig_ref) :
  StronglySorted (fun a b => fig_num a < fig_num b) refs ->
  forall i j r r', refs !! i = Some r -> refs !! j = Some r' ->
                   fig_num r = fig_num r' -> i = j.
Proof.
  induction 1 as [|x l Hs IH Hall]; intros i j r r' Hi Hj E; [done|].
  rewrite Forall_forall in Hall.
  destruct i as [|i], j as [|j]; simpl in *.
  - done.
  - injection Hi as <-. apply list_elem_of_lookup_2, Hall in Hj. lia.
  - injection Hj as <-. apply list_elem_of_lookup_2, Hall in Hi. lia.
  - f_equal. by eapply IH.
Qed.

(** The greedy pass uses an image and a reference at most once. *)
Lemma assign_injective (scores : list (nat * nat * Q)) :
  NoDup (assign scores).*1 /\ NoDup (assign scores).*2.
Proof.
  unfold assign.
  assert (H : forall acc : list (nat * nat),
             NoDup acc.*1 /\ NoDup acc.*2 ->
             let out := fold_left
                          (fun (asg : list (nat * nat)) (e : nat * nat * Q) =>
                             let '(i, j, _) := e in
                             if bool_decide (i ∈ asg.*1) || bool_decide (j ∈ asg.*2)
                             then asg else asg ++ [(i, j)]) scores acc in
             NoDup out.*1 /\ NoDup out.*2).
  { induction scores as [|[[i j] q] scores IH]; intros acc Hacc; simpl; [done|].
    apply IH.
    destruct (decide (i ∈ acc.*1)) as [Hi|Hi].
    { by rewrite bool_decide_eq_true_2. }
    rewrite (bool_decide_eq_false_2 _ Hi). simpl.
    destruct (decide (j ∈ acc.*2)) as [Hj|Hj].
    { by rewrite bool_decide_eq_true_2. }
    rewrite (bool_decide_eq_false_2 _ Hj).
    destruct Hacc as [H1 H2]. rewrite !fmap_app. simpl.
    split; apply NoDup_app; (split; [done|]);
      (split; [|apply NoDup_singleton]); intros x Hx [->|[]%elem_of_nil]%elem_of_cons; done. }
  apply H. split; constructor.
Qed.

Lemma snd_determines_fst (l : list (nat * nat)) (a b j : nat) :
  NoDup l.*2 -> (a, j) ∈ l -> (b, j) ∈ l -> a = b.
Proof.
  induction l as [|[x y] l IH]; intros Hnd Ha Hb; [by apply elem_of_nil in Ha|].
  simpl in Hnd. apply NoDup_cons in Hnd as [Hy Hnd].
  apply elem_of_cons in Ha as [Ea|Ha]; apply elem_of_cons in Hb as [Eb|Hb].
  - congruence.
  - injection Ea as -> ->. exfalso. apply Hy.
    apply list_elem_of_fmap. by exists (b, y).
  - injection Eb as -> ->. exfalso. apply Hy.
    apply list_elem_of_fmap. by exists (a, y).
  - by apply IH.
Qed.

(** X11. No figure number is given to two images: two entries of the
    result that carry the same label "Fig. n" are the same entry. *)
Theorem no_figure_number_twice (text : str) (fds : list figure_description)
  (i i' : nat) (a b : matched_figure) (n : Z) :
  let out := _match_figures_to_paper text fds in
  out !! i = Some a -> out !! i' = Some b ->
  label a = py "Fig. " ++ str_of_Z n -> label b = label a ->
  i = i'.
Proof.
  intros out. subst out. unfold _match_figures_to_paper.
  destruct fds as [|fd fds']; [done|].
  set (fds := fd :: fds'). clearbody fds.
  pose proof (sorted_refs_increasing text) as Hinc.
  destruct (unique_refs text) as [|r0 rs] eqn:Eu.
  - intros Ha _ La _. rewrite list_lookup_fmap in Ha.
    destruct (fds !! i) as [img|]; [|discriminate]. injection Ha as <-.
    simpl in La. by apply page_label_no_fig in La.
  - destruct (length (sorted_images fds) =? length (sorted_refs text))%nat.
    + intros Ha Hb La Lb.
      apply lookup_zip_with_Some in Ha as (img & r & -> & _ & Hr).
      apply lookup_zip_with_Some in Hb as (img' & r' & -> & _ & Hr').
      simpl in *. apply fig_label_inj in Lb.
      by eapply (increasing_lookup_inj _ Hinc).
    + unfold greedy_match. set (asg := assign _).
      assert (Hnd : NoDup asg.*2) by apply assign_injective.
      clearbody asg. intros Ha Hb La Lb.
      apply list_lookup_imap_Some in Ha as (img & _ & ->).
      apply list_lookup_imap_Some in Hb as (img' & _ & ->).
      destruct (find (fun a : nat * nat => (a.1 =? i)%nat) asg) as [[x j]|] eqn:Fi;
        [|by apply page_label_no_fig in La].
      destruct (sorted_refs text !! j) as [r|] eqn:Er;
        [|by apply page_label_no_fig in La].
      simpl in La.
      destruct (find (fun a : nat * nat => (a.1 =? i')%nat) asg) as [[x' j']|] eqn:Fi';
        [|simpl in Lb; rewrite La in Lb; by apply page_label_no_fig in Lb].
      destruct (sorted_refs text !! j') as [r'|] eqn:Er';
        [|simpl in Lb; rewrite La in Lb; by apply page_label_no_fig in Lb].
      simpl in Lb. apply fig_label_inj in Lb.
      assert (j' = j) by (by eapply (increasing_lookup_inj _ Hinc)). subst j'.
      apply find_some in Fi as [Hin Hx]. apply find_some in Fi' as [Hin' Hx'].
      simpl in *. apply Nat.eqb_eq in Hx, Hx'. subst x x'.
      apply list_elem_of_In in Hin, Hin'.
      by eapply snd_determines_fst.
Qed.

Lemma no_figure_number_twice_witness :
  exists a,
    _match_figures_to_paper two_figure_text two_images !! 0%nat = Some a
    /\ label a = py "Fig. " ++ str_of_Z 1
    /\ 0%nat = 0%nat.
Proof.
  eexists. split; [vm_compute; reflexivity|]. split; [vm_compute; reflexivity|].
  eapply (no_figure_number_twice two_figure_text two_images 0 0 _ _ 1);
    vm_compute; reflexivity.
Defined.

End FiguresMore.

(** ** Describing the figures *)

Module OrchestratorMore.
Import Figures Chunker Grounding Validator Store Correction Orchestrator.
Import ValidatorProps SortProps OrchestratorProps.
Local Open Scope monad_scope.

(** The description [d] was made for the image [fig]. *)
Definition described_from (fig : figure_image) (d : figure_description) : Prop :=
  fd_index d = Some (img_index fig) /\ fd_page d = img_page fig
  /\ fd_caption d = img_caption fig /\ truthy (img_base64 fig) = true.

Definition vision_request (fig : figure_image) : event :=
  EvCall (VisionReq (img_caption fig) (img_base64 fig)).

Definition has_data (fig : figure_image) : bool := truthy (img_base64 fig).

Section WithService.
Variable llm : list event -> request -> result str.

Lemma describe_single_figure_total (fig : figure_image) (w : world) :
  exists o,
    (_describe_single_figure llm fig w).2 = Ok o
    /\ (forall d, o = Some d -> described_from fig d)
    /\ trace (_describe_single_figure llm fig w).1
       = trace w ++ (if has_data fig then [vision_request fig] else []).
Proof.
  unfold _describe_single_figure, has_data.
  destruct (truthy (img_base64 fig)) eqn:Eb; simpl.
  - unfold try_except, bind, call, ret. simpl.
    destruct (llm (trace w) _) as [description|e]; simpl.
    + destruct (contains description _); simpl; eexists; (split; [reflexivity|]);
        (split; [|done]); intros d [= <-]; by repeat split.
    + eexists. split; [reflexivity|]. split; [|done]. intros d [= <-]. by repeat split.
  - exists None. split; [done|]. split; [done|]. by rewrite app_nil_r.
Qed.

Lemma run_all_describe (figs : list figure_image) : forall w,
  exists os,
    gather (run_all (_describe_single_figure llm) figs w).2 = Ok os
    /\ Forall2 (fun fig o => forall d, o = Some d -> described_from fig d) figs os
    /\ trace (run_all (_describe_single_figure llm) figs w).1
       = trace w ++ map vision_request (List.filter has_data figs).
Proof.
  induction figs as [|fig figs IH]; intros w; simpl.
  - exists []. split; [done|]. split; [constructor|]. by rewrite app_nil_r.
  - destruct (describe_single_figure_total fig w) as (o & Eo & Hd & Ht).
    destruct (_describe_single_figure llm fig w) as [w1 r]. simpl in *. subst r.
    destruct (IH w1) as (os & Eos & Hall & Hts).
    destruct (run_all _ figs w1) as [w2 rs]. simpl in *.
    rewrite Eos. simpl. exists (o :: os). split; [done|]. split; [by constructor|].
    rewrite Hts, Ht. destruct (has_data fig); simpl.
    + by rewrite <- (assoc_L (++)).
    + by rewrite app_nil_r.
Qed.

End WithService.

Definition index_le (a b : figure_description) : bool :=
  default 0 (fd_index a) <=? default 0 (fd_index b).

Lemma describe_figures_outcome (llm : list event -> request -> result str)
  (figure_images : list figure_image) (w : world) :
  let r := describe_figures llm figure_images w in
  exists ds,
    r.2 = Ok ds
    /\ (length ds <= length figure_images)%nat
    /\ StronglySorted (fun a b => index_le a b = true) ds
    /\ Forall (fun d => exists fig, fig ∈ figure_images /\ described_from fig d) ds
    /\ trace r.1 = trace w ++ map vision_request (List.filter has_data figure_images)
    /\ heap r.1 = heap w /\ fig_cache r.1 = fig_cache w.
Proof.
  intros r. subst r. unfold describe_figures.
  destruct figure_images as [|fig figs].
  { exists []. simpl. rewrite app_nil_r. repeat split; try done; constructor. }
  set (figure_images := fig :: figs). clearbody figure_images.
  unfold _describe_figures_parallel, bind, parallel, ret.
  destruct (run_all_describe llm figure_images w) as (os & Eos & Hall & Ht).
  assert (Hw : heap (run_all (_describe_single_figure llm) figure_images w).1 = heap w
               /\ fig_cache (run_all (_describe_single_figure llm) figure_images w).1
                  = fig_cache w).
  { clear. revert w. induction figure_images as [|f fs IH]; intros w; simpl; [done|].
    assert (H1 : heap (_describe_single_figure llm f w).1 = heap w
                 /\ fig_cache (_describe_single_figure llm f w).1 = fig_cache w).
    { unfold _describe_single_figure. destruct (negb _); [done|].
      unfold try_except, bind, call, ret. simpl.
      destruct (llm (trace w) _); [|done]. by destruct (contains _ _). }
    destruct (_describe_single_figure llm f w) as [w1 r1]. simpl in *.
    specialize (IH w1). destruct (run_all _ fs w1) as [w2 rs]. simpl in *.
    destruct H1 as [<- <-]. done. }
  destruct (run_all _ figure_images w) as [w' rs]. simpl in *. rewrite Eos. simpl.
  eexists. split; [reflexivity|].
  assert (Htot : forall a b, index_le a b = false -> index_le b a = true)
    by (unfold index_le; intros; lia).
  assert (Htr : forall a b c, index_le a b = true -> index_le b c = true ->
                              index_le a c = true) by (unfold index_le; intros; lia).
  pose proof (sorted_by_perm index_le (omap id os)) as Hp.
  split; [|split; [|split]].
  - fold index_le. rewrite Hp. apply Forall2_length in Hall. rewrite Hall.
    clear. induction os as [|o os IH]; [done|].
    change (omap id (o :: os))
      with (match o with Some d => d :: omap id os | None => omap id os end).
    destruct o; simpl; lia.
  - apply (sorted_by_sorted index_le Htot Htr).
  - fold index_le. rewrite Hp. apply Forall_forall. intros d Hd.
    apply list_elem_of_omap in Hd as (o & Ho & Eo). simpl in Eo. subst o.
    apply list_elem_of_lookup in Ho as (i & Hi).
    destruct (Forall2_lookup_r _ _ _ _ _ Hall Hi) as (fig' & Hfig & Hd).
    exists fig'. split; [by eapply list_elem_of_lookup_2|by apply Hd].
  - done.
Qed.


(** X12. Describing the figures never raises, whatever the vision
    service does. It makes one vision call for each image that
    carries data and none for the others, and returns at most one
    description per image, each with the index, page and caption of
    its image, ordered by index. *)
Theorem describe_figures_total (llm : list event -> request -> result str)
  (figure_images : list figure_image) (w : world) :
  let r := describe_figures llm figure_images w in
  exists ds,
    r.2 = Ok ds
    /\ (length ds <= length figure_images)%nat
    /\ StronglySorted (fun a b => index_le a b = true) ds
    /\ Forall (fun d => exists fig, fig ∈ figure_images /\ described_from fig d) ds
    /\ (exists new, trace r.1 = trace w ++ new
                     /\ new ≡ₚ map vision_request (List.filter has_data figure_images))
    /\ heap r.1 = heap w /\ fig_cache r.1 = fig_cache w.
Proof.
  intros r. subst r.
  destruct (describe_figures_outcome llm figure_images w)
    as (ds & E & Hlen & Hs & Hall & Ht & Hh & Hc).
  exists ds. repeat split; try done. by eexists.
Qed.

End OrchestratorMore.

(** ** The figure cache ([workflow_runner.py]) *)

Module CacheProps.
Import Figures Orchestrator Workflow ValidatorProps OrchestratorProps OrchestratorMore.
Local Open Scope monad_scope.

Lemma str_eqb_refl (k : str) : str_eqb k k = true.
Proof. by apply bool_decide_eq_true_2. Qed.

Lemma str_eqb_neq (a b : str) : a <> b -> str_eqb a b = false.
Proof. apply bool_decide_eq_false_2. Qed.

Lemma assoc_assoc_set {V} (kvs : list (str * V)) (k : str) (v : V) :
  assoc (assoc_set kvs k v) k = Some v
  /\ forall k', k' <> k -> assoc (assoc_set kvs k v) k' = assoc kvs k'.
Proof.
  unfold assoc. induction kvs as [|[k0 v0] kvs [IH1 IH2]]; simpl.
  - rewrite str_eqb_refl. split; [done|].
    intros k' Hk. by rewrite str_eqb_neq.
  - destruct (decide (k0 = k)) as [->|Hne].
    + rewrite str_eqb_refl. simpl. rewrite str_eqb_refl. split; [done|].
      intros k' Hk. by rewrite !str_eqb_neq.
    + rewrite (str_eqb_neq k0 k) by done. simpl.
      rewrite (str_eqb_neq k0 k) by done. split; [done|].
      intros k' Hk. destruct (decide (k0 = k')) as [->|Hne'].
      * by rewrite !str_eqb_refl.
      * rewrite !(str_eqb_neq k0 k') by done. by apply IH2.
Qed.

Lemma figure_step_with_id (llm : list event -> request -> result str)
  (figure_images : list figure_image) (doc_id : str) (w : world) :
  figure_images <> [] -> truthy doc_id = true ->
  figure_step llm figure_images (Some doc_id) w
  = match default [] (assoc (fig_cache w) doc_id) with
    | [] =>
        match describe_figures llm figure_images w with
        | (w', Ok described) =>
            ({| trace := trace w'; heap := heap w';
                fig_cache := assoc_set (fig_cache w') doc_id described |}, Ok described)
        | (w', Raise e) => (w', Raise e)
        end
    | fds => (w, Ok fds)
    end.
Proof.
  intros Hf Hd. unfold figure_step.
  destruct figure_images as [|fig figs]; [done|]. rewrite Hd.
  unfold bind at 1. unfold _load_cached_descriptions. simpl.
  destruct (default [] (assoc (fig_cache w) doc_id)) as [|c cs]; [|done].
  unfold bind, _save_cached_descriptions, ret.
  destruct (describe_figures llm (fig :: figs) w) as [w' [described|e]]; done.
Qed.

(** X13. A cached, non-empty list of descriptions is reused: the
    figure step returns it and calls nobody, whatever images it is
    given. *)
Theorem cached_descriptions_are_reused (llm : list event -> request -> result str)
  (figure_images : list figure_image) (doc_id : str)
  (cached : list figure_description) (w : world) :
  figure_images <> [] -> truthy doc_id = true ->
  assoc (fig_cache w) doc_id = Some cached -> cached <> [] ->
  figure_step llm figure_images (Some doc_id) w = (w, Ok cached).
Proof.
  intros Hf Hd Hc Hne. rewrite figure_step_with_id by done.
  rewrite Hc. simpl. by destruct cached.
Qed.

Definition one_description : figure_description :=
  {| fd_index := Some 1; fd_page := 3; fd_caption := [];
     fd_description := py "A forest plot." |}.
Definition cached_world : world :=
  {| trace := []; heap := []; fig_cache := [(py "doc-1", [one_description])] |}.

Lemma cached_descriptions_are_reused_witness :
  figure_step no_service [logo] (Some (py "doc-1")) cached_world
  = (cached_world, Ok [one_description]).
Proof.
  apply (cached_descriptions_are_reused no_service [logo] (py "doc-1")
           [one_description] cached_world); try done.
Defined.

(** X14. After the figure step of a run with a document id, the cache
    holds for that document exactly the descriptions the step
    returned, and the entries of other documents are as before; the
    step never raises. An empty cached list counts as no cache: the
    images are analysed again. *)
Theorem descriptions_are_cached (llm : list event -> request -> result str)
  (figure_images : list figure_image) (doc_id : str) (w : world) :
  figure_images <> [] -> truthy doc_id = true ->
  let r := figure_step llm figure_images (Some doc_id) w in
  exists ds,
    r.2 = Ok ds
    /\ assoc (fig_cache r.1) doc_id = Some ds
    /\ (forall other, other <> doc_id ->
          assoc (fig_cache r.1) other = assoc (fig_cache w) other)
    /\ (default [] (assoc (fig_cache w) doc_id) = [] ->
        r.2 = (describe_figures llm figure_images w).2).
Proof.
  intros Hf Hd r. subst r. rewrite figure_step_with_id by done.
  destruct (default [] (assoc (fig_cache w) doc_id)) as [|c cs] eqn:Ec.
  - destruct (describe_figures_outcome llm figure_images w)
      as (ds & E & _ & _ & _ & _ & _ & Hcache).
    destruct (describe_figures llm figure_images w) as [w1 r1]. simpl in *. subst r1.
    simpl. exists ds. destruct (assoc_assoc_set (fig_cache w1) doc_id ds) as [H1 H2].
    split; [done|]. split; [done|]. split; [|done].
    intros other Ho. rewrite <- Hcache. by apply H2.
  - simpl. exists (c :: cs). split; [done|]. split; [|by split].
    destruct (assoc (fig_cache w) doc_id) as [l|]; simpl in Ec; by subst.
Qed.

Lemma descriptions_are_cached_witness :
  exists ds,
    (figure_step no_service [logo] (Some (py "doc-1")) empty_world).2 = Ok ds
    /\ assoc (fig_cache (figure_step no_service [logo] (Some (py "doc-1")) empty_world).1)
         (py "doc-1") = Some ds.
Proof.
  destruct (descriptions_are_cached no_service [logo] (py "doc-1") empty_world)
    as (ds & E & Hc & _); [done|done|].
  exists ds. split; [exact E|exact Hc].
Defined.

End CacheProps.

(** ** Normalisation and verbatim quotes *)

Module NormalizeProps.
Import Grounding ChunkerMore.

(** What [_normalize] does to one character before the whitespace is
    collapsed. *)
Definition fold_char (c : char) : char := unify_dash (lower_char c).

Lemma normalize_unfold (s : str) :
  _normalize s = strip (collapse_ws (map fold_char s) false).
Proof. unfold _normalize, lower. by rewrite map_map. Qed.

Lemma is_space_spec (c : char) :
  is_space c = true
  <-> (9 <= c <= 13 \/ 28 <= c <= 32 \/ c = 133 \/ c = 160 \/ c = 5760
       \/ 8192 <= c <= 8202 \/ c = 8232 \/ c = 8233 \/ c = 8239 \/ c = 8287
       \/ c = 12288)%N.
Proof.
  unfold is_space.
  rewrite !orb_true_iff, !andb_true_iff, !N.leb_le, !N.eqb_eq. tauto.
Qed.

Lemma lower_char_spec (c : char) :
  ((65 <= c <= 90)%N /\ lower_char c = (c + 32)%N)
  \/ (~ (65 <= c <= 90)%N /\ lower_char c = c).
Proof.
  unfold lower_char, is_upper.
  destruct (N.leb_spec 65 c), (N.leb_spec c 90); simpl; [left|right..]; split; (lia || done).
Qed.

Definition is_dash (c : char) : Prop := (c = 8211 \/ c = 8212 \/ c = 8210 \/ c = 8722)%N.

Lemma unify_dash_spec (c : char) :
  (is_dash c /\ unify_dash c = 45%N) \/ (~ is_dash c /\ unify_dash c = c).
Proof.
  unfold unify_dash, is_dash.
  destruct (N.eqb_spec c 8211), (N.eqb_spec c 8212), (N.eqb_spec c 8210),
    (N.eqb_spec c 8722); simpl; first [left; split; [lia|done] | right; split; [lia|done]].
Qed.

Lemma same_space (c d : char) :
  (is_space c = true <-> is_space d = true) -> is_space c = is_space d.
Proof. destruct (is_space c), (is_space d); intros [H1 H2]; auto; symmetry; auto. Qed.

Lemma fold_char_space (c : char) : is_space (fold_char c) = is_space c.
Proof.
  apply same_space. rewrite !is_space_spec. unfold fold_char.
  destruct (lower_char_spec c) as [[Hc E]|[Hc E]]; rewrite E.
  - destruct (unify_dash_spec (c + 32)%N) as [[Hd E2]|[Hd E2]]; rewrite E2;
      unfold is_dash in *; lia.
  - destruct (unify_dash_spec c) as [[Hd E2]|[Hd E2]]; rewrite E2;
      unfold is_dash in *; lia.
Qed.

Lemma fold_char_idem (c : char) : fold_char (fold_char c) = fold_char c.
Proof.
  unfold fold_char.
  destruct (lower_char_spec c) as [[Hc E]|[Hc E]]; rewrite E;
    [destruct (unify_dash_spec (c + 32)%N) as [[Hd E2]|[Hd E2]]
    |destruct (unify_dash_spec c) as [[Hd E2]|[Hd E2]]]; rewrite E2;
    match goal with
    | |- unify_dash (lower_char ?x) = _ =>
        destruct (lower_char_spec x) as [[Hx ->]|[Hx ->]];
        [unfold is_dash in *; lia|];
        destruct (unify_dash_spec x) as [[Hy ->]|[Hy ->]]; unfold is_dash in *; (lia || done)
    end.
Qed.

(** A space of a collapsed text is U+0020. *)
Definition plain (c : char) : Prop := is_space c = true -> c = 32%N.

Lemma collapse_ws_app (a b : str) (w : bool) :
  collapse_ws (a ++ b) w
  = collapse_ws a w
    ++ collapse_ws b (match reverse a with c :: _ => is_space c | [] => w end).
Proof.
  revert w. induction a as [|c a IH]; intros w; simpl; [done|].
  assert (Hlast : forall w', match reverse (c :: a) with x :: _ => is_space x | [] => w' end
                             = match reverse a with x :: _ => is_space x | [] => is_space c end).
  { intros w'. rewrite reverse_cons. destruct (reverse a) as [|x r]; done. }
  rewrite Hlast. destruct (is_space c) eqn:Ec.
  - destruct w; rewrite IH; simpl; done.
  - by rewrite IH.
Qed.

Lemma collapse_ws_idem (x : str) : forall w,
  collapse_ws (collapse_ws x w) w = collapse_ws x w.
Proof.
  induction x as [|c r IH]; intros w; simpl; [done|].
  destruct (is_space c) eqn:Ec.
  - destruct w; [apply IH|]. simpl. by rewrite IH.
  - simpl. by rewrite Ec, IH.
Qed.

Lemma collapse_ws_lstrip (x : str) (w : bool) :
  lstrip (collapse_ws x w) = lstrip (collapse_ws x true).
Proof.
  destruct x as [|c r]; simpl; [done|].
  destruct (is_space c) eqn:Ec; [|done].
  destruct w; [done|]. done.
Qed.

Lemma collapse_ws_plain (x : str) (w : bool) : Forall plain (collapse_ws x w).
Proof.
  revert w. induction x as [|c r IH]; intros w; simpl; [constructor|].
  destruct (is_space c) eqn:Ec.
  - destruct w; [apply IH|]. constructor; [done|apply IH].
  - constructor; [|apply IH]. intros H. congruence.
Qed.

(** Collapsing leaves a text alone when its spaces are single U+0020. *)
Fixpoint tidy (w : bool) (s : str) : Prop :=
  match s with
  | [] => True
  | c :: r => (is_space c = true -> c = 32%N /\ w = false) /\ tidy (is_space c) r
  end.

Lemma tidy_fixed (s : str) : forall w, tidy w s -> collapse_ws s w = s.
Proof.
  induction s as [|c r IH]; intros w H; simpl in *; [done|].
  destruct H as [Hc Hr]. destruct (is_space c) eqn:Ec.
  - destruct (Hc eq_refl) as [-> ->]. f_equal. by apply IH.
  - f_equal. by apply IH.
Qed.

Lemma collapse_ws_tidy (x : str) : forall w, tidy w (collapse_ws x w).
Proof.
  induction x as [|c r IH]; intros w; simpl; [done|].
  destruct (is_space c) eqn:Ec.
  - destruct w; [apply IH|]. simpl. split; [done|apply IH].
  - simpl. rewrite Ec. split; [done|apply IH].
Qed.

Lemma tidy_weaken (s : str) (w : bool) : tidy w s -> tidy false s.
Proof. destruct s as [|c r]; simpl; [done|]. intros [Hc Hr]. split; [|done]. intros H. by destruct (Hc H). Qed.

Lemma tidy_app_r (a b : str) (w : bool) : tidy w (a ++ b) -> tidy false b.
Proof.
  revert w. induction a as [|c a IH]; intros w H; simpl in *.
  - by eapply tidy_weaken.
  - destruct H as [_ H]. by eapply IH.
Qed.

Lemma tidy_app_l (a b : str) (w : bool) : tidy w (a ++ b) -> tidy w a.
Proof.
  revert w. induction a as [|c a IH]; intros w H; simpl in *; [done|].
  destruct H as [Hc H]. split; [done|]. by eapply IH.
Qed.

Lemma tidy_strip (s : str) (w : bool) : tidy w s -> tidy false (strip s).
Proof.
  intros H. unfold strip.
  destruct (lstrip_decomp s) as (ws & E & _ & _).
  destruct (rstrip_decomp (lstrip s)) as (ws' & E' & _ & _).
  rewrite E in H. apply tidy_app_r in H. rewrite E' in H. by apply tidy_app_l in H.
Qed.

Lemma Forall_strip {P : char -> Prop} (s : str) : Forall P s -> Forall P (strip s).
Proof.
  intros H. unfold strip.
  destruct (lstrip_decomp s) as (ws & E & _ & _).
  destruct (rstrip_decomp (lstrip s)) as (ws' & E' & _ & _).
  rewrite E in H. apply Forall_app in H as [_ H].
  rewrite E' in H. by apply Forall_app in H as [H _].
Qed.

Lemma collapse_ws_folded (x : str) (w : bool) :
  Forall (fun c => fold_char c = c) x ->
  Forall (fun c => fold_char c = c) (collapse_ws x w).
Proof.
  revert w. induction x as [|c r IH]; intros w Hall; simpl; [constructor|].
  apply Forall_cons in Hall as [Hc Hr].
  destruct (is_space c) eqn:Ec.
  - destruct w; [by apply IH|]. constructor; [done|by apply IH].
  - constructor; [done|by apply IH].
Qed.

(** X15. Normalising is idempotent: a normalised text is its own
    normal form. It has no whitespace at its ends, and its only
    whitespace is single U+0020 characters. *)
Theorem normalize_idempotent (s : str) :
  _normalize (_normalize s) = _normalize s
  /\ strip (_normalize s) = _normalize s
  /\ tidy false (_normalize s).
Proof.
  rewrite !normalize_unfold.
  set (x := map fold_char s).
  assert (Hf : Forall (fun c => fold_char c = c) (strip (collapse_ws x false))).
  { apply Forall_strip, collapse_ws_folded. unfold x. apply Forall_fmap.
    apply Forall_forall. intros c _. apply fold_char_idem. }
  assert (Ht : tidy false (strip (collapse_ws x false)))
    by (eapply tidy_strip, collapse_ws_tidy).
  split; [|split; [apply strip_idem|done]].
  assert (Hm : map fold_char (strip (collapse_ws x false)) = strip (collapse_ws x false)).
  { clear Ht. induction Hf as [|c l Hc _ IH]; simpl; [done|]. by rewrite Hc, IH. }
  rewrite Hm, (tidy_fixed _ _ Ht). apply strip_idem.
Qed.

Lemma startswith_app (m b : str) : startswith (m ++ b) m = true.
Proof. induction m as [|c m IH]; simpl; [by destruct b|]. by rewrite N.eqb_refl. Qed.

Lemma contains_startswith (s m : str) : startswith s m = true -> contains s m = true.
Proof. intros H. destruct s; cbn [contains]; by rewrite H. Qed.

Lemma contains_middle (a m b : str) : contains (a ++ m ++ b) m = true.
Proof.
  induction a as [|c a IH].
  - change ([] ++ m ++ b) with (m ++ b). apply contains_startswith, startswith_app.
  - cbn [app contains]. by rewrite IH, orb_true_r.
Qed.

Lemma lstrip_keeps (a m b : str) :
  match m with c :: _ => is_space c = false | [] => False end ->
  exists a', lstrip (a ++ m ++ b) = a' ++ m ++ b.
Proof.
  intros Hm. induction a as [|c a [a' IH]]; simpl.
  - exists []. destruct m as [|x m]; [done|]. simpl. by rewrite Hm.
  - destruct (is_space c); [by exists a'|by exists (c :: a)].
Qed.

Lemma rstrip_keeps (a m b : str) :
  match reverse m with c :: _ => is_space c = false | [] => False end ->
  exists b', rstrip (a ++ m ++ b) = a ++ m ++ b'.
Proof.
  intros Hm. unfold rstrip. rewrite !reverse_app, <- (assoc_L (++)).
  destruct (lstrip_keeps (reverse b) (reverse m) (reverse a) Hm) as (b' & ->).
  exists (reverse b'). by rewrite !reverse_app, !reverse_involutive, <- (assoc_L (++)).
Qed.

Lemma strip_ends (s : str) :
  strip s <> [] ->
  match strip s with c :: _ => is_space c = false | [] => False end
  /\ match reverse (strip s) with c :: _ => is_space c = false | [] => False end.
Proof.
  unfold strip. intros Hne.
  destruct (lstrip_decomp s) as (_ & _ & _ & Hh).
  destruct (rstrip_decomp (lstrip s)) as (ws & E & Hws & Hl).
  split.
  - destruct (lstrip s) as [|c r]; [done|].
    destruct (rstrip (c :: r)) as [|c' r'] eqn:Er; [done|].
    simpl in E. by injection E as <- _.
  - destruct (reverse (rstrip (lstrip s))) as [|c r] eqn:Er; [|done].
    apply (f_equal reverse) in Er. by rewrite reverse_involutive in Er.
Qed.

Lemma strip_keeps (a m b : str) :
  match m with c :: _ => is_space c = false | [] => False end ->
  match reverse m with c :: _ => is_space c = false | [] => False end ->
  exists a' b', strip (a ++ m ++ b) = a' ++ m ++ b'.
Proof.
  intros H1 H2. unfold strip.
  destruct (lstrip_keeps a m b H1) as (a' & ->).
  destruct (rstrip_keeps a' m b H2) as (b' & ->). by exists a', b'.
Qed.

Lemma has_ink_fold (s : str) : has_ink (map fold_char s) = has_ink s.
Proof.
  induction s as [|c s IH]; simpl; [done|]. by rewrite fold_char_space, IH.
Qed.

Lemma has_ink_collapse (s : str) (w : bool) : has_ink (collapse_ws s w) = has_ink s.
Proof.
  revert w. induction s as [|c s IH]; intros w; simpl; [done|].
  destruct (is_space c) eqn:Ec; simpl.
  - destruct w; [apply IH|]. simpl. apply IH.
  - by rewrite Ec.
Qed.

(** A text that holds [q] holds the normal form of [q] in its own
    normal form. *)
Lemma normalize_contains (pre q post : str) :
  has_ink q = true ->
  contains (_normalize (pre ++ q ++ post)) (_normalize q) = true.
Proof.
  intros Hink. rewrite !normalize_unfold, !map_app.
  set (fq := map fold_char q).
  rewrite collapse_ws_app, collapse_ws_app.
  set (a := collapse_ws (map fold_char pre) false).
  set (w1 := match reverse (map fold_char pre) with c :: _ => is_space c | [] => false end).
  set (b := collapse_ws (map fold_char post) _).
  assert (Hne : strip (collapse_ws fq false) <> []).
  { apply has_ink_nonempty. rewrite has_ink_strip, has_ink_collapse. unfold fq.
    by rewrite has_ink_fold. }
  destruct (strip_ends _ Hne) as [H1 H2].
  set (nq := strip (collapse_ws fq false)) in *.
  destruct (lstrip_decomp (collapse_ws fq w1)) as (ws1 & E1 & _ & _).
  rewrite collapse_ws_lstrip, <- (collapse_ws_lstrip fq false) in E1.
  destruct (rstrip_decomp (lstrip (collapse_ws fq false))) as (ws2 & E2 & _ & _).
  fold (strip (collapse_ws fq false)) in E2. fold nq in E2.
  rewrite E1, E2, <- !(assoc_L (++)), (assoc_L (++) a ws1).
  destruct (strip_keeps (a ++ ws1) nq (ws2 ++ b) H1 H2) as (a' & b' & ->).
  apply contains_middle.
Qed.

(** X16. A quote that the source holds word for word is grounded with
    score 1.0, as is any quote with the same normal form (other case,
    other dashes, other spacing), when it has at least 10 characters
    after trimming. *)
Theorem verbatim_quote_is_grounded (pre held post quote : str) :
  10 <= len (strip quote) ->
  _normalize quote = _normalize held ->
  verify_quote (pre ++ held ++ post) (JStr quote)
  = Ok {| q_quote := JStr (ellipsis 100 quote); q_grounded := Some true;
          q_score := 1%Q; q_detail := None |}.
Proof.
  intros Hlen Hnorm.
  assert (Hs : strip quote <> []) by (intros E; rewrite E in Hlen; unfold len in Hlen; simpl in Hlen; lia).
  assert (Hq : has_ink quote = true).
  { rewrite <- has_ink_strip. by apply strip_nonempty_ink. }
  assert (Hh : has_ink held = true).
  { assert (Hn : has_ink (_normalize quote) = true).
    { rewrite normalize_unfold, has_ink_strip, has_ink_collapse, has_ink_fold. done. }
    rewrite Hnorm, normalize_unfold, has_ink_strip, has_ink_collapse, has_ink_fold in Hn.
    done. }
  unfold verify_quote.
  replace (json_truthy (JStr quote)) with true by (by destruct quote).
  simpl negb. cbv iota.
  rewrite (proj2 (Z.ltb_ge _ _) Hlen).
  unfold _fuzzy_contains. rewrite Hnorm, (normalize_contains pre held post Hh).
  replace (round2 (flt 1)) with 1%Q by (by vm_compute). reflexivity.
Qed.

Lemma verbatim_quote_is_grounded_witness :
  exists v,
    verify_quote (py "Results: Overall Survival improved. End.")
      (JStr (py "overall   survival improved")) = Ok v
    /\ q_grounded v = Some true.
Proof.
  eexists. split.
  - apply (verbatim_quote_is_grounded (py "Results: ") (py "Overall Survival improved")
             (py ". End.") (py "overall   survival improved")).
    + vm_compute. discriminate.
    + vm_compute. reflexivity.
  - reflexivity.
Defined.

End NormalizeProps.
